(** * Scrubbing of deleted core document versions

    A model of [scrubDeletedCoreDocumentVersionsCheck] and [scrubDocument]
    (the check that removes the blobs and the metadata rows of deleted
    document versions).

    The check is asynchronous JavaScript.  Every [await] of a database query
    or of a bucket request is split in two moments: the moment the database
    or the bucket carries the request out ([Settle]), and the moment the
    awaiting code is resumed with the answer ([Resume]).  Between the two,
    and between any two requests, the other units of the running chunk may
    take their own turns: a run of the check is a list of such turns, chosen
    by the environment, and the properties below are proved for every such
    list.  The synchronous code between two awaits runs in one turn, as it
    does on the JavaScript event loop.

    Two smaller parts follow the check: the updates of the configuration of
    a tables-query action ([TablesQuery]) and the state of the page that
    creates a dataset ([NewDataset]). *)

From Stdlib Require Import ZArith String Ascii List Lia.
From stdpp Require Import base decidable option list gmap strings pretty.

Open Scope string_scope.
Open Scope Z_scope.
Open Scope list_scope.

(** ** Process environment and rows of the two tables *)

(** [process.env]: the three variables read at the top of the module. *)
Record environment := Environment {
  CORE_DATABASE_URI : option string;
  SERVICE_ACCOUNT : option string;
  DUST_DATA_SOURCES_BUCKET : option string
}.

(** [!v] for a variable of the environment: undefined or the empty string. *)
Definition not_defined (v : option string) : bool :=
  match v with
  | None => true
  | Some EmptyString => true
  | Some (String _ _) => false
  end.

(** A row of [data_sources_documents]. *)
Record document := Document {
  row_id : Z;
  created : Z;
  data_source : Z;
  document_id : string;
  hash : string;
  status : string
}.

(** A row of [data_sources]. *)
Record data_source_row := DataSource {
  ds_id : Z;
  project : Z;
  internal_id : string
}.

(** The metadata tables and the bucket of blobs (names of the objects). *)
Record stores := Stores {
  data_sources_documents : list document;
  data_sources : list data_source_row;
  bucket : list string
}.

Definition is_deleted (d : document) : Prop := status d = "deleted".

Definition same_version (ds : Z) (doc h : string) (d : document) : Prop :=
  data_source d = ds ∧ document_id d = doc ∧ hash d = h.

#[global] Instance is_deleted_dec d : Decision (is_deleted d).
Proof. unfold is_deleted. apply _. Defined.

#[global] Instance same_version_dec ds doc h d : Decision (same_version ds doc h d).
Proof. unfold same_version. apply _. Defined.

(** ** The queries and the bucket requests *)

(** [SELECT * FROM data_sources_documents WHERE status = 'deleted'] *)
Definition select_deleted (w : stores) : list document :=
  filter is_deleted (data_sources_documents w).

(** The row a unit looks for: same source, document and hash, not deleted,
    created at or after [deletedAt]. *)
Definition more_recent_same_hash (ds : Z) (doc h : string) (deletedAt : Z)
    (d : document) : Prop :=
  same_version ds doc h d ∧ ¬ is_deleted d ∧ deletedAt <= created d.

#[global] Instance more_recent_same_hash_dec ds doc h at_ d :
  Decision (more_recent_same_hash ds doc h at_ d).
Proof. unfold more_recent_same_hash. apply _. Defined.

(** [SELECT id FROM data_sources_documents WHERE data_source = :data_source
    AND document_id = :document_id AND hash = :hash AND status != 'deleted'
    AND created >= :deletedAt LIMIT 1] *)
Definition select_more_recent (w : stores) (ds : Z) (doc h : string)
    (deletedAt : Z) : list Z :=
  take 1 (row_id <$> filter (more_recent_same_hash ds doc h deletedAt)
                            (data_sources_documents w)).

(** [SELECT * FROM data_sources WHERE id = :data_source] *)
Definition select_data_source (w : stores) (ds : Z) : list data_source_row :=
  filter (λ s, ds_id s = ds) (data_sources w).

(** [DELETE FROM data_sources_documents WHERE data_source = :data_source AND
    document_id = :document_id AND hash = :hash AND status = 'deleted'] *)
Definition delete_deleted_versions (w : stores) (ds : Z) (doc h : string) : stores :=
  {| data_sources_documents :=
       filter (λ d, ¬ (same_version ds doc h d ∧ is_deleted d))
              (data_sources_documents w);
     data_sources := data_sources w;
     bucket := bucket w |}.

(** [bucket.getFiles({ prefix })]: the objects whose name starts with [prefix]. *)
Definition getFiles (w : stores) (prefix : string) : list string :=
  filter (λ name, String.prefix prefix name = true) (bucket w).

(** [f.delete()] carried out by the bucket. *)
Definition delete_object (w : stores) (name : string) : stores :=
  {| data_sources_documents := data_sources_documents w;
     data_sources := data_sources w;
     bucket := filter (λ n, n ≠ name) (bucket w) |}.

(** The key of a version in the [seen] set:
    [`${data_source}-${document_id}-${hash}`]. *)
Definition uid (d : document) : string :=
  pretty (data_source d) +:+ "-" +:+ document_id d +:+ "-" +:+ hash d.

(** The chunks of 32 rows built by the first loop of the check. *)
Fixpoint slices {A : Type} (fuel : nat) (l : list A) : list (list A) :=
  match fuel, l with
  | _, [] => []
  | O, _ :: _ => []
  | S fuel', _ :: _ => take 32 l :: slices fuel' (drop 32 l)
  end.

Definition chunks_of {A : Type} (l : list A) : list (list A) :=
  slices (length l) l.

(** ** Requests in flight *)

(** A request that was issued: not yet carried out, or carried out with a
    result ([None] when the request was rejected). *)
Inductive reply (A : Type) : Type :=
| Waiting
| Settled (r : option A).
Arguments Waiting {A}.
Arguments Settled {A} r.

(** One [f.delete()] of a unit: issued, carried out by the bucket (with or
    without success), and handed to the unit's [Promise.all]. *)
Inductive delete_state : Type :=
| DelIssued
| DelSettled (ok : bool)
| DelDelivered (ok : bool).

Inductive error : Type :=
| MissingEnv (name : string)
| DataSourceNotFound (ds : Z)
| RequestFailed.

(** Where one call of [scrubDocument] stands. *)
Inductive progress : Type :=
| AwaitLive (r : reply (list Z))
| AwaitSource (r : reply (list data_source_row))
| AwaitFiles (path : string) (r : reply (list string))
| AwaitDeletes (files : list string)
| AwaitPurge (files : list string) (r : reply unit)
| Returned (done : bool)
| Thrown (e : error).

(** One unit: the row [d] of [chunk.map((d) => ...)], the index of its chunk,
    its progress and the [f.delete()] calls it has issued. *)
Record task := Task {
  row : document;
  batch : nat;
  pc : progress;
  deletes : list (string * delete_state)
}.

Inductive actor : Type :=
| Main
| Unit (i : nat).

(** What the check asks of its collaborators, in the order it asks. *)
Inductive event : Type :=
| Query_deleted
| Query_more_recent (ds : Z) (doc h : string) (deletedAt : Z)
| Query_data_source (ds : Z)
| Get_files (prefix : string)
| Delete_file (name : string)
| File_deleted (name : string) (ok : bool)
| Purge (ds : Z) (doc h : string)
| Seen_add (key : string)
| Log_done (deletedCount : nat)
| Report_success (payload : list (string * Z)).

Inductive main_state : Type :=
| AwaitDeletedDocuments (r : reply (list document))
| AwaitChunk (i : nat) (rest : list (list document))
| Resolved
| Rejected (e : error).

Record machine := Machine {
  env : environment;
  world : stores;
  seen : gset string;
  deletedCount : nat;
  tasks : list task;
  main : main_state;
  trace : list (actor * event)
}.

#[global] Instance error_eq_dec : EqDecision error.
Proof. solve_decision. Defined.
#[global] Instance delete_state_eq_dec : EqDecision delete_state.
Proof. solve_decision. Defined.
#[global] Instance actor_eq_dec : EqDecision actor.
Proof. solve_decision. Defined.
#[global] Instance event_eq_dec : EqDecision event.
Proof. solve_decision. Defined.

(** ** The check, turn by turn *)

Section Scrub.

(** [createHash().update(Buffer.from(document_id)).digest("hex")] of the
    blake3 package, which is not part of this repository. *)
Variable blake3_hex : string → string.

(** [`${dataSource.project}/${dataSource.internal_id}/${documentIdHash}/${hash}`] *)
Definition blob_path (s : data_source_row) (d : document) : string :=
  pretty (project s) +:+ "/" +:+ internal_id s +:+ "/" +:+
  blake3_hex (document_id d) +:+ "/" +:+ hash d.

Definition with_task (i : nat) (t : task) (m : machine) : machine :=
  {| env := env m; world := world m; seen := seen m;
     deletedCount := deletedCount m; tasks := <[i:=t]> (tasks m);
     main := main m; trace := trace m |}.

Definition with_main (s : main_state) (m : machine) : machine :=
  {| env := env m; world := world m; seen := seen m;
     deletedCount := deletedCount m; tasks := tasks m;
     main := s; trace := trace m |}.

Definition with_world (w : stores) (m : machine) : machine :=
  {| env := env m; world := w; seen := seen m;
     deletedCount := deletedCount m; tasks := tasks m;
     main := main m; trace := trace m |}.

Definition log (a : actor) (evs : list event) (m : machine) : machine :=
  {| env := env m; world := world m; seen := seen m;
     deletedCount := deletedCount m; tasks := tasks m;
     main := main m; trace := rev (pair a <$> evs) ++ trace m |}.

Definition with_pc (p : progress) (t : task) : task :=
  {| row := row t; batch := batch t; pc := p; deletes := deletes t |}.

(** [scrubDocument] from its first line to its first [await]: the two
    variables of the environment, the [seen] check, and the query for a more
    recent version with the same hash, which is issued but not yet answered. *)
Definition scrubDocument_begin (e : environment) (s : gset string)
    (d : document) : progress * list event :=
  if not_defined (DUST_DATA_SOURCES_BUCKET e) then
    (Thrown (MissingEnv "DUST_DATA_SOURCES_BUCKET"), [])
  else if not_defined (SERVICE_ACCOUNT e) then
    (Thrown (MissingEnv "SERVICE_ACCOUNT"), [])
  else if bool_decide (uid d ∈ s) then
    (Returned false, [])
  else
    (AwaitLive Waiting,
     [Query_more_recent (data_source d) (document_id d) (hash d) (created d)]).

(** One element of [chunk.map((d) => ...)]: the unit gets the next index. *)
Definition start_unit (b : nat) (m : machine) (d : document) : machine :=
  let '(p, evs) := scrubDocument_begin (env m) (seen m) d in
  {| env := env m; world := world m; seen := seen m;
     deletedCount := deletedCount m;
     tasks := tasks m ++ [Task d b p []];
     main := main m;
     trace := rev (pair (Unit (length (tasks m))) <$> evs) ++ trace m |}.

Definition start_chunk (b : nat) (chunk : list document) (m : machine) : machine :=
  fold_left (start_unit b) chunk m.

(** [Promise.all] over the units of chunk [b]. *)
Inductive outcome : Type :=
| Pending
| Fulfilled
| Failed (e : error).

Fixpoint promise_all (b : nat) (ts : list task) : outcome :=
  match ts with
  | [] => Fulfilled
  | t :: ts' =>
      if decide (batch t = b) then
        match pc t with
        | Thrown e => Failed e
        | Returned _ => promise_all b ts'
        | _ => match promise_all b ts' with
               | Failed e => Failed e
               | _ => Pending
               end
        end
      else promise_all b ts'
  end.

(** After the last chunk: the log line with [deletedCount], then
    [reportSuccess({})]. *)
Definition finish (m : machine) : machine :=
  with_main Resolved (log Main [Log_done (deletedCount m); Report_success []] m).

(** The second loop of the check, from chunk [i] on, up to the first
    [Promise.all] that has to wait. *)
Fixpoint run_chunks (i : nat) (chunks : list (list document)) (m : machine) : machine :=
  match chunks with
  | [] => finish m
  | chunk :: rest =>
      let m' := start_chunk i chunk m in
      match promise_all i (tasks m') with
      | Fulfilled => run_chunks (S i) rest m'
      | Failed e => with_main (Rejected e) m'
      | Pending => with_main (AwaitChunk i rest) m'
      end
  end.

(** The check is resumed as soon as the [Promise.all] it awaits is decided. *)
Definition poll (m : machine) : machine :=
  match main m with
  | AwaitChunk i rest =>
      match promise_all i (tasks m) with
      | Fulfilled => run_chunks (S i) rest m
      | Failed e => with_main (Rejected e) m
      | Pending => m
      end
  | _ => m
  end.

(** The check from its first line to its first [await]. *)
Definition init (e : environment) (w : stores) : machine :=
  if not_defined (CORE_DATABASE_URI e) then
    Machine e w ∅ 0 [] (Rejected (MissingEnv "CORE_DATABASE_URI")) []
  else
    Machine e w ∅ 0 [] (AwaitDeletedDocuments Waiting) [(Main, Query_deleted)].

(** The database or the bucket carries out the request unit [i] awaits. *)
Definition settle (i : nat) (ok : bool) (m : machine) : machine :=
  match tasks m !! i with
  | None => m
  | Some t =>
      let d := row t in
      match pc t with
      | AwaitLive Waiting =>
          let r := if ok then Some (select_more_recent (world m) (data_source d)
                                      (document_id d) (hash d) (created d))
                   else None in
          with_task i (with_pc (AwaitLive (Settled r)) t) m
      | AwaitSource Waiting =>
          let r := if ok then Some (select_data_source (world m) (data_source d))
                   else None in
          with_task i (with_pc (AwaitSource (Settled r)) t) m
      | AwaitFiles path Waiting =>
          let r := if ok then Some (getFiles (world m) path) else None in
          with_task i (with_pc (AwaitFiles path (Settled r)) t) m
      | AwaitPurge files Waiting =>
          if ok then
            with_world (delete_deleted_versions (world m) (data_source d)
                          (document_id d) (hash d))
              (with_task i (with_pc (AwaitPurge files (Settled (Some ()))) t) m)
          else with_task i (with_pc (AwaitPurge files (Settled None)) t) m
      | _ => m
      end
  end.

(** The purge query of unit [i] is issued. *)
Definition issue_purge (i : nat) (files : list string) (t : task) (m : machine) : machine :=
  let d := row t in
  log (Unit i) [Purge (data_source d) (document_id d) (hash d)]
    (with_task i (with_pc (AwaitPurge files Waiting) t) m).

(** The lines after the purge: the names of the files and the key of the
    version join [seen], the unit returns [true] and is counted. *)
Definition mark_done (i : nat) (files : list string) (t : task) (m : machine) : machine :=
  {| env := env m; world := world m;
     seen := seen m ∪ list_to_set files ∪ {[ uid (row t) ]};
     deletedCount := S (deletedCount m);
     tasks := <[i := with_pc (Returned true) t]> (tasks m);
     main := main m;
     trace := rev (pair (Unit i) <$> ((Seen_add <$> files) ++ [Seen_add (uid (row t))]))
              ++ trace m |}.

(** Unit [i] is resumed with the answer to the request it awaits and runs up
    to its next [await], its [return] or its [throw]. *)
Definition resume (i : nat) (m : machine) : machine :=
  match tasks m !! i with
  | None => m
  | Some t =>
      let d := row t in
      match pc t with
      | AwaitLive (Settled None) => with_task i (with_pc (Thrown RequestFailed) t) m
      | AwaitLive (Settled (Some (_ :: _))) =>
          with_task i (with_pc (Returned false) t) m
      | AwaitLive (Settled (Some [])) =>
          log (Unit i) [Query_data_source (data_source d)]
            (with_task i (with_pc (AwaitSource Waiting) t) m)
      | AwaitSource (Settled None) => with_task i (with_pc (Thrown RequestFailed) t) m
      | AwaitSource (Settled (Some [])) =>
          with_task i (with_pc (Thrown (DataSourceNotFound (data_source d))) t) m
      | AwaitSource (Settled (Some (dataSource :: _))) =>
          let path := blob_path dataSource d in
          log (Unit i) [Get_files path]
            (with_task i (with_pc (AwaitFiles path Waiting) t) m)
      | AwaitFiles _ (Settled None) => with_task i (with_pc (Thrown RequestFailed) t) m
      | AwaitFiles _ (Settled (Some files)) =>
          let todo := filter (λ name, name ∉ seen m) files in
          let t' := {| row := d; batch := batch t; pc := AwaitDeletes files;
                       deletes := (λ name, (name, DelIssued)) <$> todo |} in
          match todo with
          | [] => issue_purge i files t' m
          | _ :: _ => log (Unit i) (Delete_file <$> todo) (with_task i t' m)
          end
      | AwaitPurge _ (Settled None) => with_task i (with_pc (Thrown RequestFailed) t) m
      | AwaitPurge files (Settled (Some _)) => mark_done i files t m
      | _ => m
      end
  end.

(** The bucket carries out the [k]-th [f.delete()] of unit [i]. *)
Definition settle_delete (i k : nat) (ok : bool) (m : machine) : machine :=
  match tasks m !! i with
  | None => m
  | Some t =>
      match deletes t !! k with
      | Some (name, DelIssued) =>
          let t' := {| row := row t; batch := batch t; pc := pc t;
                       deletes := <[k := (name, DelSettled ok)]> (deletes t) |} in
          log (Unit i) [File_deleted name ok]
            (with_world (if ok then delete_object (world m) name else world m)
               (with_task i t' m))
      | _ => m
      end
  end.

Definition delivered_ok (x : string * delete_state) : Prop :=
  x.2 = DelDelivered true.

#[global] Instance delivered_ok_dec x : Decision (delivered_ok x).
Proof. unfold delivered_ok. apply _. Defined.

(** The outcome of the [k]-th [f.delete()] of unit [i] reaches the unit's
    [Promise.all]: the first failure makes the unit throw, the last success
    lets it go on to the purge. *)
Definition resume_delete (i k : nat) (m : machine) : machine :=
  match tasks m !! i with
  | None => m
  | Some t =>
      match deletes t !! k with
      | Some (name, DelSettled ok) =>
          let ds' := <[k := (name, DelDelivered ok)]> (deletes t) in
          let t' := {| row := row t; batch := batch t; pc := pc t; deletes := ds' |} in
          match pc t with
          | AwaitDeletes files =>
              if ok then
                if decide (Forall delivered_ok ds') then
                  issue_purge i files t' m
                else with_task i t' m
              else with_task i (with_pc (Thrown RequestFailed) t') m
          | _ => with_task i t' m
          end
      | _ => m
      end
  end.

(** The database answers the query for the deleted rows. *)
Definition settle_main (ok : bool) (m : machine) : machine :=
  match main m with
  | AwaitDeletedDocuments Waiting =>
      with_main (AwaitDeletedDocuments
                   (Settled (if ok then Some (select_deleted (world m)) else None))) m
  | _ => m
  end.

(** The check is resumed with the deleted rows, cuts them in chunks and
    enters the loop over the chunks. *)
Definition resume_main (m : machine) : machine :=
  match main m with
  | AwaitDeletedDocuments (Settled None) => with_main (Rejected RequestFailed) m
  | AwaitDeletedDocuments (Settled (Some deletedDocuments)) =>
      run_chunks 0 (chunks_of deletedDocuments) m
  | _ => m
  end.

(** The turns the environment chooses from. *)
Inductive turn : Type :=
| Settle_main (ok : bool)
| Resume_main
| Settle (i : nat) (ok : bool)
| Resume (i : nat)
| Settle_delete (i k : nat) (ok : bool)
| Resume_delete (i k : nat).

Definition step (m : machine) (c : turn) : machine :=
  match c with
  | Settle_main ok => settle_main ok m
  | Resume_main => resume_main m
  | Settle i ok => settle i ok m
  | Resume i => poll (resume i m)
  | Settle_delete i k ok => settle_delete i k ok m
  | Resume_delete i k => poll (resume_delete i k m)
  end.

Definition run (sched : list turn) (m : machine) : machine :=
  fold_left step sched m.

(** A run of the check in environment [e] on the stores [w]. *)
Definition check (e : environment) (w : stores) (sched : list turn) : machine :=
  run sched (init e w).

(** ** The moves of one unit, as a relation

    [move t w s t' w' s' counted evs]: unit [t], on the stores [w] and with
    the set [s], takes one turn and becomes [t'], leaving the stores [w'] and
    the set [s'], having asked [evs]; [counted] tells whether [deletedCount]
    was incremented.  Each rule is one branch of [settle], [resume],
    [settle_delete] or [resume_delete]. *)

Definition with_deletes (ds : list (string * delete_state)) (t : task) : task :=
  {| row := row t; batch := batch t; pc := pc t; deletes := ds |}.

Definition issued (files : list string) (p : progress) (t : task) : task :=
  {| row := row t; batch := batch t; pc := p;
     deletes := (λ name, (name, DelIssued)) <$> files |}.

Definition purge_of (t : task) : event :=
  Purge (data_source (row t)) (document_id (row t)) (hash (row t)).

Inductive move (t : task) (w : stores) (s : gset string) :
    task → stores → gset string → bool → list event → Prop :=
| live_settled ok :
    pc t = AwaitLive Waiting →
    move t w s
      (with_pc (AwaitLive (Settled (if ok : bool then
         Some (select_more_recent w (data_source (row t)) (document_id (row t))
                 (hash (row t)) (created (row t))) else None))) t)
      w s false []
| live_failed :
    pc t = AwaitLive (Settled None) →
    move t w s (with_pc (Thrown RequestFailed) t) w s false []
| live_skipped x l :
    pc t = AwaitLive (Settled (Some (x :: l))) →
    move t w s (with_pc (Returned false) t) w s false []
| live_passed :
    pc t = AwaitLive (Settled (Some [])) →
    move t w s (with_pc (AwaitSource Waiting) t) w s false
      [Query_data_source (data_source (row t))]
| source_settled ok :
    pc t = AwaitSource Waiting →
    move t w s
      (with_pc (AwaitSource (Settled (if ok : bool then
         Some (select_data_source w (data_source (row t))) else None))) t)
      w s false []
| source_failed :
    pc t = AwaitSource (Settled None) →
    move t w s (with_pc (Thrown RequestFailed) t) w s false []
| source_missing :
    pc t = AwaitSource (Settled (Some [])) →
    move t w s (with_pc (Thrown (DataSourceNotFound (data_source (row t)))) t)
      w s false []
| source_found dataSource l :
    pc t = AwaitSource (Settled (Some (dataSource :: l))) →
    move t w s (with_pc (AwaitFiles (blob_path dataSource (row t)) Waiting) t)
      w s false [Get_files (blob_path dataSource (row t))]
| files_settled path ok :
    pc t = AwaitFiles path Waiting →
    move t w s
      (with_pc (AwaitFiles path (Settled (if ok : bool then
         Some (getFiles w path) else None))) t)
      w s false []
| files_failed path :
    pc t = AwaitFiles path (Settled None) →
    move t w s (with_pc (Thrown RequestFailed) t) w s false []
| files_nothing_to_delete path files :
    pc t = AwaitFiles path (Settled (Some files)) →
    filter (λ name, name ∉ s) files = [] →
    move t w s (issued [] (AwaitPurge files Waiting) t) w s false [purge_of t]
| files_deletes_issued path files :
    pc t = AwaitFiles path (Settled (Some files)) →
    filter (λ name, name ∉ s) files ≠ [] →
    move t w s (issued (filter (λ name, name ∉ s) files) (AwaitDeletes files) t)
      w s false (Delete_file <$> filter (λ name, name ∉ s) files)
| delete_settled k name ok :
    deletes t !! k = Some (name, DelIssued) →
    move t w s (with_deletes (<[k := (name, DelSettled ok)]> (deletes t)) t)
      (if ok then delete_object w name else w) s false [File_deleted name ok]
| delete_ignored k name ok :
    deletes t !! k = Some (name, DelSettled ok) →
    (∀ files, pc t ≠ AwaitDeletes files) →
    move t w s (with_deletes (<[k := (name, DelDelivered ok)]> (deletes t)) t)
      w s false []
| delete_failed k name files :
    deletes t !! k = Some (name, DelSettled false) →
    pc t = AwaitDeletes files →
    move t w s
      (with_pc (Thrown RequestFailed)
         (with_deletes (<[k := (name, DelDelivered false)]> (deletes t)) t))
      w s false []
| delete_delivered k name files :
    deletes t !! k = Some (name, DelSettled true) →
    pc t = AwaitDeletes files →
    ¬ Forall delivered_ok (<[k := (name, DelDelivered true)]> (deletes t)) →
    move t w s (with_deletes (<[k := (name, DelDelivered true)]> (deletes t)) t)
      w s false []
| delete_last k name files :
    deletes t !! k = Some (name, DelSettled true) →
    pc t = AwaitDeletes files →
    Forall delivered_ok (<[k := (name, DelDelivered true)]> (deletes t)) →
    move t w s
      (with_pc (AwaitPurge files Waiting)
         (with_deletes (<[k := (name, DelDelivered true)]> (deletes t)) t))
      w s false [purge_of t]
| purge_settled files :
    pc t = AwaitPurge files Waiting →
    move t w s (with_pc (AwaitPurge files (Settled (Some ()))) t)
      (delete_deleted_versions w (data_source (row t)) (document_id (row t))
         (hash (row t)))
      s false []
| purge_rejected files :
    pc t = AwaitPurge files Waiting →
    move t w s (with_pc (AwaitPurge files (Settled None)) t) w s false []
| purge_failed files :
    pc t = AwaitPurge files (Settled None) →
    move t w s (with_pc (Thrown RequestFailed) t) w s false []
| purge_done files u :
    pc t = AwaitPurge files (Settled (Some u)) →
    move t w s (with_pc (Returned true) t) w
      (s ∪ list_to_set files ∪ {[ uid (row t) ]}) true
      ((Seen_add <$> files) ++ [Seen_add (uid (row t))]).

(** The machine after unit [i] has moved. *)
Definition moved (i : nat) (t' : task) (w' : stores) (s' : gset string)
    (counted : bool) (evs : list event) (m : machine) : machine :=
  {| env := env m; world := w'; seen := s';
     deletedCount := if counted then S (deletedCount m) else deletedCount m;
     tasks := <[i := t']> (tasks m);
     main := main m;
     trace := rev (pair (Unit i) <$> evs) ++ trace m |}.

(** The turns of the units, before the check itself is resumed. *)
Definition unit_turn (m : machine) (c : turn) : machine :=
  match c with
  | Settle i ok => settle i ok m
  | Resume i => resume i m
  | Settle_delete i k ok => settle_delete i k ok m
  | Resume_delete i k => resume_delete i k m
  | _ => m
  end.

Definition is_returned (p : progress) : Prop := ∃ b, p = Returned b.
Definition is_thrown (p : progress) : Prop := ∃ e, p = Thrown e.

(** ** Every turn of a unit is a move *)

Definition turn_of (c : turn) : option nat :=
  match c with
  | Settle i _ | Resume i | Settle_delete i _ _ | Resume_delete i _ => Some i
  | _ => None
  end.

Lemma unit_turn_move m c :
  unit_turn m c = m ∨
  ∃ i t t' w' s' counted evs,
    turn_of c = Some i ∧ tasks m !! i = Some t ∧
    move t (world m) (seen m) t' w' s' counted evs ∧
    unit_turn m c = moved i t' w' s' counted evs m.
Proof.
  destruct c as [ok| |i ok|i|i k ok|i k]; simpl; try (by left).
  - unfold settle. destruct (tasks m !! i) as [t|] eqn:Ht; [|by left].
    destruct (pc t) as [[|r]|[|r]|path [|r]|files|files [|r]|b|e] eqn:Hpc;
      try (by left); right.
    + eexists i, t, _, _, _, _, _. split_and!; [done..|apply (live_settled _ _ _ ok Hpc)|done].
    + eexists i, t, _, _, _, _, _. split_and!; [done..|apply (source_settled _ _ _ ok Hpc)|done].
    + eexists i, t, _, _, _, _, _. split_and!; [done..|apply (files_settled _ _ _ _ ok Hpc)|done].
    + destruct ok.
      * eexists i, t, _, _, _, _, _. split_and!; [done..|apply (purge_settled _ _ _ _ Hpc)|done].
      * eexists i, t, _, _, _, _, _. split_and!; [done..|apply (purge_rejected _ _ _ _ Hpc)|done].
  - unfold resume. destruct (tasks m !! i) as [t|] eqn:Ht; [|by left].
    destruct (pc t) as [[|[[|x l]|]]|[|[[|x l]|]]|path [|[files|]]|files|files [|[u|]]|b|e] eqn:Hpc;
      try (by left); right.
    + eexists i, t, _, _, _, _, _. split_and!; [done..|apply (live_passed _ _ _ Hpc)|done].
    + eexists i, t, _, _, _, _, _. split_and!; [done..|apply (live_skipped _ _ _ _ _ Hpc)|done].
    + eexists i, t, _, _, _, _, _. split_and!; [done..|apply (live_failed _ _ _ Hpc)|done].
    + eexists i, t, _, _, _, _, _. split_and!; [done..|apply (source_missing _ _ _ Hpc)|done].
    + eexists i, t, _, _, _, _, _. split_and!; [done..|apply (source_found _ _ _ _ _ Hpc)|done].
    + eexists i, t, _, _, _, _, _. split_and!; [done..|apply (source_failed _ _ _ Hpc)|done].
    + destruct (filter (λ name, name ∉ seen m) files) as [|n todo] eqn:Hf.
      * eexists i, t, _, _, _, _, _.
        split_and!; [done..|apply (files_nothing_to_delete _ _ _ _ _ Hpc Hf)|done].
      * eexists i, t, _, _, _, _, _. split_and!; [done..| |].
        -- apply (files_deletes_issued _ _ _ _ _ Hpc). by rewrite Hf.
        -- rewrite Hf. done.
    + eexists i, t, _, _, _, _, _. split_and!; [done..|apply (files_failed _ _ _ _ Hpc)|done].
    + eexists i, t, _, _, _, _, _. split_and!; [done..|apply (purge_done _ _ _ _ _ Hpc)|done].
    + eexists i, t, _, _, _, _, _. split_and!; [done..|apply (purge_failed _ _ _ _ Hpc)|done].
  - unfold settle_delete. destruct (tasks m !! i) as [t|] eqn:Ht; [|by left].
    destruct (deletes t !! k) as [[name [|?|?]]|] eqn:Hk; try (by left); right.
    eexists i, t, _, _, _, _, _.
    split_and!; [done..|apply (delete_settled _ _ _ _ _ ok Hk)|done].
  - unfold resume_delete. destruct (tasks m !! i) as [t|] eqn:Ht; [|by left].
    destruct (deletes t !! k) as [[name [|ok|?]]|] eqn:Hk; try (by left); right.
    destruct (pc t) as [r|r|path r|files|files r|b|e] eqn:Hpc;
      try (eexists i, t, _, _, _, _, _; split_and!;
           [done..|apply (delete_ignored _ _ _ _ _ _ Hk); by rewrite Hpc|];
           unfold moved, with_task, with_deletes; simpl; by rewrite Hpc).
    cbv zeta. destruct ok.
    + case_decide as Hall.
      * eexists i, t, _, _, _, _, _.
        split_and!; [done..|apply (delete_last _ _ _ _ _ _ Hk Hpc Hall)|done].
      * eexists i, t, _, _, _, _, _.
        split_and!; [done..|apply (delete_delivered _ _ _ _ _ _ Hk Hpc Hall)|].
        unfold moved, with_task, with_deletes; simpl; by rewrite Hpc.
    + eexists i, t, _, _, _, _, _.
      split_and!; [done..|apply (delete_failed _ _ _ _ _ _ Hk Hpc)|done].
Qed.

(** ** Chunks *)

Lemma slices_concat {A : Type} (fuel : nat) (l : list A) :
  (length l ≤ fuel)%nat → concat (slices fuel l) = l.
Proof.
  revert l. induction fuel as [|fuel IH]; intros [|x l] Hlen; simpl in *; try done; try lia.
  rewrite IH.
  - change (x :: take 31 l ++ drop 31 l = x :: l). by rewrite take_drop.
  - rewrite length_drop. lia.
Qed.

Lemma chunks_of_concat {A : Type} (l : list A) : concat (chunks_of l) = l.
Proof. by apply slices_concat. Qed.

(** ** [Promise.all] *)

Lemma promise_all_fulfilled b ts :
  promise_all b ts = Fulfilled ↔
  Forall (λ t, batch t = b → is_returned (pc t)) ts.
Proof.
  induction ts as [|t ts IH]; simpl.
  - split; [constructor|done].
  - rewrite Forall_cons. case_decide as Hb; [|rewrite IH; naive_solver].
    destruct (pc t) eqn:Hpc.
    7: { split; [done|]. intros [Hr _]. destruct (Hr Hb) as [? [=]]. }
    6: { rewrite IH. split; [intros ?; split; [by eexists|done]|by intros [_ ?]]. }
    all: destruct (promise_all b ts); (split; [done|]);
      intros [Hr _]; destruct (Hr Hb) as [? [=]].
Qed.

Lemma returned_not_thrown p : is_returned p → ¬ is_thrown p.
Proof. intros [? ->] [? [=]]. Qed.

Lemma promise_all_pending b ts :
  promise_all b ts = Pending →
  Forall (λ t, batch t = b → ¬ is_thrown (pc t)) ts.
Proof.
  induction ts as [|t ts IH]; simpl; [constructor|].
  case_decide as Hb; [|intros Hp; constructor; [done|by apply IH]].
  destruct (pc t) eqn:Hpc.
  7: done.
  6: { intros Hp. constructor; [intros _ [? ?]; congruence|by apply IH]. }
  all: destruct (promise_all b ts) eqn:Hall; try done; intros _;
    (constructor; [intros _ [? ?]; congruence|]); try (by apply IH);
    apply promise_all_fulfilled in Hall; eapply Forall_impl; [exact Hall|];
    intros ? Hr Hbb; by apply returned_not_thrown, Hr.
Qed.

Lemma promise_all_failed b ts e :
  promise_all b ts = Failed e → ∃ t, t ∈ ts ∧ batch t = b ∧ is_thrown (pc t).
Proof.
  induction ts as [|t ts IH]; simpl; [done|].
  assert (promise_all b ts = Failed e →
          ∃ t0, t0 ∈ t :: ts ∧ batch t0 = b ∧ is_thrown (pc t0)) as IH'.
  { intros H. destruct (IH H) as (t0 & ? & ? & ?). exists t0.
    split; [by apply list_elem_of_further|done]. }
  case_decide as Hb; [|done].
  destruct (pc t) eqn:Hpc.
  7: { intros _. exists t. split; [apply list_elem_of_here|]. split; [done|].
       rewrite Hpc. by eexists. }
  6: done.
  all: destruct (promise_all b ts); try done; intros [= <-]; by apply IH'.
Qed.

(** ** The units of a chunk are started one after the other *)

Definition begun (e : environment) (s : gset string) (b : nat) (d : document) : task :=
  Task d b (scrubDocument_begin e s d).1 [].

Definition by_unit (x : actor * event) : Prop := ∃ i ev, x = (Unit i, ev).

Lemma start_chunk_spec b chunk m :
  env (start_chunk b chunk m) = env m ∧
  world (start_chunk b chunk m) = world m ∧
  seen (start_chunk b chunk m) = seen m ∧
  deletedCount (start_chunk b chunk m) = deletedCount m ∧
  main (start_chunk b chunk m) = main m ∧
  tasks (start_chunk b chunk m) = tasks m ++ (begun (env m) (seen m) b <$> chunk) ∧
  ∃ evs, trace (start_chunk b chunk m) = evs ++ trace m ∧ Forall by_unit evs.
Proof.
  revert m. induction chunk as [|d chunk IH]; intros m; simpl.
  - rewrite app_nil_r. split_and!; try done. by exists [].
  - destruct (IH (start_unit b m d)) as (He & Hw & Hs & Hc & Hm & Ht & evs & Htr & Hevs).
    unfold start_chunk in *. simpl.
    assert (env (start_unit b m d) = env m ∧ world (start_unit b m d) = world m ∧
            seen (start_unit b m d) = seen m ∧
            deletedCount (start_unit b m d) = deletedCount m ∧
            main (start_unit b m d) = main m ∧
            tasks (start_unit b m d) = tasks m ++ [begun (env m) (seen m) b d] ∧
            ∃ evs0, trace (start_unit b m d) = evs0 ++ trace m ∧ Forall by_unit evs0)
      as (He0 & Hw0 & Hs0 & Hc0 & Hm0 & Ht0 & evs0 & Htr0 & Hevs0).
    { unfold start_unit, begun.
      destruct (scrubDocument_begin (env m) (seen m) d) as [p evs0]. simpl.
      split_and!; try done. eexists. split; [done|].
      apply Forall_rev, Forall_fmap, Forall_forall. intros ev _. by eexists _, _. }
    rewrite He, Hw, Hs, Hc, Hm, Ht, Htr, He0, Hw0, Hs0, Hc0, Hm0, Ht0, Htr0.
    split_and!; try done.
    + by rewrite <- app_assoc.
    + exists (evs ++ evs0). split; [by rewrite app_assoc|]. by apply Forall_app.
Qed.

(** ** What a move keeps *)

(** The [f.delete()] calls of a unit, by its progress: none before the
    listing is answered, none failed and delivered while the unit awaits
    them, all delivered with success once the purge is issued. *)
Definition task_ok (t : task) : Prop :=
  match pc t with
  | AwaitLive _ | AwaitSource _ | AwaitFiles _ _ | Returned false => deletes t = []
  | AwaitDeletes _ => Forall (λ x, x.2 ≠ DelDelivered false) (deletes t)
  | AwaitPurge _ _ | Returned true => Forall delivered_ok (deletes t)
  | Thrown _ => True
  end.

Lemma move_row t w s t' w' s' counted evs :
  move t w s t' w' s' counted evs → row t' = row t.
Proof. by destruct 1. Qed.

Lemma move_batch t w s t' w' s' counted evs :
  move t w s t' w' s' counted evs → batch t' = batch t.
Proof. by destruct 1. Qed.

Lemma delivered_ok_lookup ds k name st :
  Forall delivered_ok ds → ds !! k = Some (name, st) → st = DelDelivered true.
Proof.
  intros Hall Hk. by apply (Forall_lookup_1 _ _ _ _ Hall Hk).
Qed.

Lemma move_task_ok t w s t' w' s' counted evs :
  move t w s t' w' s' counted evs → task_ok t → task_ok t'.
Proof.
  unfold task_ok.
  destruct 1 as [ok Hpc|Hpc|x l Hpc|Hpc|ok Hpc|Hpc|Hpc|dsrc l Hpc|path ok Hpc
                |path Hpc|path files Hpc Hf|path files Hpc Hf
                |k name ok Hk|k name ok Hk Hpc|k name files Hk Hpc
                |k name files Hk Hpc Hall|k name files Hk Hpc Hall
                |files Hpc|files Hpc|files Hpc|files u Hpc];
    simpl; try rewrite Hpc; try done.
  - intros _. apply Forall_fmap, Forall_forall. by intros.
  - destruct (pc t) as [| | | |? ?|[]|]; intros Hok; try done;
      try (rewrite Hok in Hk; done);
      try (by pose proof (delivered_ok_lookup _ _ _ _ Hok Hk)).
    by apply Forall_insert.
  - destruct (pc t) as [| | |files| |[]|] eqn:Hp; intros Hok; try done;
      try (rewrite Hok in Hk; done);
      try (by pose proof (delivered_ok_lookup _ _ _ _ Hok Hk)).
    by destruct (Hpc files).
  - intros Hok. by apply Forall_insert.
Qed.

(** A unit that has returned takes no further turn. *)
Lemma returned_no_move t w s t' w' s' counted evs :
  task_ok t → is_returned (pc t) → ¬ move t w s t' w' s' counted evs.
Proof.
  unfold task_ok. intros Hok [b Hb] Hmove. rewrite Hb in Hok.
  destruct Hmove; try congruence;
    destruct b; try (by pose proof (delivered_ok_lookup _ _ _ _ Hok ltac:(eassumption)));
    by match goal with H : deletes t !! _ = Some _ |- _ => rewrite Hok in H end.
Qed.

(** ** The discipline of the check

    What holds of the check itself in every state a run can reach: before
    the deleted rows are known nothing has happened; while a chunk is
    awaited, the units of the earlier chunks have all returned; the check
    resolves only once every unit has returned, and reports then. *)

Definition only_query (tr : list (actor * event)) : Prop :=
  Forall (λ x, x.1 = Main → x.2 = Query_deleted) tr.

Definition quiet (b : nat) (m : machine) : Prop :=
  Forall (λ t, batch t = b ∨ (batch t < b)%nat ∧ is_returned (pc t)) (tasks m).

Definition main_ok (w : stores) (m : machine) : Prop :=
  match main m with
  | AwaitDeletedDocuments r =>
      tasks m = [] ∧ world m = w ∧ seen m = ∅ ∧ deletedCount m = 0%nat ∧
      trace m = [(Main, Query_deleted)] ∧
      ∀ l, r = Settled (Some l) → l = select_deleted w
  | AwaitChunk i rest =>
      promise_all i (tasks m) = Pending ∧ quiet i m ∧
      (row <$> tasks m) ++ concat rest = select_deleted w ∧
      only_query (trace m)
  | Resolved =>
      Forall (λ t, is_returned (pc t)) (tasks m) ∧
      row <$> tasks m = select_deleted w ∧
      ∃ tr, trace m = (Main, Report_success []) ::
                      (Main, Log_done (deletedCount m)) :: tr ∧
            only_query tr
  | Rejected _ => only_query (trace m)
  end.

Definition coherent (e : environment) (w : stores) (m : machine) : Prop :=
  env m = e ∧ Forall task_ok (tasks m) ∧ main_ok w m.

(** The state in which the loop over the chunks reaches chunk [i]. *)
Definition ready (e : environment) (w : stores) (i : nat)
    (chunks : list (list document)) (m : machine) : Prop :=
  env m = e ∧ Forall task_ok (tasks m) ∧
  Forall (λ t, (batch t < i)%nat ∧ is_returned (pc t)) (tasks m) ∧
  (row <$> tasks m) ++ concat chunks = select_deleted w ∧
  only_query (trace m).

Lemma only_query_app evs tr :
  Forall by_unit evs → only_query tr → only_query (evs ++ tr).
Proof.
  intros Hevs Htr. apply Forall_app. split; [|done].
  eapply Forall_impl; [exact Hevs|]. by intros ? (i & ev & ->).
Qed.

Lemma by_unit_events i (evs : list event) : Forall by_unit (rev (pair (Unit i) <$> evs)).
Proof. apply Forall_rev, Forall_fmap, Forall_forall. intros ev _. by eexists _, _. Qed.

Lemma begun_task_ok e s b d : task_ok (begun e s b d).
Proof.
  unfold task_ok, begun, scrubDocument_begin. simpl.
  repeat case_match; simplify_eq/=; done.
Qed.

Lemma begun_rows e s b (chunk : list document) :
  row <$> (begun e s b <$> chunk) = chunk.
Proof. induction chunk as [|d chunk IH]; [done|]. rewrite !fmap_cons. by f_equal. Qed.

(** [Promise.all] looks at a unit only to see whether it has returned or
    thrown. *)
Definition verdict (p : progress) : outcome :=
  match p with
  | Thrown e => Failed e
  | Returned _ => Fulfilled
  | _ => Pending
  end.

Definition same_verdict (t t' : task) : Prop :=
  batch t' = batch t ∧ verdict (pc t') = verdict (pc t).

Lemma promise_all_verdict b ts ts' :
  Forall2 same_verdict ts ts' → promise_all b ts' = promise_all b ts.
Proof.
  induction 1 as [|t t' ts ts' [Hb Hv] _ IH]; simpl; [done|].
  rewrite Hb, IH. case_decide; [|done].
  destruct (pc t), (pc t'); simpl in Hv; congruence.
Qed.

Lemma same_verdict_insert ts i t t' :
  ts !! i = Some t → same_verdict t t' → Forall2 same_verdict ts (<[i := t']> ts).
Proof.
  intros Hi Hv. rewrite <- (list_insert_id ts i t Hi) at 1.
  apply Forall2_insert; [|done].
  apply Forall_Forall2_diag, Forall_forall. by intros.
Qed.

Lemma settle_verdict i ok m :
  Forall2 same_verdict (tasks m) (tasks (settle i ok m)).
Proof.
  assert (Forall2 same_verdict (tasks m) (tasks m)) as Hrefl.
  { apply Forall_Forall2_diag, Forall_forall. by intros. }
  unfold settle. destruct (tasks m !! i) as [t|] eqn:Ht; [|done].
  destruct (pc t) as [[|r]|[|r]|path [|r]|files|files [|r]|b|e] eqn:Hpc; try done;
    try destruct ok; simpl;
    apply (same_verdict_insert _ _ t); try done; by (split; simpl; rewrite ?Hpc).
Qed.

Lemma settle_delete_verdict i k ok m :
  Forall2 same_verdict (tasks m) (tasks (settle_delete i k ok m)).
Proof.
  assert (Forall2 same_verdict (tasks m) (tasks m)) as Hrefl.
  { apply Forall_Forall2_diag, Forall_forall. by intros. }
  unfold settle_delete. destruct (tasks m !! i) as [t|] eqn:Ht; [|done].
  destruct (deletes t !! k) as [[name [|?|?]]|]; try done. simpl.
  by apply (same_verdict_insert _ _ t).
Qed.

Lemma settle_main_same i ok m : main (settle i ok m) = main m.
Proof.
  unfold settle. destruct (tasks m !! i) as [t|]; [|done].
  destruct (pc t) as [[|r]|[|r]|path [|r]|files|files [|r]|b|e]; try done.
  by destruct ok.
Qed.

Lemma settle_delete_main_same i k ok m : main (settle_delete i k ok m) = main m.
Proof.
  unfold settle_delete. destruct (tasks m !! i) as [t|]; [|done].
  by destruct (deletes t !! k) as [[name [|?|?]]|].
Qed.

(** A request carried out by the database or the bucket decides no
    [Promise.all]: the check is not resumed by it. *)
Lemma step_poll e w m c :
  coherent e w m → is_Some (turn_of c) → step m c = poll (unit_turn m c).
Proof.
  intros (_ & _ & Hmain) [i Hc]. destruct c as [| |j ok|j|j k ok|j k]; simpl in *; try done.
  - unfold poll. rewrite settle_main_same. unfold main_ok in Hmain.
    destruct (main m) as [| i0 rest| |]; try done.
    rewrite (promise_all_verdict _ _ _ (settle_verdict j ok m)).
    by destruct Hmain as (-> & _).
  - unfold poll. rewrite settle_delete_main_same. unfold main_ok in Hmain.
    destruct (main m) as [| i0 rest| |]; try done.
    rewrite (promise_all_verdict _ _ _ (settle_delete_verdict j k ok m)).
    by destruct Hmain as (-> & _).
Qed.

(** ** Invariants of a run

    A property [P] of the machine that does not depend on where the check
    itself stands holds in every state of every run, as soon as it holds at
    the start and is kept by the start of a unit, by the report and by the
    moves of the units. *)

(** The states of the runs of the check in [e] on [w]. *)
Definition reachable (e : environment) (w : stores) (m : machine) : Prop :=
  ∃ sched, m = check e w sched.

Lemma check_snoc e w sched c :
  check e w (sched ++ [c]) = step (check e w sched) c.
Proof. unfold check, run. by rewrite fold_left_app. Qed.

Section Invariant.

Variable e : environment.
Variable w : stores.
Variable P : machine → Prop.

Hypothesis P_main : ∀ s m, P m → P (with_main s m).
Hypothesis P_finish : ∀ m,
  Forall (λ t, is_returned (pc t)) (tasks m) → P m →
  P (log Main [Log_done (deletedCount m); Report_success []] m).
Hypothesis P_start : ∀ b d m,
  d ∈ select_deleted w → env m = e → quiet b m → P m → P (start_unit b m d).
Hypothesis P_move : ∀ i t t' w' s' counted evs m,
  reachable e w m → coherent e w m → tasks m !! i = Some t →
  move t (world m) (seen m) t' w' s' counted evs →
  P m → P (moved i t' w' s' counted evs m).

Lemma start_chunk_invariant b chunk m :
  (∀ d, d ∈ chunk → d ∈ select_deleted w) → env m = e → quiet b m → P m →
  P (start_chunk b chunk m).
Proof.
  revert m. induction chunk as [|d chunk IH]; intros m Hin He Hq HP; [done|].
  unfold start_chunk. simpl. apply IH.
  - intros d' Hd'. apply Hin. by apply list_elem_of_further.
  - unfold start_unit. by destruct (scrubDocument_begin _ _ _).
  - unfold quiet, start_unit. destruct (scrubDocument_begin _ _ _). simpl.
    apply Forall_app. split; [done|]. apply Forall_singleton. by left.
  - apply P_start; try done. apply Hin, list_elem_of_here.
Qed.

Lemma run_chunks_invariant chunks : ∀ i m,
  ready e w i chunks m → P m →
  coherent e w (run_chunks i chunks m) ∧ P (run_chunks i chunks m).
Proof.
  induction chunks as [|chunk rest IH]; intros i m (He & Hok & Hret & Hrows & Htr) HP.
  - simpl. split.
    + split_and!; [done|done|]. unfold main_ok. simpl. split_and!.
      * eapply Forall_impl; [exact Hret|]. by intros ? [_ ?].
      * by rewrite app_nil_r in Hrows.
      * by eexists.
    + apply P_main, P_finish; [|done].
      eapply Forall_impl; [exact Hret|]. by intros ? [_ ?].
  - simpl.
    assert (∀ d, d ∈ chunk → d ∈ select_deleted w) as Hin.
    { intros d Hd. rewrite <- Hrows. simpl. rewrite !elem_of_app. auto. }
    assert (quiet i m) as Hq.
    { eapply Forall_impl; [exact Hret|]. intros ? [? ?]. by right. }
    pose proof (start_chunk_invariant i chunk m Hin He Hq HP) as HP'.
    destruct (start_chunk_spec i chunk m)
      as (He' & Hw' & Hs' & Hc' & Hm' & Ht' & evs & Htr' & Hevs).
    set (m' := start_chunk i chunk m) in *.
    assert (Forall task_ok (tasks m')) as Hok'.
    { rewrite Ht'. apply Forall_app. split; [done|].
      apply Forall_fmap, Forall_forall. intros d _. apply begun_task_ok. }
    assert (quiet i m') as Hq'.
    { unfold quiet. rewrite Ht'. apply Forall_app. split; [done|].
      apply Forall_fmap, Forall_forall. intros d _. by left. }
    assert ((row <$> tasks m') ++ concat rest = select_deleted w) as Hrows'.
    { rewrite Ht', fmap_app, begun_rows, <- app_assoc. done. }
    assert (only_query (trace m')) as Htr''.
    { rewrite Htr'. by apply only_query_app. }
    destruct (promise_all i (tasks m')) as [| |e0] eqn:Hall.
    + split; [|by apply P_main].
      split_and!; [simpl; congruence|done|]. unfold main_ok. simpl. done.
    + apply IH; [|done]. split_and!; [by rewrite He'|done| |done|done].
      apply promise_all_fulfilled in Hall.
      apply Forall_forall. intros t Ht.
      pose proof (proj1 (Forall_forall _ _) Hall t Ht) as Hr.
      pose proof (proj1 (Forall_forall _ _) Hq' t Ht) as [Hb|[Hb Hrr]].
      * split; [lia|by apply Hr].
      * split; [lia|done].
    + split; [|by apply P_main].
      split_and!; [simpl; congruence|done|]. unfold main_ok. simpl. done.
Qed.

(** The state between the turn of a unit and the resumption of the check. *)
Definition between (m : machine) : Prop :=
  env m = e ∧ Forall task_ok (tasks m) ∧
  match main m with
  | AwaitChunk i rest =>
      quiet i m ∧ (row <$> tasks m) ++ concat rest = select_deleted w ∧
      only_query (trace m)
  | _ => main_ok w m
  end.

Lemma coherent_between m : coherent e w m → between m.
Proof.
  intros (He & Hok & Hmain). split_and!; [done..|].
  unfold main_ok in *. destruct (main m); try done. by destruct Hmain as (_ & ? & ? & ?).
Qed.

Lemma insert_rows (ts : list task) (i : nat) (t t' : task) :
  ts !! i = Some t → row t' = row t → row <$> <[i := t']> ts = row <$> ts.
Proof.
  intros Hi Hr. rewrite list_fmap_insert, Hr. apply list_insert_id.
  by rewrite list_lookup_fmap, Hi.
Qed.

Lemma unit_turn_invariant m c :
  reachable e w m → coherent e w m → P m →
  between (unit_turn m c) ∧ P (unit_turn m c).
Proof.
  intros Hre Hco HP.
  destruct (unit_turn_move m c)
    as [->|(i & t & t' & w' & s' & counted & evs & _ & Ht & Hmove & ->)];
    [by split; [apply coherent_between|]|].
  split; [|by eapply P_move].
  destruct Hco as (He & Hok & Hmain).
  pose proof (proj1 (Forall_lookup _ _) Hok i t Ht) as Hokt.
  split_and!; [done|by apply Forall_insert, (move_task_ok _ _ _ _ _ _ _ _ Hmove)|].
  unfold main_ok in *. simpl. destruct (main m) as [r|i0 rest| |e0].
  - destruct Hmain as (Hnil & _). by rewrite Hnil in Ht.
  - destruct Hmain as (_ & Hq & Hrows & Htr). split_and!.
    + apply Forall_insert; [done|].
      destruct (proj1 (Forall_lookup _ _) Hq i t Ht) as [Hb|[_ Hr]].
      * left. by rewrite (move_batch _ _ _ _ _ _ _ _ Hmove).
      * by destruct (returned_no_move _ _ _ _ _ _ _ _ Hokt Hr Hmove).
    + by rewrite (insert_rows _ _ t) by (done || by eapply move_row).
    + apply only_query_app; [apply by_unit_events|done].
  - destruct Hmain as (Hret & _).
    by destruct (returned_no_move _ _ _ _ _ _ _ _ Hokt
                   (proj1 (Forall_lookup _ _) Hret i t Ht) Hmove).
  - apply only_query_app; [apply by_unit_events|done].
Qed.

Lemma poll_invariant m :
  between m → P m → coherent e w (poll m) ∧ P (poll m).
Proof.
  intros (He & Hok & Hmain) HP. unfold poll. revert Hmain.
  destruct (main m) as [r|i rest| |e0] eqn:Hm; intros Hmain;
    try (split; [|done]; split; [done|]; split; [done|]; done).
  destruct Hmain as (Hq & Hrows & Htr).
  destruct (promise_all i (tasks m)) as [| |e0] eqn:Hall.
  - split; [|done]. split; [done|]. split; [done|]. unfold main_ok. by rewrite Hm.
  - apply run_chunks_invariant; [|done]. split_and!; try done.
    apply promise_all_fulfilled in Hall. apply Forall_forall. intros t Ht.
    pose proof (proj1 (Forall_forall _ _) Hall t Ht) as Hr.
    pose proof (proj1 (Forall_forall _ _) Hq t Ht) as [Hb|[Hb Hrr]].
    + split; [lia|by apply Hr].
    + split; [lia|done].
  - split; [|by apply P_main]. split; [done|]. split; [done|]. unfold main_ok. by simpl.
Qed.

Lemma step_invariant m c :
  reachable e w m → coherent e w m → P m →
  coherent e w (step m c) ∧ P (step m c).
Proof.
  intros Hre Hco HP. destruct (turn_of c) as [i|] eqn:Hc.
  - rewrite (step_poll e w) by (done || by eexists).
    destruct (unit_turn_invariant m c Hre Hco HP). by apply poll_invariant.
  - destruct Hco as (He & Hok & Hmain).
    destruct c as [ok| | | | |]; try done; simpl.
    + unfold settle_main. unfold main_ok in Hmain.
      destruct (main m) as [[|r]|i rest| |e0] eqn:Hm;
        try (split; [|done]; split; [done|]; split; [done|]; unfold main_ok; by rewrite Hm).
      split; [|by apply P_main]. split_and!; [done..|]. unfold main_ok. simpl.
      destruct Hmain as (? & Hw & ? & ? & ? & _). split_and!; try done.
      intros l. destruct ok; [|done]. intros [= <-]. by rewrite Hw.
    + unfold resume_main. unfold main_ok in Hmain.
      destruct (main m) as [[|[l|]]|i rest| |e0] eqn:Hm;
        try (split; [|done]; split; [done|]; split; [done|]; unfold main_ok; by rewrite Hm).
      * destruct Hmain as (Hnil & Hw & ? & ? & Htr & Hl).
        apply run_chunks_invariant; [|done]. split_and!; try done.
        -- rewrite Hnil. constructor.
        -- rewrite Hnil, chunks_of_concat. simpl. by apply Hl.
        -- rewrite Htr. by repeat constructor.
      * split; [|by apply P_main]. split_and!; [done..|]. unfold main_ok. simpl.
        destruct Hmain as (_ & _ & _ & _ & -> & _). by repeat constructor.
Qed.

Lemma init_coherent : coherent e w (init e w).
Proof.
  unfold init. destruct (not_defined _); (split_and!; [done|constructor|]);
    unfold main_ok; simpl; [constructor|]. by split_and!.
Qed.

Lemma check_invariant sched :
  P (init e w) → coherent e w (check e w sched) ∧ P (check e w sched).
Proof.
  intros HP. induction sched as [|c sched IH] using rev_ind.
  - split; [apply init_coherent|done].
  - rewrite check_snoc. destruct IH. apply step_invariant; try done. by eexists.
Qed.

End Invariant.

Lemma check_coherent e w sched : coherent e w (check e w sched).
Proof. by apply (check_invariant e w (λ _, True)). Qed.

(** ** What one unit has asked *)

(** The requests of unit [i] in a trace, latest first. *)
Definition events_of (i : nat) (tr : list (actor * event)) : list event :=
  snd <$> filter (λ x, x.1 = Unit i) tr.

Lemma events_of_app i tr1 tr2 :
  events_of i (tr1 ++ tr2) = events_of i tr1 ++ events_of i tr2.
Proof. unfold events_of. by rewrite filter_app, fmap_app. Qed.

Lemma elem_of_events_of i ev tr : ev ∈ events_of i tr ↔ (Unit i, ev) ∈ tr.
Proof.
  unfold events_of. rewrite list_elem_of_fmap. split.
  - intros ([a ev'] & -> & Hin). apply list_elem_of_filter in Hin as [Ha Hin].
    simpl in *. by subst.
  - intros Hin. exists (Unit i, ev). split; [done|]. by apply list_elem_of_filter.
Qed.

Lemma events_of_same i (evs : list event) :
  events_of i (rev (pair (Unit i) <$> evs)) = rev evs.
Proof.
  unfold events_of. induction evs as [|ev evs IH]; [done|].
  rewrite fmap_cons. simpl. rewrite filter_app, fmap_app, IH.
  rewrite filter_cons_True by done. done.
Qed.

Lemma events_of_other i a (evs : list event) :
  a ≠ Unit i → events_of i (rev (pair a <$> evs)) = [].
Proof.
  intros Ha. unfold events_of. induction evs as [|ev evs IH]; [done|].
  rewrite fmap_cons. simpl. rewrite filter_app, fmap_app, IH.
  rewrite filter_cons_False by done. done.
Qed.

Lemma start_unit_eq b m d :
  start_unit b m d =
  {| env := env m; world := world m; seen := seen m;
     deletedCount := deletedCount m;
     tasks := tasks m ++ [begun (env m) (seen m) b d];
     main := main m;
     trace := rev (pair (Unit (length (tasks m))) <$>
                     (scrubDocument_begin (env m) (seen m) d).2) ++ trace m |}.
Proof. unfold start_unit, begun. by destruct (scrubDocument_begin _ _ _). Qed.

Lemma lookup_started (ts : list task) (t0 : task) j tj :
  (ts ++ [t0]) !! j = Some tj →
  ts !! j = Some tj ∨ j = length ts ∧ tj = t0.
Proof.
  intros Hj. destruct (decide (j < length ts)%nat) as [Hlt|Hge].
  - left. by rewrite lookup_app_l in Hj.
  - right. rewrite lookup_app_r in Hj by lia.
    destruct (j - length ts)%nat as [|n] eqn:Hn; simpl in Hj; [|done].
    split; [lia|congruence].
Qed.

Lemma lookup_moved (ts : list task) i (t' : task) j tj :
  <[i := t']> ts !! j = Some tj →
  j = i ∧ tj = t' ∨ j ≠ i ∧ ts !! j = Some tj.
Proof. intros Hj. apply list_lookup_insert_Some in Hj. naive_solver. Qed.

(** The stores change only by a deleted object or by a purge. *)
Lemma move_world t w s t' w' s' counted evs :
  move t w s t' w' s' counted evs →
  w' = w ∨ (∃ name, w' = delete_object w name) ∨
  w' = delete_deleted_versions w (data_source (row t)) (document_id (row t))
         (hash (row t)).
Proof. destruct 1; auto. destruct ok; eauto. Qed.

(** Only started units appear in the trace. *)
Definition started (m : machine) : Prop :=
  ∀ j ev, (Unit j, ev) ∈ trace m → (j < length (tasks m))%nat.

Lemma started_main s m : started m → started (with_main s m).
Proof. intros IH j ev. apply IH. Qed.

Lemma started_finish m :
  started m → started (log Main [Log_done (deletedCount m); Report_success []] m).
Proof.
  intros IH j ev. simpl. rewrite !elem_of_cons.
  intros [[=]|[[=]|Hin]]. by eapply IH.
Qed.

Lemma started_start b d m : started m → started (start_unit b m d).
Proof.
  intros IH j ev. rewrite start_unit_eq. simpl.
  rewrite length_app, elem_of_app. simpl. intros [Hin|Hin].
  - apply elem_of_events_of in Hin.
    destruct (decide (j = length (tasks m))) as [->|Hne]; [lia|].
    rewrite events_of_other in Hin by congruence. by apply elem_of_nil in Hin.
  - apply IH in Hin. lia.
Qed.

Lemma started_moved i t t' w' s' counted evs m :
  tasks m !! i = Some t → started m → started (moved i t' w' s' counted evs m).
Proof.
  intros Ht IH j ev. simpl.
  rewrite length_insert, elem_of_app. intros [Hin|Hin]; [|by eapply IH].
  apply elem_of_events_of in Hin.
  destruct (decide (j = i)) as [->|Hne]; [by eapply lookup_lt_Some|].
  rewrite events_of_other in Hin by congruence. by apply elem_of_nil in Hin.
Qed.

Lemma started_init e w : started (init e w).
Proof.
  unfold init. destruct (not_defined _); simpl; intros j ev Hin.
  - by apply elem_of_nil in Hin.
  - by apply list_elem_of_singleton in Hin.
Qed.

Lemma check_started e w sched : started (check e w sched).
Proof.
  apply (check_invariant e w started).
  - apply started_main.
  - intros m _. apply started_finish.
  - intros b d m _ _ _. apply started_start.
  - intros i t t' w' s' counted evs m _ _ Ht _. by eapply started_moved.
  - apply started_init.
Qed.

Lemma events_of_fresh m j :
  started m → (length (tasks m) ≤ j)%nat → events_of j (trace m) = [].
Proof.
  intros Hst Hj. destruct (events_of j (trace m)) as [|ev evs] eqn:Hev; [done|].
  assert (ev ∈ events_of j (trace m)) as Hin by (rewrite Hev; apply list_elem_of_here).
  apply elem_of_events_of, Hst in Hin. lia.
Qed.

(** ** Units that never get past their queries

    The units whose row satisfies [H] stay within the progress [okpc], issue
    no [f.delete()], ask only [okev] and leave the stores, the set [seen] and
    the count as they are.  The three facts assumed of them are checked on
    [scrubDocument_begin] and on the rules of [move]. *)

Section Confined.

Variable e : environment.
Variable w : stores.
Variable H : document → Prop.
Variable W : stores → Prop.
Variable okpc : progress → Prop.
Variable okev : event → Prop.

Hypothesis W_delete : ∀ x name, W x → W (delete_object x name).
Hypothesis W_purge : ∀ x ds doc h, W x → W (delete_deleted_versions x ds doc h).
Hypothesis begin_ok : ∀ s d,
  H d → okpc (scrubDocument_begin e s d).1 ∧ Forall okev (scrubDocument_begin e s d).2.
Hypothesis move_ok : ∀ t x s t' x' s' counted evs,
  H (row t) → W x → okpc (pc t) → deletes t = [] →
  move t x s t' x' s' counted evs →
  okpc (pc t') ∧ deletes t' = [] ∧ Forall okev evs ∧
  x' = x ∧ s' = s ∧ counted = false.

Definition confined_unit (m : machine) (i : nat) (t : task) : Prop :=
  okpc (pc t) ∧ deletes t = [] ∧ Forall okev (events_of i (trace m)).

Definition confined (m : machine) : Prop :=
  started m ∧ W (world m) ∧
  ∀ i t, tasks m !! i = Some t → H (row t) → confined_unit m i t.

Lemma confined_main s m : confined m → confined (with_main s m).
Proof.
  intros (Hst & Hw & IH). split_and!; [by apply started_main|done|].
  intros i t. apply IH.
Qed.

Lemma confined_finish m :
  confined m → confined (log Main [Log_done (deletedCount m); Report_success []] m).
Proof.
  intros (Hst & Hw & IH). split_and!; [by apply started_finish|done|].
  intros i t Ht HH. destruct (IH i t Ht HH) as (? & ? & ?). by split_and!.
Qed.

Lemma confined_start b d m : env m = e → confined m → confined (start_unit b m d).
Proof.
  intros He (Hst & Hw & IH).
  split; [by apply started_start|]. rewrite start_unit_eq. simpl.
  split; [done|]. intros i t Ht HH. unfold confined_unit. simpl.
  rewrite events_of_app.
  destruct (lookup_started _ _ _ _ Ht) as [Hi|[-> ->]].
  - destruct (IH i t Hi HH) as (? & ? & ?). split_and!; try done.
    rewrite events_of_other; [done|].
    intros [= Hii]. apply lookup_lt_Some in Hi. lia.
  - simpl in *. destruct (begin_ok (seen m) d HH) as [Hp Hev]. rewrite He.
    split_and!; try done.
    rewrite events_of_same, (events_of_fresh m) by (done || lia).
    rewrite app_nil_r. by apply Forall_rev.
Qed.

Lemma confined_moved i t t' w' s' counted evs m :
  tasks m !! i = Some t → move t (world m) (seen m) t' w' s' counted evs →
  confined m → confined (moved i t' w' s' counted evs m).
Proof.
  intros Ht Hmove (Hst & Hw & IH).
  split; [by eapply started_moved|]. simpl. split.
  - destruct (move_world _ _ _ _ _ _ _ _ Hmove) as [->|[[name ->]| ->]]; auto.
  - intros j tj Hj HH. unfold confined_unit. simpl. rewrite events_of_app.
    destruct (lookup_moved _ _ _ _ _ Hj) as [[-> ->]|[Hne Hj']].
    + rewrite (move_row _ _ _ _ _ _ _ _ Hmove) in HH.
      destruct (IH i t Ht HH) as (Hp & Hd & Hev).
      destruct (move_ok _ _ _ _ _ _ _ _ HH Hw Hp Hd Hmove) as (? & ? & ? & _).
      split_and!; try done. rewrite events_of_same.
      apply Forall_app. split; [by apply Forall_rev|done].
    + destruct (IH j tj Hj' HH) as (? & ? & ?). split_and!; try done.
      rewrite events_of_other by congruence. done.
Qed.

Lemma confined_init : W w → confined (init e w).
Proof.
  intros HW. split_and!; [apply started_init| |].
  - unfold init. by destruct (not_defined _).
  - intros i t Ht. unfold init in Ht. by destruct (not_defined _).
Qed.

Lemma check_confined sched : W w → confined (check e w sched).
Proof.
  intros HW. apply (check_invariant e w confined).
  - apply confined_main.
  - intros m _. apply confined_finish.
  - intros b d m _ He _. by apply confined_start.
  - intros i t t' w' s' counted evs m _ _. apply confined_moved.
  - by apply confined_init.
Qed.

(** When every deleted row satisfies [H], a run changes nothing. *)
Definition untouched (m : machine) : Prop :=
  confined m ∧ Forall (λ t, H (row t)) (tasks m) ∧
  world m = w ∧ seen m = ∅ ∧ deletedCount m = 0%nat.

Lemma check_untouched sched :
  W w → (∀ d, d ∈ select_deleted w → H d) → untouched (check e w sched).
Proof.
  intros HW Hall. apply (check_invariant e w untouched).
  - intros s m (? & ? & ? & ? & ?). split; [by apply confined_main|done].
  - intros m _ (? & ? & ? & ? & ?). split; [by apply confined_finish|done].
  - intros b d m Hd He _ (Hco & Hrows & ? & ? & ?).
    split; [by apply confined_start|]. rewrite start_unit_eq. simpl.
    split_and!; try done.
    apply Forall_app. split; [done|]. apply Forall_singleton. by apply Hall.
  - intros i t t' w' s' counted evs m _ _ Ht Hmove (Hco & Hrows & Hww & Hs & Hc).
    split; [by eapply confined_moved|].
    pose proof (proj1 (Forall_lookup _ _) Hrows i t Ht) as HH.
    destruct Hco as (_ & Hw & IH). destruct (IH i t Ht HH) as (Hp & Hd & Hev).
    destruct (move_ok _ _ _ _ _ _ _ _ HH Hw Hp Hd Hmove)
      as (Hp' & Hd' & Hev' & -> & -> & ->).
    simpl. split_and!; try done.
    apply Forall_insert; [done|]. by rewrite (move_row _ _ _ _ _ _ _ _ Hmove).
  - split; [by apply confined_init|].
    unfold init. destruct (not_defined _); simpl; split_and!; try done; constructor.
Qed.

End Confined.

(** The check resumed: the units already started stay where they are. *)
Lemma run_chunks_tasks chunks : ∀ i m,
  ∃ new, tasks (run_chunks i chunks m) = tasks m ++ new.
Proof.
  induction chunks as [|chunk rest IH]; intros i m; simpl.
  - exists []. by rewrite app_nil_r.
  - destruct (start_chunk_spec i chunk m) as (_ & _ & _ & _ & _ & Ht & _).
    destruct (promise_all i (tasks (start_chunk i chunk m))); simpl; try by eexists.
    destruct (IH (S i) (start_chunk i chunk m)) as [new Hnew].
    rewrite Hnew, Ht, <- app_assoc. by eexists.
Qed.

Lemma poll_tasks m i t : tasks m !! i = Some t → tasks (poll m) !! i = Some t.
Proof.
  intros Ht. unfold poll. destruct (main m); try done.
  destruct (promise_all _ _); try done.
  destruct (run_chunks_tasks rest (S i0) m) as [new ->]. by apply lookup_app_l_Some.
Qed.

(** ** A more recent version with the same hash *)

(** The stores [w] hold a version that is not deleted, has the source, the
    document and the hash of [d], and was created at or after [d]. *)
Definition has_live (w : stores) (d : document) : Prop :=
  ∃ r, r ∈ data_sources_documents w ∧
       more_recent_same_hash (data_source d) (document_id d) (hash d) (created d) r.

(** The rows of [w] that are not deleted are rows of [x]. *)
Definition keeps_live (w x : stores) : Prop :=
  ∀ r, r ∈ data_sources_documents w → ¬ is_deleted r → r ∈ data_sources_documents x.

Lemma keeps_live_delete w x name : keeps_live w x → keeps_live w (delete_object x name).
Proof. done. Qed.

Lemma keeps_live_purge w x ds doc h :
  keeps_live w x → keeps_live w (delete_deleted_versions x ds doc h).
Proof.
  intros Hk r Hr Hlive. simpl. apply list_elem_of_filter. split; [|by apply Hk].
  by intros [_ ?].
Qed.

Lemma select_more_recent_found w x d :
  has_live w d → keeps_live w x →
  ∃ y l, select_more_recent x (data_source d) (document_id d) (hash d) (created d)
         = y :: l.
Proof.
  intros (r & Hr & Hm) Hk. unfold select_more_recent.
  assert (r ∈ filter (more_recent_same_hash (data_source d) (document_id d)
                        (hash d) (created d)) (data_sources_documents x)) as Hin.
  { apply list_elem_of_filter. split; [done|]. apply Hk; [done|]. by destruct Hm as (_ & ? & _). }
  destruct (filter _ (data_sources_documents x)) as [|y l]; [by apply elem_of_nil in Hin|].
  simpl. by eexists _, _.
Qed.

(** Where a unit with a more recent version can stand. *)
Definition skipping (p : progress) : Prop :=
  match p with
  | AwaitLive Waiting | AwaitLive (Settled None)
  | AwaitLive (Settled (Some (_ :: _))) | Returned false | Thrown _ => True
  | _ => False
  end.

Definition is_query_more_recent (ev : event) : Prop :=
  match ev with Query_more_recent _ _ _ _ => True | _ => False end.

Lemma begin_skipping e s d :
  skipping (scrubDocument_begin e s d).1 ∧
  Forall is_query_more_recent (scrubDocument_begin e s d).2.
Proof.
  unfold scrubDocument_begin. repeat case_match; simpl; split; by repeat constructor.
Qed.

Lemma move_skipping w t x s t' x' s' counted evs :
  has_live w (row t) → keeps_live w x → skipping (pc t) → deletes t = [] →
  move t x s t' x' s' counted evs →
  skipping (pc t') ∧ deletes t' = [] ∧ Forall is_query_more_recent evs ∧
  x' = x ∧ s' = s ∧ counted = false.
Proof.
  intros Hlive Hk Hp Hd Hmove.
  destruct Hmove; simpl; try (rewrite Hd in *; done);
    try (match goal with Hpc : pc t = _ |- _ => rewrite Hpc in Hp end; try done;
         by split_and!).
  destruct ok; [|by split_and!].
  destruct (select_more_recent_found w x (row t) Hlive Hk) as (y & l & ->).
  by split_and!.
Qed.

(** C1. A deleted version that has a live version with the same source,
    document and hash, created at or after it, is skipped: in every run, the
    unit of such a row asks nothing but the query for that live version (no
    listing of blobs, no [f.delete()], no purge), it never returns [true],
    and once the query is answered and the unit resumed it returns [false]. *)
Theorem live_version_skips_unit e w sched i t :
  tasks (check e w sched) !! i = Some t →
  has_live w (row t) →
  Forall is_query_more_recent (events_of i (trace (check e w sched))) ∧
  deletes t = [] ∧
  skipping (pc t) ∧
  (pc t = AwaitLive Waiting →
   ∃ t', tasks (check e w (sched ++ [Settle i true; Resume i])) !! i = Some t' ∧
         pc t' = Returned false).
Proof.
  intros Ht Hlive.
  destruct (check_confined e w (has_live w) (keeps_live w) skipping is_query_more_recent
              (keeps_live_delete w) (keeps_live_purge w)
              (λ s d _, begin_skipping e s d) (move_skipping w) sched)
    as (_ & Hk & Hconf); [by intros r Hr _|].
  destruct (Hconf i t Ht Hlive) as (Hp & Hd & Hev).
  split_and!; try done.
  intros Hpc. unfold check, run. rewrite fold_left_app. simpl.
  fold (run sched (init e w)). fold (check e w sched).
  set (m := check e w sched) in *.
  destruct (select_more_recent_found w (world m) (row t) Hlive Hk) as (y & l & Hsel).
  assert (tasks (settle i true m) !! i =
          Some (with_pc (AwaitLive (Settled (Some (y :: l)))) t)) as Ht1.
  { unfold settle. rewrite Ht, Hpc, Hsel. simpl.
    apply list_lookup_insert_eq. by eapply lookup_lt_Some. }
  exists (with_pc (Returned false) (with_pc (AwaitLive (Settled (Some (y :: l)))) t)).
  split; [|done].
  apply poll_tasks. unfold resume. rewrite Ht1. simpl.
  apply list_lookup_insert_eq. by eapply lookup_lt_Some.
Qed.

(** ** Invariants of one unit

    A property [Q] of a unit, of the requests it has made, of the stores and
    of the set [seen], that is kept by the unit's own moves and is not
    disturbed when the stores lose an object or purged rows or when [seen]
    grows, holds of every unit in every run. *)

Inductive evolves (x : stores) : stores → Prop :=
| evolves_refl : evolves x x
| evolves_delete name : evolves x (delete_object x name)
| evolves_purge ds doc h : evolves x (delete_deleted_versions x ds doc h).

Lemma move_evolves t x s t' x' s' counted evs :
  move t x s t' x' s' counted evs → evolves x x'.
Proof. destruct 1; try constructor. destruct ok; constructor. Qed.

Lemma move_seen t x s t' x' s' counted evs :
  move t x s t' x' s' counted evs → s ⊆ s'.
Proof. destruct 1; set_solver. Qed.

Section PerUnit.

Variable e : environment.
Variable w : stores.
Variable Q : stores → gset string → task → list event → Prop.

Hypothesis Q_frame : ∀ x s x' s' t E,
  evolves x x' → s ⊆ s' → Q x s t E → Q x' s' t E.
Hypothesis Q_begin : ∀ x s b d,
  d ∈ select_deleted w →
  Q x s (begun e s b d) (rev (scrubDocument_begin e s d).2).
Hypothesis Q_move : ∀ t x s t' x' s' counted evs E,
  task_ok t → Q x s t E → move t x s t' x' s' counted evs →
  Q x' s' t' (rev evs ++ E).

Definition every_unit (m : machine) : Prop :=
  started m ∧
  ∀ i t, tasks m !! i = Some t → Q (world m) (seen m) t (events_of i (trace m)).

Lemma check_every_unit sched : every_unit (check e w sched).
Proof.
  apply (check_invariant e w every_unit).
  - intros s m (Hst & IH). split; [by apply started_main|]. intros i t. apply IH.
  - intros m _ (Hst & IH). split; [by apply started_finish|]. intros i t. apply IH.
  - intros b d m Hd He _ (Hst & IH). split; [by apply started_start|].
    rewrite start_unit_eq. simpl. intros i t Ht. rewrite events_of_app.
    destruct (lookup_started _ _ _ _ Ht) as [Hi|[-> ->]].
    + rewrite events_of_other; [by apply IH|].
      intros [= Hii]. apply lookup_lt_Some in Hi. lia.
    + rewrite events_of_same, (events_of_fresh m) by (done || lia).
      rewrite app_nil_r, He. by apply Q_begin.
  - intros i t t' w' s' counted evs m _ (_ & Hok & _) Ht Hmove (Hst & IH).
    split; [by eapply started_moved|]. simpl.
    intros j tj Hj. rewrite events_of_app.
    destruct (lookup_moved _ _ _ _ _ Hj) as [[-> ->]|[Hne Hj']].
    + rewrite events_of_same. eapply Q_move; [|by apply IH|done].
      by apply (proj1 (Forall_lookup _ _) Hok i t).
    + rewrite events_of_other by congruence. simpl.
      eapply Q_frame; [by eapply move_evolves|by eapply move_seen|by apply IH].
  - split; [apply started_init|]. intros i t Ht.
    unfold init in Ht. by destruct (not_defined _).
Qed.

End PerUnit.

(** ** Deletions come before the purge *)

Definition is_delete_event (ev : event) : Prop :=
  match ev with Delete_file _ | File_deleted _ _ => True | _ => False end.

Definition is_purge (ev : event) : Prop :=
  match ev with Purge _ _ _ => True | _ => False end.

(** In the requests of a unit, latest first: once a purge has been issued,
    no deletion is issued or carried out. *)
Fixpoint ordered (E : list event) : Prop :=
  match E with
  | [] => True
  | ev :: earlier =>
      (is_delete_event ev → Forall (λ x, ¬ is_purge x) earlier) ∧ ordered earlier
  end.

Definition purge_issued (p : progress) : Prop :=
  match p with AwaitPurge _ _ | Returned true => True | _ => False end.

Definition past_deletes (p : progress) : Prop :=
  match p with AwaitPurge _ _ | Returned true | Thrown _ => True | _ => False end.

Definition listed (p : progress) (files : list string) : Prop :=
  match p with
  | AwaitDeletes fs | AwaitPurge fs _ => fs = files
  | _ => False
  end.

(** What the requests [E] of unit [t] say about its deletions and its purge. *)
Record orderly (s : gset string) (t : task) (E : list event) : Prop := Orderly {
  o_issued : ∀ name st, (name, st) ∈ deletes t → Delete_file name ∈ E;
  o_settled : ∀ name ok,
    (name, DelSettled ok) ∈ deletes t ∨ (name, DelDelivered ok) ∈ deletes t →
    File_deleted name ok ∈ E;
  o_purge : purge_issued (pc t) → purge_of t ∈ E;
  o_after : Exists is_purge E →
    Forall delivered_ok (deletes t) ∧ past_deletes (pc t);
  o_own : ∀ ev, ev ∈ E → is_purge ev → ev = purge_of t;
  o_ordered : ordered E;
  o_listed : ∀ files name,
    listed (pc t) files → name ∈ files → name ∈ s ∨ name ∈ (deletes t).*1
}.

Lemma ordered_app new E :
  ordered E → ordered new →
  (Forall (λ x, ¬ is_delete_event x) new ∨ Forall (λ x, ¬ is_purge x) (new ++ E)) →
  ordered (new ++ E).
Proof.
  induction new as [|ev new IH]; intros HE Hnew Hor; [done|].
  destruct Hnew as [Hev Hnew]. simpl. split.
  - intros Hd. destruct Hor as [Hnd|Hnp].
    + by destruct (Forall_inv Hnd).
    + by apply Forall_inv_tail in Hnp.
  - apply IH; [done..|]. destruct Hor as [Hnd|Hnp].
    + left. by apply Forall_inv_tail in Hnd.
    + right. by apply Forall_inv_tail in Hnp.
Qed.

Lemma elem_of_rev {A : Type} (x : A) (l : list A) : x ∈ rev l ↔ x ∈ l.
Proof. rewrite !list_elem_of_In. symmetry. apply in_rev. Qed.

Lemma ordered_no_purge E : Forall (λ x, ¬ is_purge x) E → ordered E.
Proof.
  induction 1 as [|ev E Hev HE IH]; [done|]. simpl. split; [done|done].
Qed.

Lemma ordered_split later ev earlier :
  ordered (later ++ ev :: earlier) → is_purge ev →
  Forall (λ x, ¬ is_delete_event x) later.
Proof.
  induction later as [|x later IH]; intros Hord Hp; [constructor|].
  destruct Hord as [Hx Hord]. constructor; [|by apply IH].
  intros Hd. specialize (Hx Hd). apply Forall_app in Hx as [_ Hx].
  by destruct (Forall_inv Hx).
Qed.

Lemma not_purged s t E :
  orderly s t E → ¬ (Forall delivered_ok (deletes t) ∧ past_deletes (pc t)) →
  Forall (λ x, ¬ is_purge x) E.
Proof.
  intros Ho Hn. apply Forall_forall. intros ev Hin Hp. apply Hn, (o_after _ _ _ Ho).
  apply Exists_exists. by exists ev.
Qed.

Lemma elem_of_insert_inv {A : Type} (l : list A) k x y :
  x ∈ <[k := y]> l → x = y ∨ x ∈ l.
Proof.
  intros Hin. apply list_elem_of_lookup in Hin as [j Hj].
  apply list_lookup_insert_Some in Hj as [(_ & -> & _)|[_ Hj]]; [by left|right].
  by eapply list_elem_of_lookup_2.
Qed.

Lemma insert_names (ds : list (string * delete_state)) k name st st' :
  ds !! k = Some (name, st) → (<[k := (name, st')]> ds).*1 = ds.*1.
Proof.
  intros Hk. rewrite list_fmap_insert. simpl. apply list_insert_id.
  by rewrite list_lookup_fmap, Hk.
Qed.

(** A move that leaves the deletions as they are and issues neither a
    deletion nor a purge. *)
Lemma orderly_step s s' t t' new E :
  orderly s t E → s ⊆ s' →
  deletes t' = deletes t → row t' = row t →
  Forall (λ x, ¬ is_delete_event x ∧ ¬ is_purge x) new →
  (purge_issued (pc t') → purge_issued (pc t)) →
  (past_deletes (pc t) → past_deletes (pc t')) →
  (∀ files, listed (pc t') files → listed (pc t) files) →
  orderly s' t' (new ++ E).
Proof.
  intros [H1 H2 H3 H4 H5 H6 H7] Hs Hd Hr Hnew Hpi Hpd Hl.
  assert (∀ ev, ev ∈ new → is_purge ev → False) as Hnp.
  { intros ev Hin Hp. by destruct (proj1 (Forall_forall _ _) Hnew ev Hin). }
  constructor; rewrite ?Hd; unfold purge_of; rewrite ?Hr.
  - intros name st Hin. apply elem_of_app. right. by eapply H1.
  - intros name ok Hin. apply elem_of_app. right. by eapply H2.
  - intros Hp. apply elem_of_app. right. by apply H3, Hpi.
  - intros Hex. apply Exists_app in Hex as [Hex|Hex].
    + apply Exists_exists in Hex as (ev & Hin & Hp). by destruct (Hnp ev).
    + destruct (H4 Hex). split; [done|by apply Hpd].
  - intros ev Hin Hp. apply elem_of_app in Hin as [Hin|Hin]; [by destruct (Hnp ev)|].
    by apply H5.
  - apply ordered_app; [done| |].
    + clear -Hnew. induction new as [|x new IH]; [done|].
      apply Forall_cons in Hnew as [[Hx _] Hnew]. simpl. split; [done|by apply IH].
    + left. eapply Forall_impl; [exact Hnew|]. by intros ? [? _].
  - intros files name Hli Hin. destruct (H7 files name (Hl _ Hli) Hin); [left|by right].
    set_solver.
Qed.

(** A move that takes the [k]-th deletion of the unit one stage further. *)
Lemma orderly_delete s s' t t' k name st st' new E :
  orderly s t E → s ⊆ s' →
  deletes t !! k = Some (name, st) → st ≠ DelDelivered true →
  deletes t' = <[k := (name, st')]> (deletes t) → row t' = row t →
  (∀ ok, st' = DelSettled ok ∨ st' = DelDelivered ok → File_deleted name ok ∈ new ++ E) →
  (length new ≤ 1)%nat →
  Forall (λ x, x = purge_of t ∨ ∃ ok, x = File_deleted name ok) new →
  (purge_issued (pc t') → purge_issued (pc t) ∨ purge_of t ∈ new) →
  (Exists is_purge new → Forall delivered_ok (deletes t') ∧ past_deletes (pc t')) →
  (∀ files, listed (pc t') files → listed (pc t) files) →
  orderly s' t' (new ++ E).
Proof.
  intros Ho Hs Hk Hst Hd Hr Hset Hlen Hnew Hpi Hafter Hl.
  assert (Forall (λ x, ¬ is_purge x) E) as Hnp.
  { apply (not_purged _ _ _ Ho). intros [Hall _].
    by apply Hst, (delivered_ok_lookup _ _ _ _ Hall Hk). }
  destruct Ho as [H1 H2 H3 H4 H5 H6 H7].
  assert ((name, st) ∈ deletes t) as Hin0 by (by eapply list_elem_of_lookup_2).
  constructor; rewrite ?Hd; unfold purge_of; rewrite ?Hr.
  - intros n st0 Hin. apply elem_of_app. right.
    apply elem_of_insert_inv in Hin as [[= -> ->]|Hin]; by eapply H1.
  - intros n ok [Hin|Hin];
      (apply elem_of_insert_inv in Hin as [[= -> <-]|Hin];
       [apply Hset; eauto|apply elem_of_app; right; apply H2; eauto]).
  - intros Hp. apply elem_of_app. destruct (Hpi Hp) as [Hp'|Hin]; [right|by left].
    by apply H3.
  - intros Hex. apply Exists_app in Hex as [Hex|Hex].
    + rewrite <- Hd. by apply Hafter.
    + apply Exists_exists in Hex as (ev & Hin & Hp).
      by destruct (proj1 (Forall_forall _ _) Hnp ev Hin).
  - intros ev Hin Hp. apply elem_of_app in Hin as [Hin|Hin].
    + destruct (proj1 (Forall_forall _ _) Hnew ev Hin) as [->|[ok ->]]; done.
    + by destruct (proj1 (Forall_forall _ _) Hnp ev Hin).
  - destruct new as [|x [|y new]]; [done| |simpl in Hlen; lia].
    simpl. split; [done|done].
  - intros files n Hli Hin. rewrite (insert_names _ _ _ _ _ Hk).
    destruct (H7 files n (Hl _ Hli) Hin); [left|by right]. set_solver.
Qed.

Lemma begun_orderly e s b d :
  orderly s (begun e s b d) (rev (scrubDocument_begin e s d).2).
Proof.
  unfold begun, scrubDocument_begin.
  repeat case_match; simpl; constructor; simpl; try done;
    try (intros; by match goal with H : _ ∈ [] |- _ => apply elem_of_nil in H end);
    try (by intros Hex; apply Exists_nil in Hex);
    try (intros Hex; apply Exists_cons in Hex as [[]|Hex]; by apply Exists_nil in Hex);
    try (intros ev Hin; apply list_elem_of_singleton in Hin as ->; by intros []);
    try (intros name ok [Hin|Hin]; by apply elem_of_nil in Hin).
  all: by split; [|constructor].
Qed.

Lemma move_orderly t x s t' x' s' counted evs E :
  task_ok t → orderly s t E → move t x s t' x' s' counted evs →
  orderly s' t' (rev evs ++ E).
Proof.
  intros Hok Ho Hmove. pose proof (move_seen _ _ _ _ _ _ _ _ Hmove) as Hs.
  destruct Hmove as [ok Hpc|Hpc|y l Hpc|Hpc|ok Hpc|Hpc|Hpc|dsrc l Hpc|path ok Hpc
                |path Hpc|path files Hpc Hf|path files Hpc Hf
                |k name ok Hk|k name ok Hk Hpc|k name files Hk Hpc
                |k name files Hk Hpc Hall|k name files Hk Hpc Hall
                |files Hpc|files Hpc|files Hpc|files u Hpc].
  1-10,18-20:
    (eapply orderly_step; [exact Ho|done|done|done| | | |]; simpl; rewrite ?Hpc;
     try done; repeat constructor; by intros []).
  - (* files_nothing_to_delete *)
    unfold task_ok in Hok. rewrite Hpc in Hok.
    assert (Forall (λ x, ¬ is_purge x) E) as Hnp.
    { apply (not_purged _ _ _ Ho). rewrite Hpc. by intros [_ ?]. }
    destruct Ho as [H1 H2 H3 H4 H5 H6 H7].
    constructor; simpl.
    + intros name st Hin. by apply elem_of_nil in Hin.
    + intros name ok [Hin|Hin]; by apply elem_of_nil in Hin.
    + intros _. apply list_elem_of_here.
    + intros _. by split; [constructor|].
    + intros ev Hin Hp. apply elem_of_cons in Hin as [->|Hin]; [done|].
      by destruct (proj1 (Forall_forall _ _) Hnp ev Hin).
    + split; [done|done].
    + intros fs name -> Hin. left.
      destruct (decide (name ∈ s)) as [|Hn]; [done|].
      assert (name ∈ filter (λ name, name ∉ s) fs) as Hin'
        by (by apply list_elem_of_filter).
      rewrite Hf in Hin'. by apply elem_of_nil in Hin'.
  - (* files_deletes_issued *)
    unfold task_ok in Hok. rewrite Hpc in Hok.
    assert (Forall (λ x, ¬ is_purge x) E) as Hnp.
    { apply (not_purged _ _ _ Ho). rewrite Hpc. by intros [_ ?]. }
    destruct Ho as [H1 H2 H3 H4 H5 H6 H7].
    set (todo := filter (λ name, name ∉ s) files) in *.
    assert (Forall (λ x, ¬ is_purge x) (rev (Delete_file <$> todo) ++ E)) as Hnp'.
    { apply Forall_app. split; [|done]. apply Forall_rev, Forall_fmap, Forall_forall.
      intros ? _. simpl. by intros []. }
    constructor; simpl.
    + intros name st Hin. apply list_elem_of_fmap in Hin as (n & [= -> ->] & Hin).
      apply elem_of_app. left. apply elem_of_rev. by apply list_elem_of_fmap_2.
    + intros name ok [Hin|Hin]; by apply list_elem_of_fmap in Hin as (n & [=] & _).
    + done.
    + intros Hex. apply Exists_exists in Hex as (ev & Hin & Hp).
      by destruct (proj1 (Forall_forall _ _) Hnp' ev Hin).
    + intros ev Hin Hp. by destruct (proj1 (Forall_forall _ _) Hnp' ev Hin).
    + apply ordered_app; [done| |by right].
      apply ordered_no_purge. by apply Forall_app in Hnp' as [? _].
    + intros fs name -> Hin. rewrite <- list_fmap_compose.
      destruct (decide (name ∈ s)) as [|Hn]; [by left|right].
      apply list_elem_of_fmap. exists name. split; [done|].
      by apply list_elem_of_filter.
  - (* delete_settled *)
    eapply (orderly_delete s s t _ k name DelIssued (DelSettled ok)
              [File_deleted name ok] E Ho); simpl; try done.
    + intros ok' [[= <-]|[=]]. apply list_elem_of_here.
    + apply Forall_singleton. right. by eexists.
    + by left.
    + intros Hex. apply Exists_cons in Hex as [[]|Hex]. by apply Exists_nil in Hex.
  - (* delete_ignored *)
    eapply (orderly_delete s s t _ k name (DelSettled ok) (DelDelivered ok) [] E Ho);
      simpl; try done.
    + intros ok' [[=]|[= <-]]. apply (o_settled _ _ _ Ho). left.
      by eapply list_elem_of_lookup_2.
    + lia.
    + by left.
    + intros Hex. by apply Exists_nil in Hex.
  - (* delete_failed *)
    eapply (orderly_delete s s t _ k name (DelSettled false) (DelDelivered false) [] E Ho);
      simpl; try done.
    + intros ok' [[=]|[= <-]]. apply (o_settled _ _ _ Ho). left.
      by eapply list_elem_of_lookup_2.
    + lia.
    + intros Hex. by apply Exists_nil in Hex.
  - (* delete_delivered *)
    eapply (orderly_delete s s t _ k name (DelSettled true) (DelDelivered true) [] E Ho);
      simpl; try done.
    + intros ok' [[=]|[= <-]]. apply (o_settled _ _ _ Ho). left.
      by eapply list_elem_of_lookup_2.
    + lia.
    + by left.
    + intros Hex. by apply Exists_nil in Hex.
  - (* delete_last *)
    eapply (orderly_delete s s t _ k name (DelSettled true) (DelDelivered true)
              [purge_of t] E Ho); simpl; try done.
    + intros ok' [[=]|[= <-]]. apply list_elem_of_further.
      apply (o_settled _ _ _ Ho). left. by eapply list_elem_of_lookup_2.
    + apply Forall_singleton. by left.
    + intros _. right. apply list_elem_of_here.
    + rewrite Hpc. by intros files' <-.
  - (* purge_done *)
    eapply orderly_step; [exact Ho|done|done|done| | | |]; simpl; rewrite ?Hpc;
      try done.
    apply Forall_rev, Forall_app. split; [|by repeat constructor; intros []].
    apply Forall_fmap, Forall_forall. intros ? _. by split; intros [].
Qed.

Lemma orderly_seen s s' t E : s ⊆ s' → orderly s t E → orderly s' t E.
Proof.
  intros Hs [H1 H2 H3 H4 H5 H6 H7]. constructor; try done.
  intros files name Hl Hin. destruct (H7 files name Hl Hin); [left|by right].
  set_solver.
Qed.

Lemma check_orderly e w sched i t :
  tasks (check e w sched) !! i = Some t →
  orderly (seen (check e w sched)) t (events_of i (trace (check e w sched))).
Proof.
  intros Ht.
  destruct (check_every_unit e w (λ _ s t E, orderly s t E)) with (sched := sched)
    as [_ Hall]; [| | |by apply Hall].
  - intros x s x' s' t0 E _ Hs. by apply orderly_seen.
  - intros x s b d _. apply begun_orderly.
  - intros t0 x s t' x' s' counted evs E. apply move_orderly.
Qed.

Lemma events_of_cons_same i ev tr :
  events_of i ((Unit i, ev) :: tr) = ev :: events_of i tr.
Proof. unfold events_of. by rewrite filter_cons_True. Qed.

(** C4. Within a unit, the deletions come before the purge.  In every run,
    at the purge of unit [i] in the trace (latest request first: [later] are
    the requests made after the purge, [earlier] those made before): every
    [f.delete()] of the unit was issued and carried out, with success, before
    the purge; the unit issues or sees carried out no deletion after it; and
    every file of the unit's listing is in [seen] or among these deletions. *)
Theorem deletes_before_purge e w sched i t later earlier ds doc h :
  tasks (check e w sched) !! i = Some t →
  trace (check e w sched) = later ++ (Unit i, Purge ds doc h) :: earlier →
  (∀ name st, (name, st) ∈ deletes t →
     st = DelDelivered true ∧
     (Unit i, Delete_file name) ∈ earlier ∧
     (Unit i, File_deleted name true) ∈ earlier) ∧
  (∀ ev, (Unit i, ev) ∈ later → ¬ is_delete_event ev) ∧
  (∀ files name, listed (pc t) files → name ∈ files →
     name ∈ seen (check e w sched) ∨ name ∈ (deletes t).*1).
Proof.
  intros Ht Htr. pose proof (check_orderly e w sched i t Ht) as Ho.
  rewrite Htr, events_of_app, events_of_cons_same in Ho.
  pose proof (ordered_split _ _ _ (o_ordered _ _ _ Ho) I) as Hlater.
  assert (Forall delivered_ok (deletes t)) as Hall.
  { apply (o_after _ _ _ Ho), Exists_app. right. by apply Exists_cons_hd. }
  assert (∀ ev, is_delete_event ev →
            ev ∈ events_of i later ++ Purge ds doc h :: events_of i earlier →
            (Unit i, ev) ∈ earlier) as Hearlier.
  { intros ev Hd Hin. apply elem_of_app in Hin as [Hin|Hin].
    - by destruct (proj1 (Forall_forall _ _) Hlater ev Hin).
    - apply elem_of_cons in Hin as [->|Hin]; [done|]. by apply elem_of_events_of. }
  split_and!.
  - intros name st Hin.
    assert (st = DelDelivered true) as ->
      by apply (proj1 (Forall_forall _ _) Hall _ Hin).
    split_and!; [done| |].
    + apply Hearlier; [done|]. by apply (o_issued _ _ _ Ho name (DelDelivered true)).
    + apply Hearlier; [done|]. apply (o_settled _ _ _ Ho). by right.
  - intros ev Hin. apply elem_of_events_of in Hin.
    by apply (proj1 (Forall_forall _ _) Hlater).
  - apply (o_listed _ _ _ Ho).
Qed.

(** ** The purge removes deleted versions only *)

#[global] Instance document_eq_dec : EqDecision document.
Proof. solve_decision. Defined.

Definition purged_by_a_unit (w : stores) (m : machine) : Prop :=
  ∀ r, r ∈ data_sources_documents w → r ∉ data_sources_documents (world m) →
    is_deleted r ∧
    ∃ i, (Unit i, Purge (data_source r) (document_id r) (hash r)) ∈ trace m.

Lemma check_purged_by_a_unit e w sched : purged_by_a_unit w (check e w sched).
Proof.
  apply (check_invariant e w (purged_by_a_unit w)); unfold purged_by_a_unit.
  - intros s m IH. apply IH.
  - intros m _ IH r Hr Hn. destruct (IH r Hr Hn) as (? & i & ?). split; [done|].
    exists i. simpl. by do 2 apply list_elem_of_further.
  - intros b d m _ _ _ IH r Hr Hn. rewrite start_unit_eq in *. simpl in *.
    destruct (IH r Hr Hn) as (? & i & ?). split; [done|].
    exists i. apply elem_of_app. by right.
  - intros i t t' w' s' counted evs m [sched' ->] _ Ht Hmove IH r Hr Hn. simpl in *.
    assert (r ∉ data_sources_documents (world (check e w sched')) →
            is_deleted r ∧
            ∃ i0, (Unit i0, Purge (data_source r) (document_id r) (hash r))
                    ∈ rev (pair (Unit i) <$> evs) ++ trace (check e w sched')) as IH'.
    { intros Hn'. destruct (IH r Hr Hn') as (? & j & ?). split; [done|].
      exists j. apply elem_of_app. by right. }
    pose proof (check_orderly e w sched' i t Ht) as Ho.
    destruct Hmove; try (by apply IH').
    + destruct ok; [|by apply IH']. by apply IH'.
    + simpl in Hn. rewrite list_elem_of_filter in Hn.
      destruct (decide (r ∈ data_sources_documents (world (check e w sched'))))
        as [Hin|Hnin]; [|by apply IH'].
      destruct (decide (same_version (data_source (row t)) (document_id (row t))
                          (hash (row t)) r ∧ is_deleted r))
        as [[(Hds & Hdoc & Hh) Hdel]|Hno]; [|by destruct Hn].
      split; [done|]. exists i. apply elem_of_app. right.
      apply elem_of_events_of. rewrite Hds, Hdoc, Hh.
      apply (o_purge _ _ _ Ho). by rewrite H.
  - intros r Hr Hn. destruct Hn. unfold init. by destruct (not_defined _).
Qed.

(** C7. The purge of a unit removes only the rows of its own source,
    document and hash that are deleted.  In every run, a row of the metadata
    store that is gone at some point was deleted and was removed by the purge
    a unit issued for the row's own source, document and hash; a row that is
    active is never removed. *)
Theorem purge_removes_deleted_versions_only e w sched r :
  r ∈ data_sources_documents w →
  (r ∉ data_sources_documents (world (check e w sched)) →
   status r = "deleted" ∧
   ∃ i, (Unit i, Purge (data_source r) (document_id r) (hash r))
          ∈ trace (check e w sched)) ∧
  (status r = "active" → r ∈ data_sources_documents (world (check e w sched))).
Proof.
  intros Hr. pose proof (check_purged_by_a_unit e w sched r Hr) as Hp. split; [done|].
  intros Hact.
  destruct (decide (r ∈ data_sources_documents (world (check e w sched))))
    as [|Hn]; [done|].
  destruct (Hp Hn) as [Hdel _]. unfold is_deleted in Hdel. congruence.
Qed.

(** ** The set [seen] *)

Lemma run_chunks_frame chunks : ∀ i m,
  env (run_chunks i chunks m) = env m ∧
  world (run_chunks i chunks m) = world m ∧
  seen (run_chunks i chunks m) = seen m ∧
  deletedCount (run_chunks i chunks m) = deletedCount m.
Proof.
  induction chunks as [|chunk rest IH]; intros i m; simpl; [done|].
  destruct (start_chunk_spec i chunk m) as (He & Hw & Hs & Hc & _).
  destruct (promise_all i (tasks (start_chunk i chunk m))); simpl; try done.
  destruct (IH (S i) (start_chunk i chunk m)) as (-> & -> & -> & ->). done.
Qed.

Lemma poll_frame m :
  env (poll m) = env m ∧ world (poll m) = world m ∧ seen (poll m) = seen m ∧
  deletedCount (poll m) = deletedCount m.
Proof.
  unfold poll. destruct (main m); try done.
  destruct (promise_all _ _); try done. apply run_chunks_frame.
Qed.

Definition is_seen_add (ev : event) : Prop :=
  match ev with Seen_add _ => True | _ => False end.

(** A unit that has added to [seen] has returned [true]. *)
Definition adds_when_done (t : task) (E : list event) : Prop :=
  Exists is_seen_add E → pc t = Returned true.

Lemma move_adds_when_done t x s t' x' s' counted evs E :
  task_ok t → adds_when_done t E → move t x s t' x' s' counted evs →
  adds_when_done t' (rev evs ++ E).
Proof.
  intros Hok Ha Hmove Hex.
  assert (Exists is_seen_add E → pc t' = Returned true) as Hold.
  { intros HexE. destruct (returned_no_move _ _ _ _ _ _ _ _ Hok
                             (ex_intro _ true (Ha HexE)) Hmove). }
  apply Exists_app in Hex as [Hex|Hex]; [|by apply Hold].
  apply Exists_exists in Hex as (ev & Hin & Hev). rewrite elem_of_rev in Hin.
  destruct Hmove; simpl; try done;
    try (by apply elem_of_nil in Hin);
    try (apply list_elem_of_singleton in Hin as ->; done).
  apply list_elem_of_fmap in Hin as (n & -> & _). done.
Qed.

Lemma check_adds_when_done e w sched i t :
  tasks (check e w sched) !! i = Some t →
  adds_when_done t (events_of i (trace (check e w sched))).
Proof.
  intros Ht.
  destruct (check_every_unit e w (λ _ _ t E, adds_when_done t E)) with (sched := sched)
    as [_ Hall]; [| | |by apply Hall].
  - by intros x s x' s' t0 E _ _.
  - intros x s b d _. unfold adds_when_done, begun, scrubDocument_begin.
    repeat case_match; simpl; intros Hex;
      try (by apply Exists_nil in Hex).
    apply Exists_cons in Hex as [[]|Hex]. by apply Exists_nil in Hex.
  - intros t0 x s t' x' s' counted evs E. apply move_adds_when_done.
Qed.

(** ** The count and the report *)

(** The calls of [scrubDocument] that returned [true]. *)
Definition scrubbed (t : task) : Prop := pc t = Returned true.

#[global] Instance scrubbed_dec t : Decision (scrubbed t).
Proof.
  unfold scrubbed. destruct (pc t) as [| | | | |[]|];
    first [by left | by right].
Defined.

Definition units_scrubbed (ts : list task) : nat := length (filter scrubbed ts).

(** The field [name] of the summary handed to [reportSuccess]. *)
Fixpoint field (name : string) (payload : list (string * Z)) : option Z :=
  match payload with
  | [] => None
  | (k, v) :: rest => if String.eqb k name then Some v else field name rest
  end.

Lemma move_counted t x s t' x' s' counted evs :
  task_ok t → move t x s t' x' s' counted evs →
  ¬ scrubbed t ∧ (scrubbed t' ↔ counted = true).
Proof.
  intros Hok Hmove.
  assert (¬ scrubbed t) as Hn.
  { intros Hs. by destruct (returned_no_move _ _ _ _ _ _ _ _ Hok
                              (ex_intro _ true Hs) Hmove). }
  split; [done|]. unfold scrubbed in *.
  destruct Hmove; simpl; split; try done; try congruence.
Qed.

Lemma units_scrubbed_insert ts i t t' :
  ts !! i = Some t → ¬ scrubbed t →
  units_scrubbed (<[i := t']> ts) =
  if decide (scrubbed t') then S (units_scrubbed ts) else units_scrubbed ts.
Proof.
  intros Hi Hn. unfold units_scrubbed.
  rewrite insert_take_drop by (by eapply lookup_lt_Some).
  pose proof (take_drop_middle ts i t Hi) as Hts.
  remember (take i ts) as l1. remember (drop (S i) ts) as l2. rewrite <- Hts.
  rewrite !filter_app, !filter_cons, !length_app.
  rewrite (decide_False (P := scrubbed t)) by done.
  case_decide; simpl; lia.
Qed.

Definition counted_units (m : machine) : Prop :=
  deletedCount m = units_scrubbed (tasks m).

Lemma check_counted_units e w sched : counted_units (check e w sched).
Proof.
  apply (check_invariant e w counted_units); unfold counted_units.
  - by intros s m IH.
  - by intros m _ IH.
  - intros b d m _ _ _ IH. rewrite start_unit_eq. simpl.
    unfold units_scrubbed in *. rewrite filter_app, length_app, <- IH.
    rewrite filter_cons, decide_False; [simpl; lia|].
    unfold scrubbed, begun, scrubDocument_begin. simpl. by repeat case_match.
  - intros i t t' w' s' counted evs m _ (_ & Hok & _) Ht Hmove IH. simpl.
    destruct (move_counted _ _ _ _ _ _ _ _
                (proj1 (Forall_lookup _ _) Hok i t Ht) Hmove) as [Hn Hc].
    rewrite (units_scrubbed_insert _ _ t) by done. rewrite IH.
    destruct counted; case_decide; try done.
    + by destruct H; apply Hc.
    + by apply Hc in H.
  - unfold init. by destruct (not_defined _).
Qed.

Definition is_report (ev : event) : Prop :=
  match ev with Report_success _ | Log_done _ => True | _ => False end.

Lemma check_units_do_not_report e w sched i ev :
  (Unit i, ev) ∈ trace (check e w sched) → ¬ is_report ev.
Proof.
  intros Hin.
  destruct (check_every_unit e w (λ _ _ _ E, Forall (λ x, ¬ is_report x) E))
    with (sched := sched) as [Hst Hall].
  - by intros.
  - intros x s b d _. unfold scrubDocument_begin. repeat case_match; simpl;
      repeat constructor; by intros [].
  - intros t x s t' x' s' counted evs E _ HE Hmove. apply Forall_app. split; [|done].
    apply Forall_rev. destruct Hmove; repeat constructor; try (by intros []).
    + apply Forall_fmap, Forall_forall. intros ? _. by intros [].
    + apply Forall_app. split; [|repeat constructor; by intros []].
      apply Forall_fmap, Forall_forall. intros ? _. by intros [].
  - pose proof (Hst i ev Hin) as Hlt.
    destruct (lookup_lt_is_Some_2 _ _ Hlt) as [t Ht].
    apply (proj1 (Forall_forall _ _) (Hall i t Ht)). by apply elem_of_events_of.
Qed.

(** C8, as the check does it.  When the check resolves, [reportSuccess] has
    been called exactly once, and with the empty summary [{}]; the number of
    calls of [scrubDocument] that returned [true] is [deletedCount], which
    goes to the log line written just before.  As long as the check has not
    resolved, nothing has been reported. *)
Theorem report_once_with_empty_summary e w sched :
  (main (check e w sched) = Resolved →
   ∃ tr, trace (check e w sched) =
           (Main, Report_success []) ::
           (Main, Log_done (units_scrubbed (tasks (check e w sched)))) :: tr ∧
         (∀ a payload, (a, Report_success payload) ∉ tr) ∧
         deletedCount (check e w sched) = units_scrubbed (tasks (check e w sched))) ∧
  (main (check e w sched) ≠ Resolved →
   ∀ a payload, (a, Report_success payload) ∉ trace (check e w sched)).
Proof.
  pose proof (check_coherent e w sched) as (_ & _ & Hmain).
  pose proof (check_counted_units e w sched) as Hcount. unfold counted_units in Hcount.
  assert (∀ tr, (∀ x, x ∈ tr → x ∈ trace (check e w sched)) → only_query tr →
            ∀ a payload, (a, Report_success payload) ∉ tr) as Hno.
  { intros tr Hsub Hq [|i] payload Hin.
    - by specialize (proj1 (Forall_forall _ _) Hq _ Hin eq_refl).
    - by apply (check_units_do_not_report e w sched i _ (Hsub _ Hin)). }
  unfold main_ok in Hmain. split.
  - intros Hres. rewrite Hres in Hmain. destruct Hmain as (_ & _ & tr & Htr & Hq).
    exists tr. rewrite <- Hcount. split_and!; try done.
    apply Hno; [|done]. intros x Hx. rewrite Htr. by do 2 apply list_elem_of_further.
  - intros Hres. destruct (main (check e w sched)) as [r|i rest| |e0]; try done.
    + destruct Hmain as (_ & _ & _ & _ & -> & _). intros a payload Hin.
      by apply list_elem_of_singleton in Hin.
    + destruct Hmain as (_ & _ & _ & Hq). by apply Hno.
    + by apply Hno.
Qed.

(** ** A unit that throws rejects the check *)

Lemma thrown_rejects e w m t :
  coherent e w m → t ∈ tasks m → is_thrown (pc t) → ∃ er, main m = Rejected er.
Proof.
  intros (_ & _ & Hmain) Hin Hth. unfold main_ok in Hmain.
  destruct (main m) as [r|i rest| |er]; [| | |by eexists].
  - destruct Hmain as (Hnil & _). rewrite Hnil in Hin. by apply elem_of_nil in Hin.
  - destruct Hmain as (Hall & Hq & _).
    destruct (proj1 (Forall_forall _ _) Hq t Hin) as [Hb|[_ Hr]].
    + by destruct (proj1 (Forall_forall _ _) (promise_all_pending _ _ Hall) t Hin Hb).
    + by destruct (returned_not_thrown _ Hr).
  - destruct Hmain as (Hret & _).
    by destruct (returned_not_thrown _ (proj1 (Forall_forall _ _) Hret t Hin)).
Qed.

(** Once rejected, the check starts no unit and reports nothing. *)
Lemma rejected_stays e w sched er :
  main (check e w sched) = Rejected er →
  ∀ more,
    main (check e w (sched ++ more)) = Rejected er ∧
    length (tasks (check e w (sched ++ more))) = length (tasks (check e w sched)).
Proof.
  intros Hrej more. induction more as [|c more IH] using rev_ind.
  - by rewrite app_nil_r.
  - rewrite app_assoc, check_snoc. destruct IH as [Hm Hl].
    set (m := check e w (sched ++ more)) in *. rewrite <- Hl. clearbody m. clear Hl.
    assert (∀ m', main m' = Rejected er → poll m' = m') as Hpoll.
    { intros m' Hm'. unfold poll. by rewrite Hm'. }
    assert (main (unit_turn m c) = Rejected er ∧
            length (tasks (unit_turn m c)) = length (tasks m)) as [Hu Hlu].
    { destruct (unit_turn_move m c)
        as [->|(i & t & t' & w' & s' & counted & evs & _ & _ & _ & ->)]; [done|].
      simpl. by rewrite length_insert. }
    destruct c as [ok| |i ok|i|i k ok|i k]; simpl in *;
      rewrite ?Hpoll by done; try done.
    + unfold settle_main. by rewrite Hm.
    + unfold resume_main. by rewrite Hm.
Qed.

(** ** Missing configuration *)

Definition env_thrown (p : progress) : Prop := ∃ name, p = Thrown (MissingEnv name).

Lemma begin_env_thrown e s d :
  not_defined (SERVICE_ACCOUNT e) = true ∨
  not_defined (DUST_DATA_SOURCES_BUCKET e) = true →
  env_thrown (scrubDocument_begin e s d).1 ∧
  Forall (λ _, False) (scrubDocument_begin e s d).2.
Proof.
  unfold scrubDocument_begin, env_thrown. intros [He|He].
  - destruct (not_defined (DUST_DATA_SOURCES_BUCKET e)); rewrite ?He; simpl;
      split; by (eexists || constructor).
  - rewrite He. simpl. split; by (eexists || constructor).
Qed.

Lemma move_env_thrown t x s t' x' s' counted evs :
  env_thrown (pc t) → deletes t = [] → ¬ move t x s t' x' s' counted evs.
Proof.
  intros [name Hp] Hd Hmove.
  destruct Hmove; try congruence; by rewrite Hd in *.
Qed.

Lemma init_without_database e w sched :
  not_defined (CORE_DATABASE_URI e) = true → check e w sched = init e w.
Proof.
  intros He. induction sched as [|c sched IH] using rev_ind; [done|].
  rewrite check_snoc, IH. unfold init. rewrite He.
  destruct c as [ok| |i ok|i|i k ok|i k]; try done.
Qed.

Lemma query_deleted_made e w sched :
  not_defined (CORE_DATABASE_URI e) = false →
  (Main, Query_deleted) ∈ trace (check e w sched).
Proof.
  intros He.
  apply (check_invariant e w (λ m, (Main, Query_deleted) ∈ trace m)); try done.
  - intros m _ IH. simpl. by do 2 apply list_elem_of_further.
  - intros b d m _ _ _ IH. rewrite start_unit_eq. simpl. apply elem_of_app. by right.
  - intros i t t' w' s' counted evs m _ _ _ _ IH. simpl. apply elem_of_app. by right.
  - unfold init. rewrite He. apply list_elem_of_here.
Qed.

(** Once the check has resolved with no unit, no turn changes anything. *)
Lemma idle_when_resolved m more :
  tasks m = [] → main m = Resolved → fold_left step more m = m.
Proof.
  intros Ht Hm. induction more as [|c more IH]; [done|]. simpl.
  assert (step m c = m) as ->; [|done].
  destruct c as [ok| |i ok|i|i k ok|i k]; simpl.
  - unfold settle_main. by rewrite Hm.
  - unfold resume_main. by rewrite Hm.
  - unfold settle. by rewrite Ht.
  - unfold resume. rewrite Ht. simpl. unfold poll. by rewrite Hm.
  - unfold settle_delete. by rewrite Ht.
  - unfold resume_delete. rewrite Ht. simpl. unfold poll. by rewrite Hm.
Qed.

(** With no deleted row the check resolves and reports as soon as the query
    for the deleted rows is answered and the check resumed. *)
Lemma no_candidate_resolves e w more :
  not_defined (CORE_DATABASE_URI e) = false →
  select_deleted w = [] →
  main (check e w (Settle_main true :: Resume_main :: more)) = Resolved ∧
  (Main, Report_success []) ∈
    trace (check e w (Settle_main true :: Resume_main :: more)).
Proof.
  intros He Hsel. unfold check, run. simpl.
  assert (resume_main (settle_main true (init e w)) =
          finish (settle_main true (init e w))) as Hfin.
  { unfold init. rewrite He. unfold settle_main, resume_main. simpl. by rewrite Hsel. }
  rewrite Hfin, idle_when_resolved.
  - split; [done|]. simpl. apply list_elem_of_here.
  - unfold init. by rewrite He.
  - done.
Qed.

(** C9, as the check does it.  Without the database URI the check throws at
    once: nothing is asked, whatever turns follow.  Without the service
    account or the bucket, the query for the deleted rows is still made; every
    unit then throws before it asks anything, so the stores, the set [seen]
    and the count stay as they were, and the check is rejected as soon as one
    unit has started; with no deleted row the check resolves and reports, and
    it cannot resolve otherwise. *)
Theorem missing_configuration e w sched :
  (not_defined (CORE_DATABASE_URI e) = true →
   check e w sched = init e w ∧
   trace (check e w sched) = [] ∧
   main (check e w sched) = Rejected (MissingEnv "CORE_DATABASE_URI")) ∧
  (not_defined (CORE_DATABASE_URI e) = false →
   not_defined (SERVICE_ACCOUNT e) = true ∨
   not_defined (DUST_DATA_SOURCES_BUCKET e) = true →
   (Main, Query_deleted) ∈ trace (check e w sched) ∧
   world (check e w sched) = w ∧
   (∀ i ev, (Unit i, ev) ∉ trace (check e w sched)) ∧
   (∀ t, t ∈ tasks (check e w sched) → env_thrown (pc t)) ∧
   (tasks (check e w sched) ≠ [] → ∃ er, main (check e w sched) = Rejected er) ∧
   (main (check e w sched) = Resolved → select_deleted w = []) ∧
   (select_deleted w = [] →
    main (check e w (Settle_main true :: Resume_main :: sched)) = Resolved ∧
    (Main, Report_success []) ∈
      trace (check e w (Settle_main true :: Resume_main :: sched)))).
Proof.
  split.
  - intros He. rewrite (init_without_database e w sched He). unfold init.
    by rewrite He.
  - intros Hdb He.
    destruct (check_untouched e w (λ _, True) (λ _, True) env_thrown (λ _, False))
      with (sched := sched) as ((Hst & _ & Hconf) & _ & Hw & _); try done.
    { intros s d _. by apply begin_env_thrown. }
    { intros t x s t' x' s' counted evs _ _ Hp Hd Hmove.
      by destruct (move_env_thrown _ _ _ _ _ _ _ _ Hp Hd Hmove). }
    pose proof (check_coherent e w sched) as Hco.
    assert (∀ t, t ∈ tasks (check e w sched) → env_thrown (pc t)) as Hthrown.
    { intros t Hin. apply list_elem_of_lookup in Hin as [i Hi].
      by destruct (Hconf i t Hi I) as (? & _). }
    split_and!; try done.
    + by apply query_deleted_made.
    + intros i ev Hin. pose proof (Hst i ev Hin) as Hlt.
      destruct (lookup_lt_is_Some_2 _ _ Hlt) as [t Ht].
      destruct (Hconf i t Ht I) as (_ & _ & Hev).
      apply elem_of_events_of in Hin.
      by apply (proj1 (Forall_forall _ _) Hev) in Hin.
    + intros Hne. destruct (tasks (check e w sched)) as [|t ts] eqn:Hts; [done|].
      apply (thrown_rejects e w _ t Hco).
      * rewrite Hts. apply list_elem_of_here.
      * destruct (Hthrown t) as [name ->]; [apply list_elem_of_here|by eexists].
    + intros Hres. destruct Hco as (_ & _ & Hmain). unfold main_ok in Hmain.
      rewrite Hres in Hmain. destruct Hmain as (Hret & <- & _).
      destruct (tasks (check e w sched)) as [|t ts]; [done|].
      destruct (Hthrown t) as [name Hp]; [apply list_elem_of_here|].
      apply Forall_inv in Hret as [b Hb]. congruence.
    + intros Hsel. by apply no_candidate_resolves.
Qed.

(** ** A rejected check *)

Lemma not_reported e w sched :
  main (check e w sched) ≠ Resolved →
  ∀ a payload, (a, Report_success payload) ∉ trace (check e w sched).
Proof.
  intros Hres [|i] payload Hin;
    [|by apply (check_units_do_not_report e w sched i _ Hin)].
  pose proof (check_coherent e w sched) as (_ & _ & Hmain). unfold main_ok in Hmain.
  destruct (main (check e w sched)) as [r|i rest| |e0]; try done.
  - destruct Hmain as (_ & _ & _ & _ & Htr & _). rewrite Htr in Hin.
    by apply list_elem_of_singleton in Hin.
  - destruct Hmain as (_ & _ & _ & Hq).
    by specialize (proj1 (Forall_forall _ _) Hq _ Hin eq_refl).
  - by specialize (proj1 (Forall_forall _ _) Hmain _ Hin eq_refl).
Qed.

(** The run is aborted with error [er]: whatever turns follow, the check
    stays rejected, starts no further unit (no later chunk) and reports
    nothing; the units in flight are not cancelled: they still take their
    turns, as [settle], [resume], [settle_delete] and [resume_delete] define
    them. *)
Definition aborted (e : environment) (w : stores) (sched : list turn) (er : error) : Prop :=
  ∀ more,
    main (check e w (sched ++ more)) = Rejected er ∧
    length (tasks (check e w (sched ++ more))) = length (tasks (check e w sched)) ∧
    (∀ a payload, (a, Report_success payload) ∉ trace (check e w (sched ++ more))) ∧
    (∀ c, is_Some (turn_of c) →
          check e w (sched ++ more ++ [c]) = unit_turn (check e w (sched ++ more)) c).

Lemma rejected_aborted e w sched er :
  main (check e w sched) = Rejected er → aborted e w sched er.
Proof.
  intros Hrej more. destruct (rejected_stays e w sched er Hrej more) as [Hm Hl].
  split_and!; try done.
  - apply not_reported. by rewrite Hm.
  - intros c Hc. rewrite app_assoc, check_snoc.
    rewrite (step_poll e w) by (apply check_coherent || done).
    unfold poll.
    assert (main (unit_turn (check e w (sched ++ more)) c) = Rejected er) as ->; [|done].
    destruct (unit_turn_move (check e w (sched ++ more)) c)
      as [->|(i & t & t' & w' & s' & counted & evs & _ & _ & _ & ->)]; done.
Qed.

Lemma thrown_aborted e w sched i t :
  tasks (check e w sched) !! i = Some t → is_thrown (pc t) →
  ∃ er, aborted e w sched er.
Proof.
  intros Ht Hth.
  destruct (thrown_rejects e w _ t (check_coherent e w sched)) as [er Her];
    [by eapply list_elem_of_lookup_2|done|].
  exists er. by apply rejected_aborted.
Qed.

(** ** A failed deletion *)

Definition failed (name : string) (t : task) : Prop :=
  (name, DelSettled false) ∈ deletes t ∨ (name, DelDelivered false) ∈ deletes t.

Lemma check_task_ok e w sched i t :
  tasks (check e w sched) !! i = Some t → task_ok t.
Proof.
  intros Ht. destruct (check_coherent e w sched) as (_ & Hok & _).
  by apply (proj1 (Forall_lookup _ _) Hok i t).
Qed.

Lemma failed_not_delivered name t :
  failed name t → ¬ Forall delivered_ok (deletes t).
Proof.
  intros [Hin|Hin] Hall;
    by pose proof (proj1 (Forall_forall _ _) Hall _ Hin).
Qed.

(** C2, as the check does it.  When a [f.delete()] of a unit has failed, the
    unit issues no purge in this run and does not return [true]; when the
    failure reaches the unit it throws, and its error rejects the
    [Promise.all] of the chunk and with it the check: the run is aborted, no
    later chunk is started and nothing is reported, while the units in flight
    still take their turns. *)
Theorem failed_delete_aborts_run e w sched i t name :
  tasks (check e w sched) !! i = Some t →
  failed name t →
  (∀ ds doc h, (Unit i, Purge ds doc h) ∉ trace (check e w sched)) ∧
  pc t ≠ Returned true ∧
  ((name, DelDelivered false) ∈ deletes t →
   is_thrown (pc t) ∧ ∃ er, aborted e w sched er).
Proof.
  intros Ht Hfail.
  pose proof (check_task_ok e w sched i t Ht) as Hok.
  pose proof (check_orderly e w sched i t Ht) as Ho.
  pose proof (failed_not_delivered name t Hfail) as Hnot.
  split_and!.
  - intros ds doc h Hin. apply Hnot, (o_after _ _ _ Ho), Exists_exists.
    exists (Purge ds doc h). split; [by apply elem_of_events_of|done].
  - intros Hpc. unfold task_ok in Hok. by rewrite Hpc in Hok.
  - intros Hin.
    assert (is_thrown (pc t)) as Hth.
    { unfold task_ok in Hok.
      destruct (pc t) as [| | | | |[]|er]; try (by destruct Hnot);
        try (rewrite Hok in Hin; by apply elem_of_nil in Hin); [|by eexists].
      by pose proof (proj1 (Forall_forall _ _) Hok _ Hin). }
    split; [done|]. by eapply thrown_aborted.
Qed.

(** ** A source that is not found *)

Definition no_source (w : stores) (d : document) : Prop :=
  select_data_source w (data_source d) = [].

Definition same_sources (w x : stores) : Prop := data_sources x = data_sources w.

(** Where a unit whose source is not found can stand. *)
Definition before_listing (p : progress) : Prop :=
  match p with
  | AwaitLive _ | AwaitSource Waiting | AwaitSource (Settled None)
  | AwaitSource (Settled (Some [])) | Returned false | Thrown _ => True
  | _ => False
  end.

Definition is_query (ev : event) : Prop :=
  match ev with Query_more_recent _ _ _ _ | Query_data_source _ => True | _ => False end.

Lemma begin_before_listing e s d :
  before_listing (scrubDocument_begin e s d).1 ∧
  Forall is_query (scrubDocument_begin e s d).2.
Proof.
  unfold scrubDocument_begin. repeat case_match; simpl; split; by repeat constructor.
Qed.

Lemma move_before_listing w t x s t' x' s' counted evs :
  no_source w (row t) → same_sources w x → before_listing (pc t) → deletes t = [] →
  move t x s t' x' s' counted evs →
  before_listing (pc t') ∧ deletes t' = [] ∧ Forall is_query evs ∧
  x' = x ∧ s' = s ∧ counted = false.
Proof.
  intros Hno Hsame Hp Hd Hmove.
  destruct Hmove; simpl; try (rewrite Hd in *; done);
    try (match goal with Hpc : pc t = _ |- _ => rewrite Hpc in Hp end; try done;
         split_and!; try done; by repeat constructor).
  destruct ok; [|by split_and!].
  assert (select_data_source x (data_source (row t)) = []) as ->; [|by split_and!].
  unfold select_data_source. rewrite Hsame. apply Hno.
Qed.

(** C3, as the check does it.  The unit of a row whose source has no row in
    [data_sources] asks nothing but its two queries (no listing, no deletion,
    no purge) and never returns [true].  When the answer to the query for the
    source reaches it, it throws "Could not find data source"; and the error
    of a unit rejects the check: the run is aborted, no later chunk is
    started and nothing is reported. *)
Theorem missing_source_aborts_run e w sched i t :
  tasks (check e w sched) !! i = Some t →
  no_source w (row t) →
  Forall is_query (events_of i (trace (check e w sched))) ∧
  deletes t = [] ∧
  before_listing (pc t) ∧
  (pc t = AwaitSource Waiting →
   ∃ t', tasks (check e w (sched ++ [Settle i true; Resume i])) !! i = Some t' ∧
         pc t' = Thrown (DataSourceNotFound (data_source (row t)))) ∧
  (is_thrown (pc t) → ∃ er, aborted e w sched er).
Proof.
  intros Ht Hno.
  destruct (check_confined e w (no_source w) (same_sources w) before_listing is_query)
    with (sched := sched) as (_ & Hsame & Hconf); try done.
  { intros s d _. apply begin_before_listing. }
  { apply move_before_listing. }
  destruct (Hconf i t Ht Hno) as (Hp & Hd & Hev).
  split_and!; try done.
  - intros Hpc. unfold check, run. rewrite fold_left_app. simpl.
    fold (run sched (init e w)). fold (check e w sched).
    set (m := check e w sched) in *.
    assert (select_data_source (world m) (data_source (row t)) = []) as Hsel.
    { unfold select_data_source. rewrite Hsame. apply Hno. }
    assert (tasks (settle i true m) !! i =
            Some (with_pc (AwaitSource (Settled (Some []))) t)) as Ht1.
    { unfold settle. rewrite Ht, Hpc, Hsel. simpl.
      apply list_lookup_insert_eq. by eapply lookup_lt_Some. }
    exists (with_pc (Thrown (DataSourceNotFound (data_source (row t))))
              (with_pc (AwaitSource (Settled (Some []))) t)).
    split; [|done].
    apply poll_tasks. unfold resume. rewrite Ht1. simpl.
    apply list_lookup_insert_eq. by eapply lookup_lt_Some.
  - intros Hth. by eapply thrown_aborted.
Qed.

(** ** Two rows of the same version *)

Definition env_defined (e : environment) : Prop :=
  not_defined (DUST_DATA_SOURCES_BUCKET e) = false ∧
  not_defined (SERVICE_ACCOUNT e) = false.

Lemma begin_seen e s d :
  env_defined e → uid d ∈ s → scrubDocument_begin e s d = (Returned false, []).
Proof.
  intros [Hb Ha] Hin. unfold scrubDocument_begin. rewrite Hb, Ha.
  by rewrite bool_decide_eq_true_2.
Qed.

Lemma begin_not_scrubbed e s d : (scrubDocument_begin e s d).1 ≠ Returned true.
Proof. unfold scrubDocument_begin. by repeat case_match. Qed.

Lemma begin_env e s d :
  ¬ env_thrown (scrubDocument_begin e s d).1 → env_defined e.
Proof.
  unfold scrubDocument_begin, env_defined, env_thrown.
  destruct (not_defined (DUST_DATA_SOURCES_BUCKET e));
    [intros []; by eexists|].
  destruct (not_defined (SERVICE_ACCOUNT e)); [intros []; by eexists|done].
Qed.

Lemma move_env_thrown_stays t x s t' x' s' counted evs :
  move t x s t' x' s' counted evs → env_thrown (pc t) → env_thrown (pc t').
Proof. intros Hmove [name Hp]. destruct Hmove; simpl; try congruence; by eexists. Qed.

(** What the set [seen] knows of the units of the earlier chunks. *)
Record collapsing (e : environment) (m : machine) : Prop := Collapsing {
  c_started : started m;
  c_env : ∀ i t, tasks m !! i = Some t → ¬ env_thrown (pc t) → env_defined e;
  c_seen : ∀ i t, tasks m !! i = Some t → pc t = Returned true → uid (row t) ∈ seen m;
  c_earlier : ∀ i j ti tj,
    tasks m !! i = Some ti → tasks m !! j = Some tj →
    (batch ti < batch tj)%nat → is_returned (pc ti);
  c_skipped : ∀ i j ti tj,
    tasks m !! i = Some ti → tasks m !! j = Some tj →
    (batch ti < batch tj)%nat → uid (row ti) = uid (row tj) →
    pc ti = Returned true →
    pc tj = Returned false ∧ deletes tj = [] ∧ events_of j (trace m) = []
}.

Lemma check_collapsing e w sched : collapsing e (check e w sched).
Proof.
  apply (check_invariant e w (collapsing e)).
  - intros s m [H1 H2 H3 H4 H5]. constructor; try done; by apply started_main.
  - intros m _ [H1 H2 H3 H4 H5]. constructor; try done; by apply started_finish.
  - intros b d m _ He Hq [H1 H2 H3 H4 H5].
    constructor; [by apply started_start|..]; rewrite start_unit_eq; simpl.
    + intros i t Ht Hp. destruct (lookup_started _ _ _ _ Ht) as [Hi|[-> ->]];
        [by eapply H2|]. simpl in Hp. rewrite He in Hp. by eapply begin_env.
    + intros i t Ht Hp. destruct (lookup_started _ _ _ _ Ht) as [Hi|[-> ->]];
        [by eapply H3|]. simpl in Hp. by destruct (begin_not_scrubbed _ _ _ Hp).
    + intros i j ti tj Hi Hj Hlt.
      destruct (lookup_started _ _ _ _ Hi) as [Hi'|[-> ->]];
        destruct (lookup_started _ _ _ _ Hj) as [Hj'|[-> ->]]; simpl in *.
      * by apply (H4 i j ti tj).
      * destruct (proj1 (Forall_lookup _ _) Hq i ti Hi') as [?|[_ ?]]; [lia|done].
      * destruct (proj1 (Forall_lookup _ _) Hq j tj Hj') as [?|[? _]]; lia.
      * lia.
    + intros i j ti tj Hi Hj Hlt Hu Hp. rewrite events_of_app.
      destruct (lookup_started _ _ _ _ Hi) as [Hi'|[-> ->]]; simpl in *;
        [|by destruct (begin_not_scrubbed _ _ _ Hp)].
      destruct (lookup_started _ _ _ _ Hj) as [Hj'|[-> ->]]; simpl in *.
      * rewrite events_of_other; [simpl; by apply (H5 i j ti tj)|].
        intros [= Heq]. apply lookup_lt_Some in Hj'. lia.
      * rewrite events_of_same, (events_of_fresh m) by (done || lia).
        assert (env_defined e) as Hdef.
        { apply (H2 i ti Hi'). rewrite Hp. by intros [? [=]]. }
        rewrite He, (begin_seen e (seen m) d Hdef); [done|].
        rewrite <- Hu. by eapply H3.
  - intros i t t' w' s' counted evs m _ (_ & Hok & _) Ht Hmove [H1 H2 H3 H4 H5].
    pose proof (proj1 (Forall_lookup _ _) Hok i t Ht) as Hokt.
    assert (∀ p, is_returned p → pc t = p → False) as Hnr.
    { intros p Hr <-. by destruct (returned_no_move _ _ _ _ _ _ _ _ Hokt Hr Hmove). }
    constructor; [by eapply started_moved|..]; simpl.
    + intros j tj Hj Hp. destruct (lookup_moved _ _ _ _ _ Hj) as [[-> ->]|[_ Hj']];
        [|by eapply H2].
      apply (H2 i t Ht). intros Hth. by apply Hp, (move_env_thrown_stays _ _ _ _ _ _ _ _ Hmove).
    + intros j tj Hj Hp. pose proof (move_seen _ _ _ _ _ _ _ _ Hmove) as Hs.
      destruct (lookup_moved _ _ _ _ _ Hj) as [[-> ->]|[_ Hj']].
      * destruct Hmove; simpl in Hp; try done; try (by destruct (Hnr _ (ex_intro _ true eq_refl) Hp)).
        set_solver.
      * specialize (H3 j tj Hj' Hp). set_solver.
    + intros j k tj tk Hj Hk Hlt.
      destruct (lookup_moved _ _ _ _ _ Hj) as [[-> ->]|[_ Hj']];
        destruct (lookup_moved _ _ _ _ _ Hk) as [[-> ->]|[_ Hk']].
      * lia.
      * rewrite (move_batch _ _ _ _ _ _ _ _ Hmove) in Hlt.
        destruct (Hnr _ (H4 _ _ _ _ Ht Hk' Hlt) eq_refl).
      * rewrite (move_batch _ _ _ _ _ _ _ _ Hmove) in Hlt. by apply (H4 j i tj t).
      * by apply (H4 j k tj tk).
    + intros j k tj tk Hj Hk Hlt Hu Hp. rewrite events_of_app.
      destruct (lookup_moved _ _ _ _ _ Hj) as [[-> ->]|[Hji Hj']].
      * destruct (lookup_moved _ _ _ _ _ Hk) as [[-> ->]|[_ Hk']]; [lia|].
        rewrite (move_batch _ _ _ _ _ _ _ _ Hmove) in Hlt.
        destruct (Hnr _ (H4 _ _ _ _ Ht Hk' Hlt) eq_refl).
      * destruct (lookup_moved _ _ _ _ _ Hk) as [[-> ->]|[Hki Hk']].
        -- rewrite (move_batch _ _ _ _ _ _ _ _ Hmove) in Hlt.
           rewrite (move_row _ _ _ _ _ _ _ _ Hmove) in Hu.
           destruct (H5 _ _ _ _ Hj' Ht Hlt Hu Hp) as (Hf & _).
           destruct (Hnr _ (ex_intro _ false eq_refl) Hf).
        -- rewrite events_of_other by congruence. by apply (H5 j k tj tk).
  - constructor; try apply started_init;
      intros i; intros; unfold init in *; by destruct (not_defined _).
Qed.



(** * Further properties of the check *)

(** ** The chunks of the first loop *)

Lemma slices_lookup {A : Type} (fuel : nat) (l : list A) (k : nat) :
  (length l ≤ fuel)%nat →
  slices fuel l !! k =
  if decide (32 * k < length l)%nat then Some (take 32 (drop (32 * k) l)) else None.
Proof.
  revert l k. induction fuel as [|fuel IH]; intros [|x l] k Hlen; simpl in Hlen.
  - case_decide as Hlt; [simpl in Hlt; lia|apply lookup_nil].
  - lia.
  - case_decide as Hlt; [simpl in Hlt; lia|apply lookup_nil].
  - change (slices (S fuel) (x :: l)) with
      (take 32 (x :: l) :: slices fuel (drop 32 (x :: l))).
    destruct k as [|k].
    + rewrite decide_True by (simpl; lia). done.
    + rewrite lookup_cons_ne_0 by lia. replace (Init.Nat.pred (S k)) with k by done.
      rewrite IH by (rewrite length_drop; simpl; lia).
      rewrite length_drop, drop_drop.
      replace (32 + 32 * k)%nat with (32 * S k)%nat by lia.
      destruct (decide (32 * k < length (x :: l) - 32)%nat),
               (decide (32 * S k < length (x :: l))%nat); try done; lia.
Qed.

(** X1. The first loop of the check cuts the deleted rows in consecutive
    slices: chunk [k] is [deletedDocuments.slice(32 * k, 32 * k + 32)], there
    are chunks as long as [32 * k] is below the number of rows, no chunk is
    empty or longer than 32, and the chunks put end to end are the rows. *)
Theorem chunks_are_slices {A : Type} (l : list A) :
  (∀ k, chunks_of l !! k =
        if decide (32 * k < length l)%nat
        then Some (take 32 (drop (32 * k) l)) else None) ∧
  Forall (λ c, (0 < length c ≤ 32)%nat) (chunks_of l) ∧
  concat (chunks_of l) = l.
Proof.
  assert (∀ k, chunks_of l !! k =
               if decide (32 * k < length l)%nat
               then Some (take 32 (drop (32 * k) l)) else None) as Hk.
  { intros k. by apply slices_lookup. }
  split_and!; [done| |by apply slices_concat].
  apply Forall_lookup. intros k c Hc. rewrite Hk in Hc.
  case_decide as Hlt; [|done]. injection Hc as <-.
  rewrite length_take, length_drop. lia.
Qed.

(** ** One call of [scrubDocument] per deleted row, chunk after chunk *)

(** X2. When the check resolves, [scrubDocument] has been called once for
    each row of the query for the deleted rows, in the order of the rows, and
    every call has returned. *)
Theorem resolved_after_every_row e w sched :
  main (check e w sched) = Resolved →
  row <$> tasks (check e w sched) = select_deleted w ∧
  Forall (λ t, is_returned (pc t)) (tasks (check e w sched)).
Proof.
  intros Hres. destruct (check_coherent e w sched) as (_ & _ & Hmain).
  unfold main_ok in Hmain. rewrite Hres in Hmain. by destruct Hmain as (? & ? & _).
Qed.

(** X3. The chunks are processed one after the other: as long as a unit of
    some chunk has not returned, no unit of a later chunk exists. *)
Theorem chunks_one_after_the_other e w sched i j ti tj :
  tasks (check e w sched) !! i = Some ti →
  tasks (check e w sched) !! j = Some tj →
  (batch ti < batch tj)%nat →
  is_returned (pc ti).
Proof. apply (c_earlier _ _ (check_collapsing e w sched)). Qed.

#[global] Instance is_returned_dec p : Decision (is_returned p).
Proof.
  destruct p as [| | | | |b|]; try (right; by intros [? [=]]). left. by eexists.
Defined.

(** The units of chunk [b]. *)
Definition in_chunk (b : nat) (ts : list task) : nat :=
  length (filter (λ x, x = b) (batch <$> ts)).

Lemma insert_batches (ts : list task) (i : nat) (t t' : task) :
  ts !! i = Some t → batch t' = batch t → batch <$> <[i := t']> ts = batch <$> ts.
Proof.
  intros Hi Hb. rewrite list_fmap_insert, Hb. apply list_insert_id.
  by rewrite list_lookup_fmap, Hi.
Qed.

Definition chunk_sizes (m : machine) : Prop :=
  (∀ b, (in_chunk b (tasks m) ≤ 32)%nat) ∧
  match main m with
  | AwaitChunk i rest => Forall (λ c, (length c ≤ 32)%nat) rest
  | _ => True
  end.

Lemma in_chunk_started e s b chunk ts b0 :
  in_chunk b0 (ts ++ (begun e s b <$> chunk)) =
  (in_chunk b0 ts + if decide (b = b0) then length chunk else 0)%nat.
Proof.
  unfold in_chunk. rewrite fmap_app, filter_app, length_app. f_equal.
  destruct (decide (b = b0)) as [->|Hne].
  - induction chunk as [|d chunk IH]; [done|].
    rewrite !fmap_cons, filter_cons_True by done. simpl. by rewrite IH.
  - induction chunk as [|d chunk IH]; [done|].
    rewrite !fmap_cons, filter_cons_False by done. done.
Qed.

Lemma run_chunks_sizes chunks : ∀ i m,
  Forall (λ t, (batch t < i)%nat) (tasks m) →
  (∀ b, (in_chunk b (tasks m) ≤ 32)%nat) →
  Forall (λ c, (length c ≤ 32)%nat) chunks →
  chunk_sizes (run_chunks i chunks m).
Proof.
  induction chunks as [|chunk rest IH]; intros i m Hlt Hcount Hlen; [done|].
  apply Forall_cons in Hlen as [Hc Hrest]. simpl.
  destruct (start_chunk_spec i chunk m) as (_ & _ & _ & _ & _ & Ht & _).
  assert (in_chunk i (tasks m) = 0%nat) as Hzero.
  { unfold in_chunk. clear -Hlt. induction (tasks m) as [|t ts IHts]; [done|].
    apply Forall_cons in Hlt as [Ht Hts]. rewrite fmap_cons, filter_cons.
    rewrite decide_False by lia. by apply IHts. }
  assert (∀ b, (in_chunk b (tasks (start_chunk i chunk m)) ≤ 32)%nat) as Hcount'.
  { intros b. rewrite Ht, in_chunk_started. case_decide as Hb; [|by rewrite Nat.add_0_r].
    subst b. rewrite Hzero. lia. }
  destruct (promise_all i (tasks (start_chunk i chunk m))); try (by split).
  apply IH; try done. rewrite Ht. apply Forall_app. split.
  - eapply Forall_impl; [exact Hlt|]. intros t ?. simpl in *. lia.
  - apply Forall_fmap, Forall_forall. intros d _. simpl. lia.
Qed.

Lemma check_chunk_sizes e w sched : chunk_sizes (check e w sched).
Proof.
  induction sched as [|c sched IH] using rev_ind.
  - unfold check, run, init. simpl.
    destruct (not_defined (CORE_DATABASE_URI e));
      (split; [intros b; unfold in_chunk; simpl; lia|done]).
  - rewrite check_snoc. pose proof (check_coherent e w sched) as Hco.
    set (m := check e w sched) in *. destruct IH as [Hcount Hrest].
    destruct (turn_of c) as [i|] eqn:Hc.
    + rewrite (step_poll e w) by (done || by eexists).
      assert (main (unit_turn m c) = main m ∧
              batch <$> tasks (unit_turn m c) = batch <$> tasks m) as [Hm Hb].
      { destruct (unit_turn_move m c)
          as [->|(j & t & t' & w' & s' & counted & evs & _ & Ht & Hmove & ->)]; [done|].
        split; [done|]. simpl. apply (insert_batches _ _ t); [done|].
        by eapply move_batch. }
      assert (∀ b, (in_chunk b (tasks (unit_turn m c)) ≤ 32)%nat) as Hcount'.
      { intros b. unfold in_chunk. rewrite Hb. apply Hcount. }
      unfold poll. rewrite Hm.
      destruct Hco as (_ & _ & Hmain). unfold main_ok in Hmain.
      destruct (main m) as [r|i0 rest| |er] eqn:Hmm; try (split; [done|by rewrite Hm]).
      destruct (promise_all i0 (tasks (unit_turn m c))) eqn:Hall.
      * split; [done|]. by rewrite Hm.
      * apply run_chunks_sizes; try done.
        destruct Hmain as (_ & Hq & _).
        assert (Forall (λ x, (x < S i0)%nat) (batch <$> tasks (unit_turn m c))) as Hlt.
        { rewrite Hb. apply Forall_fmap. eapply Forall_impl; [exact Hq|].
          intros t [?|[? _]]; simpl; lia. }
        by apply Forall_fmap in Hlt.
      * by split.
    + destruct c as [ok| | | | |]; try done; simpl.
      * assert (chunk_sizes m) as Hcs by (by split).
        unfold settle_main. destruct (main m) as [[|r]| | |] eqn:Hmm; try done;
          by split.
      * assert (chunk_sizes m) as Hcs by (by split).
        unfold resume_main. destruct Hco as (_ & _ & Hmain). unfold main_ok in Hmain.
        destruct (main m) as [[|[l|]]| | |] eqn:Hmm; try done; try (by split).
        destruct Hmain as (Hnil & _). apply run_chunks_sizes.
        -- rewrite Hnil. constructor.
        -- done.
        -- apply Forall_lookup. intros k c Hk.
           unfold chunks_of in Hk. rewrite (slices_lookup (length l) l k) in Hk by done.
           case_decide; [|done]. injection Hk as <-. rewrite length_take. lia.
Qed.

Lemma filter_length_le {A : Type} (P Q : A → Prop)
    `{∀ x, Decision (P x)} `{∀ x, Decision (Q x)} (l : list A) :
  (∀ x, x ∈ l → P x → Q x) → (length (filter P l) ≤ length (filter Q l))%nat.
Proof.
  induction l as [|x l IH]; intros Himp; [done|].
  rewrite !filter_cons.
  assert (length (filter P l) ≤ length (filter Q l))%nat as Hle.
  { apply IH. intros y Hy. apply Himp. by apply list_elem_of_further. }
  destruct (decide (P x)) as [HP|HP].
  - rewrite decide_True by (apply Himp; [apply list_elem_of_here|done]). simpl. lia.
  - destruct (decide (Q x)); simpl; lia.
Qed.

(** X4. At most 32 calls of [scrubDocument] have not returned, at any
    moment of any run: the units that have not returned all belong to one
    chunk, and a chunk has at most 32 rows. *)
Theorem at_most_32_units_in_flight e w sched :
  (length (filter (λ t, ¬ is_returned (pc t)) (tasks (check e w sched))) ≤ 32)%nat.
Proof.
  set (m := check e w sched).
  destruct (filter (λ t, ¬ is_returned (pc t)) (tasks m)) as [|t0 l] eqn:Hf;
    [simpl; lia|].
  rewrite <- Hf.
  assert (¬ is_returned (pc t0) ∧ t0 ∈ tasks m) as [Hn0 Hin0].
  { apply (list_elem_of_filter (λ t, ¬ is_returned (pc t))).
    rewrite Hf. apply list_elem_of_here. }
  etrans; [|apply (proj1 (check_chunk_sizes e w sched) (batch t0))].
  unfold in_chunk. fold m.
  assert (length (filter (λ x, x = batch t0) (batch <$> tasks m)) =
          length (filter (λ t, batch t = batch t0) (tasks m))) as ->.
  { clear. induction (tasks m) as [|t ts IH]; [done|].
    rewrite fmap_cons, !filter_cons. case_decide; simpl; by rewrite IH. }
  apply filter_length_le. intros t Hin Hn.
  apply list_elem_of_lookup in Hin as [i Hi]. apply list_elem_of_lookup in Hin0 as [j Hj].
  destruct (Nat.lt_trichotomy (batch t) (batch t0)) as [Hlt|[Heq|Hgt]]; [|done|].
  - destruct Hn. apply (c_earlier _ _ (check_collapsing e w sched) i j t t0 Hi Hj Hlt).
  - destruct Hn0. apply (c_earlier _ _ (check_collapsing e w sched) j i t0 t Hj Hi Hgt).
Qed.

(** ** Errors *)

Lemma evolves_sources x x' : evolves x x' → data_sources x' = data_sources x.
Proof. by destruct 1. Qed.

Lemma check_same_sources e w sched : same_sources w (world (check e w sched)).
Proof.
  apply (check_invariant e w (λ m, same_sources w (world m))); try done.
  - intros b d m _ _ _ IH. by rewrite start_unit_eq.
  - intros i t t' w' s' counted evs m _ _ _ Hmove IH. simpl. unfold same_sources in *.
    by rewrite (evolves_sources _ _ (move_evolves _ _ _ _ _ _ _ _ Hmove)).
  - unfold init. by destruct (not_defined _).
Qed.

(** Why a call of [scrubDocument] throws [er] for the row [d]. *)
Definition thrown_because (e : environment) (w : stores) (d : document) (er : error) : Prop :=
  er = RequestFailed ∨
  (er = MissingEnv "DUST_DATA_SOURCES_BUCKET" ∧
   not_defined (DUST_DATA_SOURCES_BUCKET e) = true) ∨
  (er = MissingEnv "SERVICE_ACCOUNT" ∧
   not_defined (SERVICE_ACCOUNT e) = true ∧
   not_defined (DUST_DATA_SOURCES_BUCKET e) = false) ∨
  (er = DataSourceNotFound (data_source d) ∧ no_source w d).

Definition justified (e : environment) (w : stores) (x : stores) (t : task) : Prop :=
  same_sources w x →
  (pc t = AwaitSource (Settled (Some [])) → no_source w (row t)) ∧
  (∀ er, pc t = Thrown er → thrown_because e w (row t) er).

Lemma begun_justified e w x s b d : justified e w x (begun e s b d).
Proof.
  intros _. unfold begun, scrubDocument_begin, thrown_because. simpl.
  destruct (not_defined (DUST_DATA_SOURCES_BUCKET e)) eqn:Hb; simpl.
  { split; [done|]. intros er [= <-]. right. by left. }
  destruct (not_defined (SERVICE_ACCOUNT e)) eqn:Ha; simpl.
  { split; [done|]. intros er [= <-]. right. right. by left. }
  case_bool_decide; simpl; by split.
Qed.

Lemma move_justified e w t x s t' x' s' counted evs :
  justified e w x t → move t x s t' x' s' counted evs → justified e w x' t'.
Proof.
  intros Hj Hmove Hsame'.
  assert (same_sources w x) as Hsame.
  { unfold same_sources in *.
    by rewrite <- (evolves_sources _ _ (move_evolves _ _ _ _ _ _ _ _ Hmove)). }
  destruct (Hj Hsame) as [Hno Hth]. unfold thrown_because in *.
  destruct Hmove; simpl; rewrite ?(H : pc t = _) in *;
    try (split; [done|]; intros er [= <-]; by left);
    try (by split); try (split; [by auto|by auto]).
  - destruct ok; [|by split]. split; [|done]. intros [= Hsel].
    unfold no_source, select_data_source in *. by rewrite <- Hsame.
  - split; [done|]. intros er [= <-]. do 3 right. split; [done|]. by apply Hno.
Qed.

Lemma promise_all_failed_error b ts er :
  promise_all b ts = Failed er → ∃ t, t ∈ ts ∧ batch t = b ∧ pc t = Thrown er.
Proof.
  induction ts as [|t ts IH]; simpl; [done|].
  assert (promise_all b ts = Failed er →
          ∃ t0, t0 ∈ t :: ts ∧ batch t0 = b ∧ pc t0 = Thrown er) as IH'.
  { intros H. destruct (IH H) as (t0 & ? & ? & ?). exists t0.
    split; [by apply list_elem_of_further|done]. }
  case_decide as Hb; [|done].
  destruct (pc t) eqn:Hpc.
  7: { intros [= ->]. exists t. split; [apply list_elem_of_here|done]. }
  6: done.
  all: destruct (promise_all b ts); try done; intros [= <-]; by apply IH'.
Qed.

Lemma run_chunks_rejected chunks : ∀ i m er,
  main (run_chunks i chunks m) = Rejected er →
  ∃ t, t ∈ tasks (run_chunks i chunks m) ∧ pc t = Thrown er.
Proof.
  induction chunks as [|chunk rest IH]; intros i m er; simpl; [done|].
  destruct (promise_all i (tasks (start_chunk i chunk m))) eqn:Hall; simpl; try done.
  - apply IH.
  - intros [= ->]. destruct (promise_all_failed_error _ _ _ Hall) as (t & ? & _ & ?).
    by exists t.
Qed.

Lemma move_thrown_stays t x s t' x' s' counted evs er :
  move t x s t' x' s' counted evs → pc t = Thrown er → pc t' = Thrown er.
Proof. intros Hmove Hp. destruct Hmove; simpl; congruence. Qed.

(** Why the check is rejected with [er]. *)
Definition rejected_because (e : environment) (m : machine) (er : error) : Prop :=
  (tasks m = [] ∧
   ((er = MissingEnv "CORE_DATABASE_URI" ∧ not_defined (CORE_DATABASE_URI e) = true) ∨
    er = RequestFailed)) ∨
  ∃ t, t ∈ tasks m ∧ pc t = Thrown er.

(** X6. The check is rejected only with the error of the missing database
    URI or of the rejected query for the deleted rows (no unit has then been
    started), or with the error a call of [scrubDocument] has thrown. *)
Theorem rejection_has_a_cause e w sched er :
  main (check e w sched) = Rejected er →
  rejected_because e (check e w sched) er.
Proof.
  revert er. induction sched as [|c sched IH] using rev_ind; intros er.
  - unfold check, run, init. simpl.
    destruct (not_defined (CORE_DATABASE_URI e)) eqn:He; simpl; [|done].
    intros [= <-]. left. split; [done|]. by left.
  - rewrite check_snoc. pose proof (check_coherent e w sched) as Hco.
    set (m := check e w sched) in *.
    destruct (turn_of c) as [i|] eqn:Hc.
    + rewrite (step_poll e w) by (done || by eexists).
      assert (main (unit_turn m c) = main m) as Hm.
      { destruct (unit_turn_move m c)
          as [->|(j & t & t' & w' & s' & counted & evs & _ & _ & _ & ->)]; done. }
      assert (∀ er0, rejected_because e m er0 →
                     rejected_because e (unit_turn m c) er0) as Hkeep.
      { intros er0 Hr. destruct (unit_turn_move m c)
          as [->|(j & t & t' & w' & s' & counted & evs & _ & Ht & Hmove & ->)]; [done|].
        destruct Hr as [[Hnil _]|(t0 & Hin & Hp)]; [by rewrite Hnil in Ht|].
        right. apply list_elem_of_lookup in Hin as [k Hk]. simpl.
        destruct (decide (k = j)) as [->|Hne].
        - exists t'. split.
          + apply list_elem_of_lookup. exists j. apply list_lookup_insert_eq.
            by eapply lookup_lt_Some.
          + assert (t0 = t) as -> by congruence.
            by eapply move_thrown_stays.
        - exists t0. split; [|done]. apply list_elem_of_lookup. exists k.
          by rewrite list_lookup_insert_ne. }
      unfold poll. rewrite Hm.
      destruct (main m) as [r|i0 rest| |er0] eqn:Hmm; rewrite ?Hm;
        try (intros [=]; fail).
      * destruct (promise_all i0 (tasks (unit_turn m c))) eqn:Hall.
        -- by rewrite Hm.
        -- intros Hrej. right. by apply run_chunks_rejected.
        -- simpl. intros [= ->]. right.
           destruct (promise_all_failed_error _ _ _ Hall) as (t & ? & _ & ?). by exists t.
      * intros [= <-]. by apply Hkeep, IH.
    + destruct c as [ok| | | | |]; try done; simpl.
      * unfold settle_main. destruct (main m) as [[|r]| | |] eqn:Hmm; simpl;
          rewrite ?Hmm; try (intros [=]; fail).
        intros [= <-]. by apply IH.
      * unfold resume_main. destruct Hco as (_ & _ & Hmain). unfold main_ok in Hmain.
        destruct (main m) as [[|[l|]]| | |] eqn:Hmm; simpl; rewrite ?Hmm;
          try (intros [=]; fail).
        -- intros Hrej. right. by apply run_chunks_rejected.
        -- intros [= <-]. left. destruct Hmain as (Hnil & _). split; [done|by right].
        -- intros [= <-]. by apply IH.
Qed.

(** ** What the check touches in the stores *)

(** The stores [x] hold nothing that [w] did not hold, and the same sources. *)
Definition shrunk (w x : stores) : Prop :=
  data_sources x = data_sources w ∧
  (∀ r, r ∈ data_sources_documents x → r ∈ data_sources_documents w) ∧
  (∀ name, name ∈ bucket x → name ∈ bucket w).

Lemma evolves_shrunk w x x' : evolves x x' → shrunk w x → shrunk w x'.
Proof.
  intros Hev (Hs & Hd & Hb). destruct Hev; [done|..]; split_and!; simpl; try done.
  - intros n Hn. apply list_elem_of_filter in Hn as [_ Hn]. by apply Hb.
  - intros r Hr. apply list_elem_of_filter in Hr as [_ Hr]. by apply Hd.
Qed.

Lemma check_shrunk e w sched : shrunk w (world (check e w sched)).
Proof.
  apply (check_invariant e w (λ m, shrunk w (world m))); try done.
  - intros b d m _ _ _ IH. by rewrite start_unit_eq.
  - intros i t t' w' s' counted evs m _ _ _ Hmove IH. simpl.
    eapply evolves_shrunk; [by eapply move_evolves|done].
  - unfold init. by destruct (not_defined _).
Qed.

(** X7. The check creates nothing: in every run the table of the sources
    stays as it was, and every row of the documents table and every object of
    the bucket was there at the start. *)
Theorem check_creates_nothing e w sched : shrunk w (world (check e w sched)).
Proof. apply check_shrunk. Qed.

(** [path] is the path of the version of [d] under a source row of [d]. *)
Definition is_path (w : stores) (d : document) (path : string) : Prop :=
  ∃ src, src ∈ data_sources w ∧ ds_id src = data_source d ∧ path = blob_path src d.

Record within_prefix (w : stores) (t : task) : Prop := WithinPrefix {
  wp_sources : ∀ l, pc t = AwaitSource (Settled (Some l)) →
    ∀ src, src ∈ l → src ∈ data_sources w ∧ ds_id src = data_source (row t);
  wp_path : ∀ path r, pc t = AwaitFiles path r → is_path w (row t) path;
  wp_files : ∀ path files, pc t = AwaitFiles path (Settled (Some files)) →
    ∀ name, name ∈ files → String.prefix path name = true;
  wp_deletes : ∀ name, name ∈ (deletes t).*1 →
    ∃ path, is_path w (row t) path ∧ String.prefix path name = true
}.

Lemma begun_within_prefix e w s b d : within_prefix w (begun e s b d).
Proof.
  unfold begun, scrubDocument_begin.
  repeat case_match; constructor; simpl; try done;
    intros name Hin; by apply elem_of_nil in Hin.
Qed.

Lemma move_within_prefix w t x s t' x' s' counted evs :
  task_ok t → same_sources w x → within_prefix w t →
  move t x s t' x' s' counted evs → within_prefix w t'.
Proof.
  intros Hok Hsame [H1 H2 H3 H4] Hmove. unfold task_ok in Hok.
  destruct Hmove as [ok Hpc|Hpc|y l Hpc|Hpc|ok Hpc|Hpc|Hpc|dsrc l Hpc|path ok Hpc
                |path Hpc|path files Hpc Hf|path files Hpc Hf
                |k name ok Hk|k name ok Hk Hpc|k name files Hk Hpc
                |k name files Hk Hpc Hall|k name files Hk Hpc Hall
                |files Hpc|files Hpc|files Hpc|files u Hpc];
    constructor; simpl; rewrite ?Hpc in *; try done;
    try (intros name0 Hin; rewrite ?(insert_names _ _ _ _ _ Hk) in Hin; by apply H4);
    try (intros name0 Hin; by apply elem_of_nil in Hin).
  - (* source_settled *)
    intros l Heq src Hin. destruct ok; [|done]. injection Heq as <-.
    apply list_elem_of_filter in Hin as [Hid Hin]. split; [|done].
    unfold same_sources in Hsame. by rewrite <- Hsame.
  - (* source_found: the path *)
    intros path r [= <- <-]. destruct (H1 _ eq_refl dsrc) as [Hin Hid];
      [apply list_elem_of_here|]. by exists dsrc.
  - (* files_settled: the path *)
    intros p r [= <- <-]. by eapply H2.
  - (* files_settled: the files *)
    intros p files Heq name Hin. destruct ok; [|done]. injection Heq as <- <-.
    by apply list_elem_of_filter in Hin as [? _].
  - (* files_deletes_issued *)
    intros name Hin. rewrite <- list_fmap_compose in Hin.
    apply list_elem_of_fmap in Hin as (n & -> & Hin). simpl.
    apply list_elem_of_filter in Hin as [_ Hin].
    exists path. split; [by eapply H2|by eapply H3].
Qed.

Lemma check_within_prefix e w sched i t :
  tasks (check e w sched) !! i = Some t → within_prefix w t.
Proof.
  intros Ht.
  destruct (check_every_unit e w (λ x _ t _, same_sources w x → within_prefix w t))
    with (sched := sched) as [_ Hall].
  - intros x s x' s' t0 E Hev _ Hj Hsame. apply Hj. unfold same_sources in *.
    by rewrite <- (evolves_sources _ _ Hev).
  - intros x s b d _ _. apply begun_within_prefix.
  - intros t0 x s t' x' s' counted evs E Hok Hq Hmove Hsame'.
    assert (same_sources w x) as Hsame.
    { unfold same_sources in *.
      by rewrite <- (evolves_sources _ _ (move_evolves _ _ _ _ _ _ _ _ Hmove)). }
    apply (move_within_prefix w t0 x s t' x' s' counted evs Hok Hsame (Hq Hsame) Hmove).
  - by apply (Hall i t Ht (check_same_sources e w sched)).
Qed.

(** The unit that has deleted the object [name]. *)
Definition deleted_by (w : stores) (m : machine) (name : string) : Prop :=
  ∃ i t, tasks m !! i = Some t ∧ name ∈ (deletes t).*1 ∧
         (Unit i, File_deleted name true) ∈ trace m.

Record deletions_accounted (w : stores) (m : machine) : Prop := DeletionsAccounted {
  da_rows : Forall (λ t, row t ∈ select_deleted w) (tasks m);
  da_gone : ∀ name, name ∈ bucket w → name ∉ bucket (world m) → deleted_by w m name
}.

Lemma move_keeps_names t x s t' x' s' counted evs name :
  task_ok t → move t x s t' x' s' counted evs →
  name ∈ (deletes t).*1 → name ∈ (deletes t').*1.
Proof.
  intros Hok Hmove Hin. unfold task_ok in Hok.
  destruct Hmove; simpl; try done;
    try (by rewrite (insert_names _ _ _ _ _ ltac:(eassumption)));
    rewrite (H : pc t = _) in Hok; rewrite Hok in Hin; by apply elem_of_nil in Hin.
Qed.

Lemma check_deletions_accounted e w sched : deletions_accounted w (check e w sched).
Proof.
  apply (check_invariant e w (deletions_accounted w)).
  - by intros s m [H1 H2].
  - intros m _ [H1 H2]. constructor; [done|]. intros name Hin Hn.
    destruct (H2 name Hin Hn) as (i & t & ? & ? & ?). exists i, t. split_and!; try done.
    simpl. by do 2 apply list_elem_of_further.
  - intros b d m Hd _ _ [H1 H2]. rewrite start_unit_eq. constructor; simpl.
    + apply Forall_app. split; [done|]. by apply Forall_singleton.
    + intros name Hin Hn. destruct (H2 name Hin Hn) as (i & t & ? & ? & ?).
      exists i, t. split_and!; try done.
      * by apply lookup_app_l_Some.
      * apply elem_of_app. by right.
  - intros i t t' w' s' counted evs m _ (_ & Hok & _) Ht Hmove [H1 H2].
    pose proof (proj1 (Forall_lookup _ _) Hok i t Ht) as Hokt.
    constructor; simpl.
    + apply Forall_insert; [done|]. rewrite (move_row _ _ _ _ _ _ _ _ Hmove).
      by apply (proj1 (Forall_lookup _ _) H1 i t).
    + assert (∀ name, deleted_by w m name →
                      deleted_by w (moved i t' w' s' counted evs m) name) as Hkeep.
      { intros name (j & tj & Hj & Hin & Hev).
        destruct (decide (j = i)) as [->|Hne].
        - exists i, t'. assert (tj = t) as -> by congruence. split_and!.
          + simpl. apply list_lookup_insert_eq. by eapply lookup_lt_Some.
          + by eapply move_keeps_names.
          + simpl. apply elem_of_app. by right.
        - exists j, tj. split_and!; [|done|].
          + simpl. by rewrite list_lookup_insert_ne.
          + simpl. apply elem_of_app. by right. }
      intros name Hin Hn.
      destruct (decide (name ∈ bucket (world m))) as [Hb|Hb]; [|by apply Hkeep, H2].
      destruct Hmove; try (by destruct Hn).
      destruct ok; [|by destruct Hn].
      simpl in Hn. rewrite list_elem_of_filter in Hn.
      destruct (decide (name = name0)) as [->|Hne]; [|by destruct Hn].
      exists i, (with_deletes (<[k:=(name0, DelSettled true)]> (deletes t)) t).
      split_and!.
      * simpl. apply list_lookup_insert_eq. by eapply lookup_lt_Some.
      * simpl. rewrite (insert_names _ _ _ _ _ ltac:(eassumption)).
        apply list_elem_of_fmap. exists (name0, DelIssued). split; [done|].
        by eapply list_elem_of_lookup_2.
      * simpl. apply list_elem_of_here.
  - constructor.
    + unfold init. destruct (not_defined _); constructor.
    + intros name Hin Hn. destruct Hn. unfold init. by destruct (not_defined _).
Qed.

(** X8. An object is deleted from the bucket only under the path of a
    version that was to be scrubbed: in every run, an object that is gone was
    deleted by a unit whose row is a deleted row with no live version of the
    same hash created at or after it, and the name of the object starts with
    [project/internal_id/digest/hash] for a source row of that row. *)
Theorem only_blobs_of_deleted_versions_are_deleted e w sched name :
  name ∈ bucket w →
  name ∉ bucket (world (check e w sched)) →
  ∃ i t src,
    tasks (check e w sched) !! i = Some t ∧
    (Unit i, File_deleted name true) ∈ trace (check e w sched) ∧
    row t ∈ select_deleted w ∧
    ¬ has_live w (row t) ∧
    src ∈ data_sources w ∧ ds_id src = data_source (row t) ∧
    String.prefix (blob_path src (row t)) name = true.
Proof.
  intros Hin Hn.
  destruct (da_gone _ _ (check_deletions_accounted e w sched) name Hin Hn)
    as (i & t & Ht & Hname & Hev).
  destruct (wp_deletes _ _ (check_within_prefix e w sched i t Ht) name Hname)
    as (path & (src & Hsrc & Hid & ->) & Hprefix).
  exists i, t, src. split_and!; try done.
  - apply (proj1 (Forall_lookup _ _)
             (da_rows _ _ (check_deletions_accounted e w sched)) i t Ht).
  - intros Hlive.
    destruct (check_confined e w (has_live w) (keeps_live w) skipping is_query_more_recent
                (keeps_live_delete w) (keeps_live_purge w)
                (λ s d _, begin_skipping e s d) (move_skipping w) sched)
      as (_ & _ & Hconf); [by intros r Hr _|].
    destruct (Hconf i t Ht Hlive) as (_ & Hd & _). rewrite Hd in Hname.
    by apply elem_of_nil in Hname.
Qed.

(** ** What a call that returned [true] has done *)

Definition purge_carried_out (p : progress) : Prop :=
  p = Returned true ∨ ∃ files u, p = AwaitPurge files (Settled (Some u)).

Definition deleted_ok (name : string) (t : task) : Prop :=
  (name, DelSettled true) ∈ deletes t ∨ (name, DelDelivered true) ∈ deletes t.

Record scrubbed_so_far (x : stores) (t : task) : Prop := ScrubbedSoFar {
  ss_rows : purge_carried_out (pc t) →
    ∀ r, r ∈ data_sources_documents x →
         same_version (data_source (row t)) (document_id (row t)) (hash (row t)) r →
         ¬ is_deleted r;
  ss_blobs : ∀ name, deleted_ok name t → name ∉ bucket x
}.

Lemma evolves_scrubbed_so_far x x' t :
  evolves x x' → scrubbed_so_far x t → scrubbed_so_far x' t.
Proof.
  intros Hev [H1 H2].
  destruct (evolves_shrunk x x x' Hev) as (_ & Hd & Hb); [done|].
  constructor.
  - intros Hp r Hr. apply H1; [done|by apply Hd].
  - intros name Hn Hin. by apply (H2 name Hn), Hb.
Qed.

Lemma move_scrubbed_so_far t x s t' x' s' counted evs :
  task_ok t → scrubbed_so_far x t → move t x s t' x' s' counted evs →
  scrubbed_so_far x' t'.
Proof.
  intros Hok Hs Hmove.
  pose proof (evolves_scrubbed_so_far x x' t (move_evolves _ _ _ _ _ _ _ _ Hmove) Hs)
    as [H1 H2].
  unfold task_ok in Hok. unfold purge_carried_out, deleted_ok in *.
  destruct Hmove as [ok Hpc|Hpc|y l Hpc|Hpc|ok Hpc|Hpc|Hpc|dsrc l Hpc|path ok Hpc
                |path Hpc|path files Hpc Hf|path files Hpc Hf
                |k name ok Hk|k name ok Hk Hpc|k name files Hk Hpc
                |k name files Hk Hpc Hall|k name files Hk Hpc Hall
                |files Hpc|files Hpc|files Hpc|files u Hpc];
    constructor; simpl; rewrite ?Hpc in *;
    try (by intros [[=]|(? & ? & [=])]); try done.
  - intros name [Hin|Hin]; by apply elem_of_nil in Hin.
  - intros name [Hin|Hin]; by apply list_elem_of_fmap in Hin as (? & [=] & _).
  - (* delete_settled *)
    intros name0 [Hin|Hin]; apply elem_of_insert_inv in Hin as [[= -> <-]|Hin];
      try (apply H2; by auto).
    simpl. rewrite list_elem_of_filter. by intros [? _].
  - intros name0 [Hin|Hin]; apply elem_of_insert_inv in Hin as [[= -> <-]|Hin];
      apply H2; try (by auto). left. by apply (list_elem_of_lookup_2 _ k).
  - intros name0 [Hin|Hin]; apply elem_of_insert_inv in Hin as [[=]|Hin];
      apply H2; by auto.
  - intros name0 [Hin|Hin]; apply elem_of_insert_inv in Hin as [[= -> ]|Hin];
      apply H2; try (by auto). left. by apply (list_elem_of_lookup_2 _ k).
  - intros name0 [Hin|Hin]; apply elem_of_insert_inv in Hin as [[= -> ]|Hin];
      apply H2; try (by auto). left. by apply (list_elem_of_lookup_2 _ k).
  - (* purge_settled *)
    intros _ r Hr Hsame Hdel. simpl in Hr. apply list_elem_of_filter in Hr as [Hn _].
    by apply Hn.
  - (* purge_done *)
    intros _. apply H1. right. by eexists _, _.
Qed.

Lemma check_scrubbed_so_far e w sched i t :
  tasks (check e w sched) !! i = Some t →
  scrubbed_so_far (world (check e w sched)) t.
Proof.
  intros Ht.
  destruct (check_every_unit e w (λ x _ t _, scrubbed_so_far x t)) with (sched := sched)
    as [_ Hall]; [| | |by apply (Hall i t Ht)].
  - intros x s x' s' t0 E Hev _. by apply evolves_scrubbed_so_far.
  - intros x s b d _. unfold begun, scrubDocument_begin.
    repeat case_match; constructor; simpl;
      try (by intros [[=]|(? & ? & [=])]);
      intros name [Hin|Hin]; by apply elem_of_nil in Hin.
  - intros t0 x s t' x' s' counted evs E. apply move_scrubbed_so_far.
Qed.

(** X9. When a call of [scrubDocument] has returned [true], the table holds
    no deleted row of the source, document and hash of its row any more, every
    object it asked to delete is gone from the bucket, and the key of its
    version is in [seen]. *)
Theorem returned_true_has_scrubbed e w sched i t :
  tasks (check e w sched) !! i = Some t →
  pc t = Returned true →
  (∀ r, r ∈ data_sources_documents (world (check e w sched)) →
        same_version (data_source (row t)) (document_id (row t)) (hash (row t)) r →
        ¬ is_deleted r) ∧
  (∀ name st, (name, st) ∈ deletes t →
              st = DelDelivered true ∧ name ∉ bucket (world (check e w sched))) ∧
  uid (row t) ∈ seen (check e w sched).
Proof.
  intros Ht Hp. destruct (check_scrubbed_so_far e w sched i t Ht) as [H1 H2].
  pose proof (check_task_ok e w sched i t Ht) as Hok. unfold task_ok in Hok.
  rewrite Hp in Hok. split_and!.
  - apply H1. by left.
  - intros name st Hin.
    assert (st = DelDelivered true) as -> by apply (proj1 (Forall_forall _ _) Hok _ Hin).
    split; [done|]. apply H2. by right.
  - by apply (c_seen _ _ (check_collapsing e w sched) i t).
Qed.

(** ** The key of a version *)

Fixpoint all_chars (P : Ascii.ascii → bool) (s : string) : bool :=
  match s with
  | EmptyString => true
  | String c r => P c && all_chars P r
  end.

(** The decimal digits, and the characters other than the dash of the key. *)
Definition is_digit (c : Ascii.ascii) : bool :=
  (48 <=? Ascii.nat_of_ascii c)%nat && (Ascii.nat_of_ascii c <=? 57)%nat.

Definition not_dash (c : Ascii.ascii) : bool := negb (Ascii.eqb c "-"%char).

Definition dash_free (s : string) : Prop := all_chars not_dash s = true.

Lemma string_app_assoc (a b c : string) : (a +:+ b) +:+ c = a +:+ (b +:+ c).
Proof. induction a as [|x a IH]; [done|]. change (String x ((a +:+ b) +:+ c) = String x (a +:+ (b +:+ c))). by rewrite IH. Qed.

Lemma all_chars_app P a b :
  all_chars P (a +:+ b) = all_chars P a && all_chars P b.
Proof.
  induction a as [|x a IH]; [done|].
  change (P x && all_chars P (a +:+ b) = P x && all_chars P a && all_chars P b).
  rewrite IH. by destruct (P x).
Qed.

Lemma all_chars_impl (P Q : Ascii.ascii → bool) s :
  (∀ c, P c = true → Q c = true) → all_chars P s = true → all_chars Q s = true.
Proof.
  intros Himp. induction s as [|x s IH]; [done|]. simpl.
  rewrite !andb_true_iff. intros [? ?]. auto.
Qed.

(** Two strings cut at their first character outside [P] are cut alike. *)
Lemma split_first P a a' c c' r r' :
  all_chars P a = true → all_chars P a' = true → P c = false → P c' = false →
  a +:+ String c r = a' +:+ String c' r' → a = a' ∧ c = c' ∧ r = r'.
Proof.
  revert a'. induction a as [|x a IH]; intros [|y a'] Ha Ha' Hc Hc' Heq.
  - by injection Heq as -> ->.
  - injection Heq as -> _. simpl in Ha'. rewrite Hc in Ha'. done.
  - injection Heq as -> _. simpl in Ha. rewrite Hc' in Ha. done.
  - injection Heq as -> Heq. simpl in Ha, Ha'.
    apply andb_true_iff in Ha as [_ Ha]. apply andb_true_iff in Ha' as [_ Ha'].
    destruct (IH a' Ha Ha' Hc Hc' Heq) as (-> & -> & ->). done.
Qed.

(** Two strings cut at their last character outside [P] are cut alike. *)
Lemma split_last P a a' c b b' :
  P c = false → all_chars P b = true → all_chars P b' = true →
  a +:+ String c b = a' +:+ String c b' → a = a' ∧ b = b'.
Proof.
  intros Hc. revert a'. induction a as [|x a IH]; intros [|y a'] Hb Hb' Heq.
  - by injection Heq as ->.
  - injection Heq as -> Heq. rewrite Heq, all_chars_app in Hb. simpl in Hb.
    rewrite Hc in Hb. by destruct (all_chars P a').
  - injection Heq as -> Heq. rewrite <- Heq, all_chars_app in Hb'. simpl in Hb'.
    rewrite Hc in Hb'. by destruct (all_chars P a).
  - injection Heq as -> Heq. destruct (IH a' Hb Hb' Heq) as [-> ->]. done.
Qed.

Lemma pretty_N_char_digit x : is_digit (pretty_N_char x) = true.
Proof. unfold pretty_N_char. by repeat case_match. Qed.

Lemma pretty_N_go_digits x s :
  all_chars is_digit s = true → all_chars is_digit (pretty_N_go x s) = true.
Proof.
  revert s. induction (N.lt_wf_0 x) as [x _ IH]; intros s Hs.
  assert (x = 0 ∨ 0 < x)%N as [->|Hpos] by lia.
  - by rewrite pretty_N_go_0.
  - rewrite pretty_N_go_step by done. apply IH.
    + by apply N.div_lt.
    + simpl. by rewrite pretty_N_char_digit.
Qed.

Lemma pretty_Z_digits (z : Z) : 0 ≤ z → all_chars is_digit (pretty z) = true.
Proof.
  intros Hz. destruct z as [|p|p]; [done| |lia].
  unfold pretty, pretty_Z, pretty, pretty_positive, pretty, pretty_N.
  case_decide; [done|]. by apply pretty_N_go_digits.
Qed.

Lemma digit_not_dash c : is_digit c = true → not_dash c = true.
Proof.
  unfold is_digit, not_dash. destruct (Ascii.eqb_spec c "-"%char) as [->|]; [|done].
  by vm_compute.
Qed.

(** X10. The key [`${data_source}-${document_id}-${hash}`] does not tell
    where the document id ends: for all strings [a], [b], [c], the version
    of document [a-b] with hash [c] and the version of document [a] with hash
    [b-c] have the same key in [seen], and are different versions. *)
Theorem uid_is_ambiguous i1 i2 c1 c2 ds (a b c st1 st2 : string) :
  uid (Document i1 c1 ds (a +:+ "-" +:+ b) c st1) =
  uid (Document i2 c2 ds a (b +:+ "-" +:+ c) st2) ∧
  ¬ same_version ds (a +:+ "-" +:+ b) c (Document i2 c2 ds a (b +:+ "-" +:+ c) st2).
Proof.
  split.
  - unfold uid. simpl. by rewrite !string_app_assoc.
  - intros (_ & Hdoc & _). simpl in Hdoc.
    assert (String.length a = String.length (a +:+ "-" +:+ b)) as Hlen by (by rewrite <- Hdoc).
    clear -Hlen. induction a as [|x a IH]; [done|]. apply IH. by injection Hlen.
Qed.

(** With source ids that are not negative and hashes without dash the key
    is injective. *)
Lemma uid_same_version d d' :
  0 ≤ data_source d → 0 ≤ data_source d' →
  dash_free (hash d) → dash_free (hash d') →
  uid d = uid d' →
  same_version (data_source d) (document_id d) (hash d) d'.
Proof.
  intros Hds Hds' Hh Hh' Heq. unfold uid in Heq.
  change (pretty (data_source d) +:+ String "-" (document_id d +:+ "-" +:+ hash d) =
          pretty (data_source d') +:+ String "-" (document_id d' +:+ "-" +:+ hash d'))
    in Heq.
  apply (split_first is_digit) in Heq as (Hp & _ & Hrest);
    [|by apply pretty_Z_digits..|done|done].
  change (document_id d +:+ String "-" (hash d) =
          document_id d' +:+ String "-" (hash d')) in Hrest.
  apply (split_last not_dash) in Hrest as [Hdoc Hhash]; [|done..].
  split_and!; [|done..]. symmetry. by apply (inj pretty).
Qed.

(** X11. When the source ids are not negative and the hashes have no dash
    (a hexadecimal digest has none), the key tells the versions apart: two
    rows with the same key have the same source, document and hash. *)
Theorem uid_tells_versions_apart d d' :
  0 ≤ data_source d → 0 ≤ data_source d' →
  dash_free (hash d) → dash_free (hash d') →
  uid d = uid d' →
  same_version (data_source d) (document_id d) (hash d) d'.
Proof. apply uid_same_version. Qed.

Lemma prefix_app p name :
  String.prefix p name = true → ∃ rest, name = p +:+ rest.
Proof.
  revert name. induction p as [|x p IH]; intros name Hp; [by exists name|].
  destruct name as [|y name]; [done|]. simpl in Hp.
  destruct (Ascii.ascii_dec x y) as [->|]; [|done].
  destruct (IH name Hp) as [rest ->]. by exists rest.
Qed.

(** The name of an object under the path of a version is the key of no row. *)
Lemma path_is_no_key src d' d name :
  0 ≤ project src → 0 ≤ data_source d →
  String.prefix (blob_path src d') name = true → name ≠ uid d.
Proof.
  intros Hp Hds Hpre Heq. apply prefix_app in Hpre as [rest ->].
  unfold blob_path, uid in Heq. rewrite !string_app_assoc in Heq.
  change (pretty (project src) +:+
            String "/" (internal_id src +:+ "/" +:+ blake3_hex (document_id d') +:+
                        "/" +:+ hash d' +:+ rest) =
          pretty (data_source d) +:+ String "-" (document_id d +:+ "-" +:+ hash d))
    in Heq.
  apply (split_first is_digit) in Heq as (_ & Hc & _);
    [done|by apply pretty_Z_digits..|done|done].
Qed.

(** ** What is left after a run that resolved *)

(** Stores on which no key collides with another key or with the name of an
    object: the deleted rows have a source id that is not negative and a hash
    without dash, and no source has a negative project. *)
Definition well_formed (w : stores) : Prop :=
  (∀ d, d ∈ data_sources_documents w → is_deleted d →
        0 ≤ data_source d ∧ dash_free (hash d)) ∧
  (∀ src, src ∈ data_sources w → 0 ≤ project src).

(** Why a unit has returned [false], or is about to. *)
Definition skipped_because (w : stores) (s : gset string) (t : task) : Prop :=
  (∀ y l, pc t = AwaitLive (Settled (Some (y :: l))) → has_live w (row t)) ∧
  (pc t = Returned false → uid (row t) ∈ s ∨ has_live w (row t)).

Lemma select_more_recent_live w x d y l :
  shrunk w x →
  select_more_recent x (data_source d) (document_id d) (hash d) (created d) = y :: l →
  has_live w d.
Proof.
  intros (_ & Hd & _) Hsel. unfold select_more_recent in Hsel.
  destruct (filter _ (data_sources_documents x)) as [|r rs] eqn:Hf; [done|].
  assert (r ∈ filter (more_recent_same_hash (data_source d) (document_id d) (hash d)
                        (created d)) (data_sources_documents x)) as Hin
    by (rewrite Hf; apply list_elem_of_here).
  apply list_elem_of_filter in Hin as [Hm Hin]. exists r. split; [by apply Hd|done].
Qed.

Lemma move_skipped_because w t x s t' x' s' counted evs :
  shrunk w x → task_ok t → skipped_because w s t →
  move t x s t' x' s' counted evs → skipped_because w s' t'.
Proof.
  intros Hsh Hok [HF HG] Hmove. pose proof (move_seen _ _ _ _ _ _ _ _ Hmove) as Hs.
  destruct Hmove; split; simpl; rewrite ?(H : pc t = _) in *; try done;
    try (intros ? ? [=]; fail); try (intros [=]; fail).
  - intros y l [= Hsel]. destruct ok; [|done]. injection Hsel as Hsel.
    by eapply select_more_recent_live.
  - intros _. right. by eapply HF.
Qed.

Definition all_skipped_because (w : stores) (m : machine) : Prop :=
  ∀ i t, tasks m !! i = Some t → skipped_because w (seen m) t.

Lemma check_all_skipped_because e w sched : all_skipped_because w (check e w sched).
Proof.
  apply (check_invariant e w (all_skipped_because w)); unfold all_skipped_because.
  - by intros s m IH.
  - by intros m _ IH.
  - intros b d m _ _ _ IH i t Ht. rewrite start_unit_eq in Ht. simpl in *.
    rewrite start_unit_eq. simpl.
    destruct (lookup_started _ _ _ _ Ht) as [Hi|[-> ->]]; [by apply (IH i t)|].
    unfold skipped_because, begun, scrubDocument_begin. simpl.
    destruct (not_defined (DUST_DATA_SOURCES_BUCKET (env m))); [by split|].
    destruct (not_defined (SERVICE_ACCOUNT (env m))); [by split|].
    destruct (bool_decide (uid d ∈ seen m)) eqn:Hs; simpl; split; try done.
    intros _. left. by eapply bool_decide_eq_true_1.
  - intros i t t' w' s' counted evs m [sched' ->] (_ & Hok & _) Ht Hmove IH j tj Hj.
    simpl in *. destruct (lookup_moved _ _ _ _ _ Hj) as [[-> ->]|[_ Hj']].
    + eapply move_skipped_because; [apply check_shrunk| |by apply (IH i t)|done].
      by apply (proj1 (Forall_lookup _ _) Hok i t).
    + destruct (IH j tj Hj') as [HF HG]. split; [done|].
      intros Hp. destruct (HG Hp); [left|by right].
      pose proof (move_seen _ _ _ _ _ _ _ _ Hmove). set_solver.
  - intros i t Ht. unfold init in Ht. by destruct (not_defined _).
Qed.


(** The files a unit has listed lie under a path of its version. *)
Definition listing_within (w : stores) (t : task) : Prop :=
  ∀ files, listed (pc t) files →
  ∀ name, name ∈ files →
  ∃ path, is_path w (row t) path ∧ String.prefix path name = true.

Lemma move_listing_within w t x s t' x' s' counted evs :
  within_prefix w t → listing_within w t →
  move t x s t' x' s' counted evs → listing_within w t'.
Proof.
  intros [H1 H2 H3 H4] HL Hmove. unfold listing_within in *.
  destruct Hmove as [ok Hpc|Hpc|y l Hpc|Hpc|ok Hpc|Hpc|Hpc|dsrc l Hpc|path ok Hpc
                |path Hpc|path files Hpc Hf|path files Hpc Hf
                |k name ok Hk|k name ok Hk Hpc|k name files Hk Hpc
                |k name files Hk Hpc Hall|k name files Hk Hpc Hall
                |files Hpc|files Hpc|files Hpc|files u Hpc];
    simpl; try done; rewrite ?Hpc in *; simpl in *; try done.
  - intros fs <- name Hin. exists path. split; [by eapply H2|by eapply H3].
  - intros fs <- name Hin. exists path. split; [by eapply H2|by eapply H3].
Qed.

Lemma check_listing_within e w sched i t :
  tasks (check e w sched) !! i = Some t → listing_within w t.
Proof.
  intros Ht.
  destruct (check_every_unit e w
              (λ x _ t _, same_sources w x → within_prefix w t ∧ listing_within w t))
    with (sched := sched) as [_ Hall].
  - intros x s x' s' t0 E Hev _ Hj Hsame. apply Hj. unfold same_sources in *.
    by rewrite <- (evolves_sources _ _ Hev).
  - intros x s b d _ _. split; [apply begun_within_prefix|].
    unfold listing_within, begun, scrubDocument_begin. by repeat case_match.
  - intros t0 x s t' x' s' counted evs E Hok Hq Hmove Hsame'.
    assert (same_sources w x) as Hsame.
    { unfold same_sources in *.
      by rewrite <- (evolves_sources _ _ (move_evolves _ _ _ _ _ _ _ _ Hmove)). }
    destruct (Hq Hsame) as [Hwp HL]. split.
    + apply (move_within_prefix w t0 x s t' x' s' counted evs Hok Hsame Hwp Hmove).
    + by eapply move_listing_within.
  - by apply (Hall i t Ht (check_same_sources e w sched)).
Qed.

(** Where a string of [seen] comes from: it is the key of the row of a call
    that has returned [true], or the name of an object under the path of the
    version of some call. *)
Definition seen_from (w : stores) (m : machine) (k : string) : Prop :=
  (∃ i t, tasks m !! i = Some t ∧ pc t = Returned true ∧ k = uid (row t)) ∨
  (∃ i t path, tasks m !! i = Some t ∧ is_path w (row t) path ∧
               String.prefix path k = true).

Definition seen_accounted (w : stores) (m : machine) : Prop :=
  ∀ k, k ∈ seen m → seen_from w m k.

Lemma seen_from_moved w m i t t' w' s' counted evs k :
  task_ok t → tasks m !! i = Some t →
  move t (world m) (seen m) t' w' s' counted evs →
  seen_from w m k → seen_from w (moved i t' w' s' counted evs m) k.
Proof.
  intros Hok Ht Hmove [(j & tj & Hj & Hp & Hk)|(j & tj & path & Hj & Hpath & Hk)].
  - left. destruct (decide (j = i)) as [->|Hne].
    + assert (tj = t) as -> by congruence.
      destruct (returned_no_move _ _ _ _ _ _ _ _ Hok ltac:(by eexists) Hmove).
    + exists j, tj. split; [|done]. simpl. by rewrite list_lookup_insert_ne.
  - right. destruct (decide (j = i)) as [->|Hne].
    + assert (tj = t) as -> by congruence. exists i, t', path. split_and!; [|by
        rewrite (move_row _ _ _ _ _ _ _ _ Hmove)|done].
      simpl. apply list_lookup_insert_eq. by eapply lookup_lt_Some.
    + exists j, tj, path. split; [|done]. simpl. by rewrite list_lookup_insert_ne.
Qed.

Lemma check_seen_accounted e w sched : seen_accounted w (check e w sched).
Proof.
  apply (check_invariant e w (seen_accounted w)); unfold seen_accounted.
  - by intros s m IH.
  - by intros m _ IH.
  - intros b d m _ _ _ IH k Hk. rewrite start_unit_eq in *. simpl in *.
    destruct (IH k Hk) as [(j & tj & Hj & ?)|(j & tj & path & Hj & ?)].
    + left. exists j, tj. split; [by apply lookup_app_l_Some|done].
    + right. exists j, tj, path. split; [by apply lookup_app_l_Some|done].
  - intros i t t' w' s' counted evs m [sched' ->] (_ & Hok & _) Ht Hmove IH k Hk.
    pose proof (proj1 (Forall_lookup _ _) Hok i t Ht) as Hokt.
    destruct (decide (k ∈ seen (check e w sched'))) as [Hin|Hnin];
      [by apply (seen_from_moved w _ i t), IH|].
    simpl in Hk. pose proof (check_listing_within e w sched' i t Ht) as HL.
    pose proof (move_row _ _ _ _ _ _ _ _ Hmove) as Hrow.
    assert (tasks (moved i t' w' s' counted evs (check e w sched')) !! i = Some t') as Ht'.
    { simpl. apply list_lookup_insert_eq. by eapply lookup_lt_Some. }
    revert Ht' Hrow. destruct Hmove; try done. intros Ht' Hrow.
    apply elem_of_union in Hk as [Hk|Hk]; [apply elem_of_union in Hk as [Hk|Hk]|];
      [done| |].
    + apply elem_of_list_to_set in Hk. unfold listing_within in HL.
      rewrite (H : pc t = _) in HL. destruct (HL files eq_refl k Hk) as (path & ? & ?).
      right. eexists i, _, path. split; [exact Ht'|]. by rewrite Hrow.
    + apply elem_of_singleton in Hk as ->. left. eexists i, _. split; [exact Ht'|].
      by split.
  - intros k Hk. unfold init in Hk. by destruct (not_defined _).
Qed.

(** A deleted row that a resolved run has left has a live version. *)
Lemma resolved_rows_left e w sched r :
  well_formed w →
  main (check e w sched) = Resolved →
  r ∈ data_sources_documents (world (check e w sched)) →
  is_deleted r → has_live w r.
Proof.
  intros [Hwf Hproj] Hres Hr Hdel. set (m := check e w sched) in *.
  destruct (check_shrunk e w sched) as (_ & Hsub & _). fold m in Hsub.
  assert (∀ j tj, tasks m !! j = Some tj →
            row tj ∈ data_sources_documents w ∧ is_deleted (row tj)) as Hrows.
  { intros j tj Hj.
    pose proof (proj1 (Forall_lookup _ _)
                  (da_rows _ _ (check_deletions_accounted e w sched)) j tj Hj) as Hin.
    apply list_elem_of_filter in Hin as [? ?]. done. }
  assert (∀ j tj, tasks m !! j = Some tj → pc tj = Returned true →
            ¬ same_version (data_source (row tj)) (document_id (row tj))
                (hash (row tj)) r) as Hpurged.
  { intros j tj Hj Hp Hsame.
    destruct (check_scrubbed_so_far e w sched j tj Hj) as [H1 _].
    apply (H1 ltac:(by left) r Hr Hsame Hdel). }
  destruct (check_coherent e w sched) as (_ & _ & Hmain).
  unfold main_ok in Hmain. fold m in Hmain. rewrite Hres in Hmain.
  destruct Hmain as (Hret & Hsel & _).
  assert (r ∈ row <$> tasks m) as Hin.
  { rewrite Hsel. apply list_elem_of_filter. split; [done|by apply Hsub]. }
  apply list_elem_of_fmap in Hin as (t & -> & Hin).
  apply list_elem_of_lookup in Hin as [i Ht].
  destruct (proj1 (Forall_lookup _ _) Hret i t Ht) as [[|] Hp].
  { destruct (Hpurged i t Ht Hp). by split_and!. }
  destruct (check_all_skipped_because e w sched i t Ht) as [_ HG].
  destruct (HG Hp) as [Hseen|Hlive]; [|done].
  destruct (check_seen_accounted e w sched _ Hseen)
    as [(j & tj & Hj & Hpj & Hk)|(j & tj & path & Hj & (src & Hsrc & _ & ->) & Hk)].
  - destruct (Hrows j tj Hj) as [Hinj Hdelj]. destruct (Hwf _ Hinj Hdelj).
    destruct (Hwf _ (Hsub _ Hr) Hdel).
    destruct (Hpurged j tj Hj Hpj). by apply uid_same_version.
  - destruct (Hwf _ (Hsub _ Hr) Hdel) as [Hds _].
    by destruct (path_is_no_key src (row tj) (row t) _ (Hproj _ Hsrc) Hds Hk).
Qed.

Lemma check_keeps_live e w sched : keeps_live w (world (check e w sched)).
Proof.
  destruct (check_confined e w (has_live w) (keeps_live w) skipping is_query_more_recent
              (keeps_live_delete w) (keeps_live_purge w)
              (λ s d _, begin_skipping e s d) (move_skipping w) sched)
    as (_ & Hk & _); [by intros r Hr _|done].
Qed.

(** X12. On well-formed stores, a run that resolves leaves
    no deleted row without a live version: every deleted row that is still in
    the table has a row of the same source, document and hash that is not
    deleted and was created at or after it, and that row is still in the table
    too. *)
Theorem resolved_run_leaves_only_shadowed_rows e w sched r :
  well_formed w →
  main (check e w sched) = Resolved →
  r ∈ data_sources_documents (world (check e w sched)) →
  is_deleted r →
  has_live (world (check e w sched)) r.
Proof.
  intros Hwf Hres Hr Hdel.
  destruct (resolved_rows_left e w sched r Hwf Hres Hr Hdel) as (r' & Hr' & Hm).
  exists r'. split; [|done]. apply (check_keeps_live e w sched); [done|].
  by destruct Hm as (_ & ? & _).
Qed.

(** X13. The check is idempotent on well-formed stores: on
    the stores that a resolved run has left, a second run (in any environment,
    with any interleaving and any failing request) changes neither the table
    nor the bucket, counts no scrubbed version, adds nothing to [seen], and
    its calls of [scrubDocument] ask nothing but the query for a more recent
    version.  (With colliding keys it is not: see
    [second_run_purges_when_keys_collide].) *)
Theorem second_run_changes_nothing e w sched e2 sched2 :
  well_formed w →
  main (check e w sched) = Resolved →
  world (check e2 (world (check e w sched)) sched2) = world (check e w sched) ∧
  deletedCount (check e2 (world (check e w sched)) sched2) = 0%nat ∧
  seen (check e2 (world (check e w sched)) sched2) = ∅ ∧
  ∀ i, Forall is_query_more_recent
         (events_of i (trace (check e2 (world (check e w sched)) sched2))).
Proof.
  intros Hwf Hres. set (w1 := world (check e w sched)).
  destruct (check_untouched e2 w1 (has_live w1) (keeps_live w1) skipping
              is_query_more_recent (keeps_live_delete w1) (keeps_live_purge w1)
              (λ s d _, begin_skipping e2 s d) (move_skipping w1) sched2)
    as ((Hst & _ & Hconf) & Hrows & Hw & Hs & Hc).
  - by intros r Hr _.
  - intros d Hd. apply list_elem_of_filter in Hd as [Hdel Hd].
    destruct (resolved_rows_left e w sched d Hwf Hres Hd Hdel) as (r' & Hr' & Hm).
    exists r'. split; [|done]. apply (check_keeps_live e w sched); [done|].
    by destruct Hm as (_ & ? & _).
  - split_and!; try done. intros i.
    destruct (tasks (check e2 w1 sched2) !! i) as [t|] eqn:Ht.
    + by destruct (Hconf i t Ht (proj1 (Forall_lookup _ _) Hrows i t Ht)) as (_ & _ & ?).
    + rewrite (events_of_fresh (check e2 w1 sched2)); [constructor|done|].
      apply lookup_ge_None in Ht. lia.
Qed.


(** ** What the set [seen] holds *)

(** [k] is the key of the row of a call that has returned [true]. *)
Definition key_of_scrubbed (m : machine) (k : string) : Prop :=
  ∃ i t, tasks m !! i = Some t ∧ pc t = Returned true ∧ k = uid (row t).

Lemma key_of_scrubbed_moved m i t t' w' s' counted evs k :
  task_ok t → tasks m !! i = Some t →
  move t (world m) (seen m) t' w' s' counted evs →
  key_of_scrubbed m k → key_of_scrubbed (moved i t' w' s' counted evs m) k.
Proof.
  intros Hok Ht Hmove (j & tj & Hj & Hp & Hk).
  destruct (decide (j = i)) as [->|Hne].
  - assert (tj = t) as -> by congruence.
    destruct (returned_no_move _ _ _ _ _ _ _ _ Hok ltac:(by eexists) Hmove).
  - exists j, tj. split; [|done]. simpl. by rewrite list_lookup_insert_ne.
Qed.

Definition seen_gone_or_key (m : machine) : Prop :=
  ∀ k, k ∈ seen m → key_of_scrubbed m k ∨ k ∉ bucket (world m).

Lemma check_seen_gone_or_key e w sched : seen_gone_or_key (check e w sched).
Proof.
  apply (check_invariant e w seen_gone_or_key); unfold seen_gone_or_key.
  - by intros s m IH.
  - by intros m _ IH.
  - intros b d m _ _ _ IH k Hk. rewrite start_unit_eq in *. simpl in *.
    destruct (IH k Hk) as [(j & tj & Hj & ?)|?]; [left|by right].
    exists j, tj. split; [by apply lookup_app_l_Some|done].
  - intros i t t' w' s' counted evs m [sched' ->] (_ & Hok & _) Ht Hmove IH k Hk.
    pose proof (proj1 (Forall_lookup _ _) Hok i t Ht) as Hokt.
    assert (∀ k, k ∈ seen (check e w sched') →
              key_of_scrubbed (moved i t' w' s' counted evs (check e w sched')) k ∨
              k ∉ bucket w') as Hold.
    { intros k0 Hk0. destruct (IH k0 Hk0) as [?|Hb].
      - left. by apply (key_of_scrubbed_moved _ i t).
      - right. intros Hin. apply Hb.
        by apply (evolves_shrunk _ _ _ (move_evolves _ _ _ _ _ _ _ _ Hmove)). }
    destruct (decide (k ∈ seen (check e w sched'))) as [Hin|Hnin]; [by apply Hold|].
    simpl in Hk.
    pose proof (o_listed _ _ _ (check_orderly e w sched' i t Ht)) as HL.
    destruct (check_scrubbed_so_far e w sched' i t Ht) as [_ Hblobs].
    pose proof (move_row _ _ _ _ _ _ _ _ Hmove) as Hrow.
    assert (tasks (moved i t' w' s' counted evs (check e w sched')) !! i = Some t') as Ht'.
    { simpl. apply list_lookup_insert_eq. by eapply lookup_lt_Some. }
    revert Hold Ht' Hrow. destruct Hmove; try done. intros Hold Ht' Hrow.
    apply elem_of_union in Hk as [Hk|Hk]; [apply elem_of_union in Hk as [Hk|Hk]|];
      [done| |].
    + apply elem_of_list_to_set in Hk. rewrite (H : pc t = _) in HL.
      destruct (HL files k eq_refl Hk) as [?|Hd]; [done|]. right. simpl.
      apply list_elem_of_fmap in Hd as ([name st] & -> & Hd).
      unfold task_ok in Hokt. rewrite (H : pc t = _) in Hokt.
      pose proof (proj1 (Forall_forall _ _) Hokt _ Hd) as Hst.
      unfold delivered_ok in Hst. simpl in Hst. subst st.
      apply Hblobs. by right.
    + apply elem_of_singleton in Hk as ->. left. eexists i, _. split; [exact Ht'|].
      by split.
  - intros k Hk. unfold init in Hk. by destruct (not_defined _).
Qed.

(** X14. Whatever is in [seen] is the key of a version that a call has
    scrubbed (the call returned [true]) or the name of an object that is no
    longer in the bucket: a name is only skipped by [seen.has(f.name)] when
    its object is gone or when it is such a key. *)
Theorem seen_holds_keys_and_deleted_names e w sched k :
  k ∈ seen (check e w sched) →
  key_of_scrubbed (check e w sched) k ∨ k ∉ bucket (world (check e w sched)).
Proof. apply check_seen_gone_or_key. Qed.


(** ** No object of a scrubbed version is left *)

(** The path under which [scrubDocument] lists the objects of the version
    of [d]: that of the first row of the query for its source. *)
Definition the_path (w : stores) (d : document) : option string :=
  match select_data_source w (data_source d) with
  | src :: _ => Some (blob_path src d)
  | [] => None
  end.

(** What a unit knows of the objects under its path that the bucket [x]
    holds. *)
Record listing_complete (w x : stores) (t : task) : Prop := ListingComplete {
  lc_source : ∀ l, pc t = AwaitSource (Settled (Some l)) →
    l = select_data_source w (data_source (row t));
  lc_path : ∀ p r, pc t = AwaitFiles p r → the_path w (row t) = Some p;
  lc_files : ∀ p files, pc t = AwaitFiles p (Settled (Some files)) →
    ∀ name, name ∈ bucket x → String.prefix p name = true → name ∈ files;
  lc_listed : ∀ files, listed (pc t) files →
    ∀ p, the_path w (row t) = Some p →
    ∀ name, name ∈ bucket x → String.prefix p name = true → name ∈ files
}.

Lemma evolves_listing_complete w x x' t :
  evolves x x' → listing_complete w x t → listing_complete w x' t.
Proof.
  intros Hev [H1 H2 H3 H4].
  destruct (evolves_shrunk x x x' Hev) as (_ & _ & Hb); [done|].
  constructor; try done.
  - intros p files Hp name Hin. apply (H3 p files Hp). by apply Hb.
  - intros files Hl p Hp name Hin. apply (H4 files Hl p Hp). by apply Hb.
Qed.

Lemma move_listing_complete w t x s t' x' s' counted evs :
  same_sources w x → listing_complete w x t →
  move t x s t' x' s' counted evs → listing_complete w x' t'.
Proof.
  intros Hsame Hl Hmove.
  pose proof (evolves_listing_complete w x x' t (move_evolves _ _ _ _ _ _ _ _ Hmove) Hl)
    as [H1 H2 H3 H4].
  destruct Hl as [_ _ H3x _].
  destruct Hmove as [ok Hpc|Hpc|y l Hpc|Hpc|ok Hpc|Hpc|Hpc|dsrc l Hpc|path ok Hpc
                |path Hpc|path files Hpc Hf|path files Hpc Hf
                |k name ok Hk|k name ok Hk Hpc|k name files Hk Hpc
                |k name files Hk Hpc Hall|k name files Hk Hpc Hall
                |files Hpc|files Hpc|files Hpc|files u Hpc];
    constructor; simpl; rewrite ?Hpc in *; simpl in *; try done.
  - (* source_settled *)
    intros l Heq. destruct ok; [|done]. injection Heq as <-.
    unfold select_data_source, same_sources in *. by rewrite Hsame.
  - (* source_found *)
    intros p r [= <- <-]. unfold the_path. by rewrite <- (H1 _ eq_refl).
  - (* files_settled: the path *)
    intros p r [= <- <-]. by eapply H2.
  - (* files_settled: the files *)
    intros p files Heq name Hin Hpre. destruct ok; [|done]. injection Heq as <- <-.
    apply list_elem_of_filter. by split.
  - (* files_nothing_to_delete *)
    intros fs <- p Hp name Hin Hpre. apply (H3 path files eq_refl); [done|].
    rewrite (H2 path _ eq_refl) in Hp. by injection Hp as <-.
  - (* files_deletes_issued *)
    intros fs <- p Hp name Hin Hpre. apply (H3 path files eq_refl); [done|].
    rewrite (H2 path _ eq_refl) in Hp. by injection Hp as <-.
Qed.

Lemma check_listing_complete e w sched i t :
  tasks (check e w sched) !! i = Some t →
  listing_complete w (world (check e w sched)) t.
Proof.
  intros Ht.
  destruct (check_every_unit e w
              (λ x _ t _, same_sources w x → listing_complete w x t))
    with (sched := sched) as [_ Hall].
  - intros x s x' s' t0 E Hev _ Hj Hsame. eapply evolves_listing_complete; [done|].
    apply Hj. unfold same_sources in *. by rewrite <- (evolves_sources _ _ Hev).
  - intros x s b d _ _. unfold begun, scrubDocument_begin.
    repeat case_match; constructor; by simpl.
  - intros t0 x s t' x' s' counted evs E Hok Hq Hmove Hsame'.
    assert (same_sources w x) as Hsame.
    { unfold same_sources in *.
      by rewrite <- (evolves_sources _ _ (move_evolves _ _ _ _ _ _ _ _ Hmove)). }
    apply (move_listing_complete w t0 x s t' x' s' counted evs Hsame (Hq Hsame) Hmove).
  - by apply (Hall i t Ht (check_same_sources e w sched)).
Qed.

Definition no_object_left (w : stores) (m : machine) : Prop :=
  ∀ i t p name, tasks m !! i = Some t → pc t = Returned true →
    the_path w (row t) = Some p → String.prefix p name = true →
    name ∉ bucket (world m).

Lemma check_no_object_left e w sched :
  well_formed w → no_object_left w (check e w sched).
Proof.
  intros [Hwf Hproj].
  apply (check_invariant e w (no_object_left w)); unfold no_object_left.
  - by intros s m IH.
  - by intros m _ IH.
  - intros b d m _ _ _ IH i t p name Ht Hp. rewrite start_unit_eq in *. simpl in *.
    destruct (lookup_started _ _ _ _ Ht) as [Hi|[-> ->]]; [by apply (IH i t)|].
    revert Hp. unfold begun, scrubDocument_begin. by repeat case_match.
  - intros i t t' w' s' counted evs m [sched' ->] (_ & Hok & _) Ht Hmove IH
           j tj p name Hj Hp Hpath Hpre.
    simpl in *. destruct (lookup_moved _ _ _ _ _ Hj) as [[-> ->]|[_ Hj']].
    + pose proof (o_listed _ _ _ (check_orderly e w sched' i t Ht)) as HL.
      destruct (check_scrubbed_so_far e w sched' i t Ht) as [_ Hblobs].
      destruct (check_listing_complete e w sched' i t Ht) as [_ _ _ Hlisted].
      pose proof (check_seen_gone_or_key e w sched') as Hseen.
      pose proof (da_rows _ _ (check_deletions_accounted e w sched')) as Hrows.
      pose proof (proj1 (Forall_lookup _ _) Hok i t Ht) as Hokt.
      assert (¬ is_returned (pc t)) as Hnr
        by (intros Hr; by destruct (returned_no_move _ _ _ _ _ _ _ _ Hokt Hr Hmove)).
      unfold task_ok in Hokt.
      revert Hp Hpath. destruct Hmove; simpl; try done;
        try (intros Hp; destruct Hnr; by eexists).
      intros _ Hpath Hin. rewrite (H : pc t = _) in *.
      pose proof (Hlisted files eq_refl p Hpath name Hin Hpre) as Hfile.
      destruct (HL files name eq_refl Hfile) as [Hs|Hd].
      * destruct (Hseen name Hs) as [(j & tj & Hj' & _ & ->)|Hg]; [|done].
        pose proof (proj1 (Forall_lookup _ _) Hrows j tj Hj') as Hrow.
        apply list_elem_of_filter in Hrow as [Hdel Hrow].
        destruct (Hwf _ Hrow Hdel) as [Hds _].
        unfold the_path in Hpath.
        destruct (select_data_source w (data_source (row t))) as [|src l] eqn:Hsel;
          [done|]. injection Hpath as <-.
        assert (src ∈ data_sources w) as Hsrc.
        { assert (src ∈ src :: l) as Hx by apply list_elem_of_here.
          rewrite <- Hsel in Hx. by apply list_elem_of_filter in Hx as [_ ?]. }
        by destruct (path_is_no_key src (row t) (row tj) _ (Hproj _ Hsrc) Hds Hpre).
      * apply list_elem_of_fmap in Hd as ([n st] & -> & Hd).
        pose proof (proj1 (Forall_forall _ _) Hokt _ Hd) as Hst.
        unfold delivered_ok in Hst. simpl in Hst. subst st.
        apply (Hblobs n); [by right|done].
    + intros Hin. apply (IH j tj p name Hj' Hp Hpath Hpre).
      by apply (evolves_shrunk _ _ _ (move_evolves _ _ _ _ _ _ _ _ Hmove)).
  - intros i t p name Ht. unfold init in Ht. by destruct (not_defined _).
Qed.

(** X15. On well-formed stores, a call of [scrubDocument]
    that has returned [true] leaves no object of its version: no object whose
    name starts with the path of the version (under the first row of the query
    for its source) is in the bucket any more. *)
Theorem scrubbed_version_has_no_object_left e w sched i t p name :
  well_formed w →
  tasks (check e w sched) !! i = Some t →
  pc t = Returned true →
  the_path w (row t) = Some p →
  String.prefix p name = true →
  name ∉ bucket (world (check e w sched)).
Proof.
  intros Hwf Ht Hp Hpath Hpre.
  by apply (check_no_object_left e w sched Hwf i t p name).
Qed.


(** ** A request that was rejected *)

(** The requests a unit awaits the answer of, [f.delete()] apart. *)
Definition awaits_answer (p : progress) : Prop :=
  match p with
  | AwaitLive Waiting | AwaitSource Waiting | AwaitFiles _ Waiting
  | AwaitPurge _ Waiting => True
  | _ => False
  end.

(** In the state [m] the turn [c] rejects a request of unit [i]: the query,
    the listing or the purge it awaits, or one of its [f.delete()] that is
    still to be carried out. *)
Definition rejects (m : machine) (i : nat) (c : turn) : Prop :=
  ∃ t, tasks m !! i = Some t ∧
       ((c = Settle i false ∧ awaits_answer (pc t)) ∨
        (∃ k name, c = Settle_delete i k false ∧
                   deletes t !! k = Some (name, DelIssued))).

(** At some turn of the run [sched] a request of unit [i] was rejected. *)
Definition request_rejected (e : environment) (w : stores) (sched : list turn)
    (i : nat) : Prop :=
  ∃ before c after, sched = before ++ c :: after ∧ rejects (check e w before) i c.

Definition answer_missing (p : progress) : Prop :=
  match p with
  | AwaitLive (Settled None) | AwaitSource (Settled None)
  | AwaitFiles _ (Settled None) | AwaitPurge _ (Settled None) => True
  | _ => False
  end.

Definition delete_failed_at (t : task) : Prop :=
  ∃ k name st, deletes t !! k = Some (name, st) ∧
               (st = DelSettled false ∨ st = DelDelivered false).

(** The unit has met a rejected request. *)
Definition hit (t : task) : Prop :=
  pc t = Thrown RequestFailed ∨ answer_missing (pc t) ∨ delete_failed_at t.

Lemma begun_not_hit e s b d : ¬ hit (begun e s b d).
Proof.
  unfold hit, delete_failed_at, begun, scrubDocument_begin.
  destruct (not_defined (DUST_DATA_SOURCES_BUCKET e));
    [|destruct (not_defined (SERVICE_ACCOUNT e));
      [|destruct (bool_decide (uid d ∈ s))]]; simpl;
    by intros [Hp|[Hp|(k & name & st & Hk & _)]].
Qed.

Lemma run_chunks_new chunks : ∀ i m,
  ∃ new, tasks (run_chunks i chunks m) = tasks m ++ new ∧
         Forall (λ t, ¬ hit t) new.
Proof.
  induction chunks as [|chunk rest IH]; intros i m; simpl.
  - exists []. by rewrite app_nil_r.
  - destruct (start_chunk_spec i chunk m) as (_ & _ & _ & _ & _ & Ht & _).
    assert (Forall (λ t, ¬ hit t) (begun (env m) (seen m) i <$> chunk)) as Hnew.
    { apply Forall_fmap, Forall_forall. intros d _. apply begun_not_hit. }
    destruct (promise_all i (tasks (start_chunk i chunk m))); simpl;
      try (rewrite Ht; by eexists).
    destruct (IH (S i) (start_chunk i chunk m)) as (new & Hn & Hf).
    rewrite Hn, Ht, <- app_assoc. eexists. split; [done|]. by apply Forall_app.
Qed.

Lemma lookup_new (ts new : list task) i t :
  (ts ++ new) !! i = Some t → Forall (λ t, ¬ hit t) new → hit t →
  ts !! i = Some t.
Proof.
  intros Hi Hnew Hf. apply lookup_app_Some in Hi as [Hi|[_ Hi]]; [done|].
  by destruct (proj1 (Forall_lookup _ _) Hnew _ _ Hi).
Qed.

Lemma poll_hit m i t :
  tasks (poll m) !! i = Some t → hit t → tasks m !! i = Some t.
Proof.
  unfold poll. destruct (main m); try done.
  destruct (promise_all _ _); try done.
  destruct (run_chunks_new rest (S i0) m) as (new & -> & Hnew). intros Hi Hf.
  by eapply lookup_new.
Qed.

Lemma hit_same_deletes t t' :
  deletes t' = deletes t → delete_failed_at t' → hit t.
Proof. intros Hd Hf. right. right. unfold delete_failed_at in *. by rewrite <- Hd. Qed.

Lemma unit_turn_other m c i :
  turn_of c ≠ Some i → tasks (unit_turn m c) !! i = tasks m !! i.
Proof.
  intros Hc.
  destruct (unit_turn_move m c)
    as [->|(j & t & t' & w' & s' & counted & evs & Hj & _ & _ & ->)]; [done|].
  simpl. apply list_lookup_insert_ne. congruence.
Qed.

Lemma unit_turn_hit m c i t' :
  tasks (unit_turn m c) !! i = Some t' → hit t' →
  (∃ t, tasks m !! i = Some t ∧ hit t) ∨ rejects m i c.
Proof.
  intros Hi Hf.
  assert (tasks m !! i = Some t' → (∃ t, tasks m !! i = Some t ∧ hit t) ∨ rejects m i c)
    as Hsame by (intros ?; left; by exists t').
  destruct (decide (turn_of c = Some i)) as [Hc|Hc];
    [|rewrite unit_turn_other in Hi by done; by apply Hsame].
  destruct (decide (is_Some (tasks m !! i))) as [[t Ht]|Hn].
  2: { apply eq_None_not_Some in Hn. apply Hsame.
       destruct c; simpl in *; try done; injection Hc as ->;
       unfold settle, resume, settle_delete, resume_delete in Hi;
       rewrite Hn in Hi; simpl in Hi; congruence. }
  assert (i < length (tasks m))%nat as Hlt by (by eapply lookup_lt_Some).
  assert (∀ t0, hit t0 → deletes t0 = deletes t → pc t0 ≠ Thrown RequestFailed →
                ¬ answer_missing (pc t0) →
                (∃ t1, tasks m !! i = Some t1 ∧ hit t1) ∨ rejects m i c) as Hdel.
  { intros t0 [?|[?|?]] Hd Hp1 Hp2; try done. left. exists t. split; [done|].
    by apply (hit_same_deletes t t0). }
  destruct c as [ok| |j ok|j|j k ok|j k]; simpl in Hc; try done; injection Hc as ->;
    simpl in Hi.
  - (* the request awaited is carried out *)
    unfold settle in Hi. rewrite Ht in Hi.
    destruct (pc t) as [[|r]|[|r]|path [|r]|files|files [|r]|b|er] eqn:Hpc;
      try (by apply Hsame).
    all: destruct ok; simpl in Hi; rewrite list_lookup_insert_eq in Hi by done;
      injection Hi as <-.
    all: try (right; exists t; split; [done|]; left; by rewrite Hpc).
    all: apply (Hdel _ Hf); simpl; try done; tauto.
  - (* the unit is resumed *)
    assert (hit t → (∃ t1, tasks m !! i = Some t1 ∧ hit t1) ∨ rejects m i (Resume i))
      as Hold by (intros ?; left; by exists t).
    unfold resume, issue_purge, mark_done in Hi. rewrite Ht in Hi.
    destruct (pc t) as [[|[[|y l]|]]|[|[[|y l]|]]|path [|[files|]]|files|files [|[u|]]|b|er]
      eqn:Hpc; try (by apply Hsame).
    all: try (destruct (filter (λ name, name ∉ seen m) files) as [|n0 todo] eqn:Htodo).
    all: simpl in Hi; rewrite list_lookup_insert_eq in Hi by done; injection Hi as <-.
    all: try (apply Hold; right; left; by rewrite Hpc).
    all: try (apply (Hdel _ Hf); simpl; try done; tauto).
    + destruct Hf as [?|[?|(k & name & st & Hk & _)]]; done.
    + destruct Hf as [?|[?|(k & name & st & Hk & Hst)]]; try done. simpl in Hk.
      change ((((λ name, (name, DelIssued)) <$> n0 :: todo) : list _) !! k
              = Some (name, st)) in Hk.
      apply list_lookup_fmap_Some in Hk as (n & [= -> ->] & _). by destruct Hst.
  - (* an [f.delete()] is carried out *)
    assert (hit t → (∃ t1, tasks m !! i = Some t1 ∧ hit t1) ∨
                    rejects m i (Settle_delete i k ok))
      as Hold by (intros ?; left; by exists t).
    unfold settle_delete in Hi. rewrite Ht in Hi.
    destruct (deletes t !! k) as [[name [|ok'|ok']]|] eqn:Hk; try (by apply Hsame).
    simpl in Hi. rewrite list_lookup_insert_eq in Hi by done. injection Hi as <-.
    destruct Hf as [Hp|[Hp|(k0 & name0 & st & Hk0 & Hst)]];
      [apply Hold; by left|apply Hold; right; by left|].
    simpl in Hk0. apply list_lookup_insert_Some in Hk0 as [(<- & [= <- <-] & _)|[_ Hk0]].
    + destruct ok; [by destruct Hst|]. right. exists t. split; [done|]. right.
      by exists k, name.
    + apply Hold. right. right. by exists k0, name0, st.
  - (* the outcome of an [f.delete()] reaches the unit *)
    assert (hit t → (∃ t1, tasks m !! i = Some t1 ∧ hit t1) ∨
                    rejects m i (Resume_delete i k))
      as Hold by (intros ?; left; by exists t).
    unfold resume_delete, issue_purge in Hi. rewrite Ht in Hi.
    destruct (deletes t !! k) as [[name [|ok|ok']]|] eqn:Hk; try (by apply Hsame).
    destruct ok.
    2: { apply Hold. right. right. exists k, name, (DelSettled false). split; [done|by left]. }
    assert (∀ p, hit {| row := row t; batch := batch t; pc := p;
                        deletes := <[k := (name, DelDelivered true)]> (deletes t) |} →
                 p = pc t ∨ (∃ files, p = AwaitPurge files Waiting) → hit t) as Hback.
    { intros p [Hp|[Hp|(k0 & name0 & st & Hk0 & Hst)]] Hor; simpl in *.
      - destruct Hor as [->|[files ->]]; [by left|done].
      - destruct Hor as [->|[files ->]]; [right; by left|done].
      - apply list_lookup_insert_Some in Hk0 as [(<- & [= <- <-] & _)|[_ Hk0]];
          [by destruct Hst|]. right. right. by exists k0, name0, st. }
    apply Hold.
    destruct (pc t) as [r|r|path r|files|files r|b|er] eqn:Hpc; simpl in Hi;
      try (rewrite list_lookup_insert_eq in Hi by done; injection Hi as <-;
           apply (Hback _ Hf); by left).
    case_decide; simpl in Hi; rewrite list_lookup_insert_eq in Hi by done;
      injection Hi as <-; apply (Hback _ Hf); [right; by eexists|by left].
Qed.

Lemma step_hit e w m c i t' :
  coherent e w m → tasks (step m c) !! i = Some t' → hit t' →
  (∃ t, tasks m !! i = Some t ∧ hit t) ∨ rejects m i c.
Proof.
  intros Hco Hi Hf. destruct (turn_of c) as [j|] eqn:Hc.
  - rewrite (step_poll e w) in Hi by (done || by eexists).
    apply poll_hit in Hi; [|done]. by apply unit_turn_hit with t'.
  - left. exists t'. split; [|done].
    destruct c as [ok| | | | |]; try done; simpl in Hi.
    + unfold settle_main in Hi. by repeat case_match.
    + unfold resume_main in Hi. repeat case_match; try done.
      destruct (run_chunks_new (chunks_of l) 0 m) as (new & Hn & Hnew).
      rewrite Hn in Hi. by eapply lookup_new.
Qed.

Lemma request_rejected_snoc e w sched c i :
  request_rejected e w sched i → request_rejected e w (sched ++ [c]) i.
Proof.
  intros (before & c0 & after & -> & Hr). exists before, c0, (after ++ [c]).
  split; [by rewrite <- app_assoc|done].
Qed.

Lemma check_hit_rejected e w sched i t :
  tasks (check e w sched) !! i = Some t → hit t → request_rejected e w sched i.
Proof.
  revert i t. induction sched as [|c sched IH] using rev_ind; intros i t Hi Hf.
  - unfold check, run, init in Hi. simpl in Hi. by destruct (not_defined _).
  - rewrite check_snoc in Hi.
    destruct (step_hit e w _ c i t (check_coherent e w sched) Hi Hf)
      as [(t0 & Ht0 & Hf0)|Hr].
    + by apply request_rejected_snoc, (IH i t0).
    + by exists sched, c, [].
Qed.

Lemma check_thrown_because e w sched i t er :
  tasks (check e w sched) !! i = Some t →
  pc t = Thrown er →
  thrown_because e w (row t) er.
Proof.
  intros Ht Hp.
  destruct (check_every_unit e w (λ x _ t _, justified e w x t)) with (sched := sched)
    as [_ Hall].
  - intros x s x' s' t0 E Hev _ Hj Hsame. apply Hj. unfold same_sources in *.
    by rewrite <- (evolves_sources _ _ Hev).
  - intros x s b d _. apply begun_justified.
  - intros t0 x s t' x' s' counted evs E _. apply move_justified.
  - by apply (Hall i t Ht (check_same_sources e w sched)).
Qed.

(** X5. A call of [scrubDocument] throws only for a reason the code gives:
    a request of the call was rejected at some turn of the run (its query, its
    listing, its purge or one of its [f.delete()]), a variable of the
    environment is missing (the bucket first, the service account second), or
    the source has no row in [data_sources]; "Could not find data source"
    always names the source of the unit's own row. *)
Theorem thrown_errors_are_justified e w sched i t er :
  tasks (check e w sched) !! i = Some t →
  pc t = Thrown er →
  (er = RequestFailed ∧ request_rejected e w sched i) ∨
  (er = MissingEnv "DUST_DATA_SOURCES_BUCKET" ∧
   not_defined (DUST_DATA_SOURCES_BUCKET e) = true) ∨
  (er = MissingEnv "SERVICE_ACCOUNT" ∧
   not_defined (SERVICE_ACCOUNT e) = true ∧
   not_defined (DUST_DATA_SOURCES_BUCKET e) = false) ∨
  (er = DataSourceNotFound (data_source (row t)) ∧ no_source w (row t)).
Proof.
  intros Ht Hp.
  destruct (check_thrown_because e w sched i t er Ht Hp) as [->|Hother]; [|by right].
  left. split; [done|]. apply (check_hit_rejected e w sched i t Ht). by left.
Qed.


(** ** The one update of the set [seen] *)

Lemma unit_turn_seen m c :
  seen (unit_turn m c) ≠ seen m →
  ∃ i t files u, c = Resume i ∧ tasks m !! i = Some t ∧
                 pc t = AwaitPurge files (Settled (Some u)).
Proof.
  destruct c as [ok| |i ok|i|i k ok|i k]; simpl; try done.
  - unfold settle. by repeat case_match.
  - unfold resume, issue_purge. destruct (tasks m !! i) as [t|] eqn:Ht; [|done].
    destruct (pc t) as [[|[[|y l]|]]|[|[[|y l]|]]|path [|[files|]]|files|files [|[u|]]|b|er]
      eqn:Hpc; try done.
    + by destruct (filter _ files).
    + intros _. by exists i, t, files, u.
  - unfold settle_delete. by repeat case_match.
  - unfold resume_delete, issue_purge. by repeat case_match.
Qed.

Lemma check_two e w sched c1 c2 :
  check e w (sched ++ [c1; c2]) = step (step (check e w sched) c1) c2.
Proof. unfold check, run. by rewrite fold_left_app. Qed.

(** A rejected request makes the unit throw once it is resumed, and leaves
    [seen] as it was. *)
Lemma rejected_request_throws m i t :
  tasks m !! i = Some t → awaits_answer (pc t) →
  seen (step (step m (Settle i false)) (Resume i)) = seen m ∧
  ∃ t', tasks (step (step m (Settle i false)) (Resume i)) !! i = Some t' ∧
        pc t' = Thrown RequestFailed.
Proof.
  intros Ht Hp. simpl.
  assert (i < length (tasks m))%nat as Hlt by (by eapply lookup_lt_Some).
  destruct (poll_frame (resume i (settle i false m))) as (_ & _ & -> & _).
  assert (∃ p, answer_missing p ∧
               settle i false m = with_task i (with_pc p t) m) as (p & Hmiss & ->).
  { unfold settle. rewrite Ht.
    destruct (pc t) as [[|r]|[|r]|path [|r]|files|files [|r]|b|er]; try done;
      simpl; eexists; (split; [|reflexivity]); exact I. }
  assert (resume i (with_task i (with_pc p t) m) =
          with_task i (with_pc (Thrown RequestFailed) (with_pc p t))
            (with_task i (with_pc p t) m)) as ->.
  { unfold resume. simpl. rewrite list_lookup_insert_eq by done. simpl.
    destruct p as [[|[x|]]|[|[x|]]|path [|[x|]]|files|files [|[x|]]|b|er];
      simpl in Hmiss; done. }
  split; [done|]. eexists. split.
  - apply poll_tasks. simpl. apply list_lookup_insert_eq. by rewrite length_insert.
  - done.
Qed.

Lemma rejected_delete_throws m i t k name files :
  tasks m !! i = Some t → pc t = AwaitDeletes files →
  deletes t !! k = Some (name, DelIssued) →
  seen (step (step m (Settle_delete i k false)) (Resume_delete i k)) = seen m ∧
  ∃ t', tasks (step (step m (Settle_delete i k false)) (Resume_delete i k)) !! i
          = Some t' ∧
        pc t' = Thrown RequestFailed.
Proof.
  intros Ht Hp Hk. simpl.
  assert (i < length (tasks m))%nat as Hlt by (by eapply lookup_lt_Some).
  assert (k < length (deletes t))%nat as Hlk by (by eapply lookup_lt_Some).
  destruct (poll_frame (resume_delete i k (settle_delete i k false m)))
    as (_ & _ & -> & _).
  unfold settle_delete. rewrite Ht, Hk.
  unfold resume_delete. simpl. rewrite list_lookup_insert_eq by done. simpl.
  rewrite list_lookup_insert_eq by done. rewrite Hp. simpl.
  split; [done|]. eexists. split.
  - apply poll_tasks. simpl. apply list_lookup_insert_eq. by rewrite length_insert.
  - done.
Qed.

(** C10, as the check does it.  The set [seen] is updated at one place only:
    when a unit whose purge has been carried out is resumed, it adds the names
    of the files it listed and the key of its version, and returns [true]; no
    other turn changes [seen].  So a unit that has not returned [true],
    whatever request of it failed, has added nothing to [seen]; and when a
    request of a unit is rejected (its query, its listing, its purge or one of
    its [f.delete()]), [seen] stays as it was and the unit throws once it is
    resumed.  But a unit that throws rejects the check: no unit is started
    any more, and the rows of the later chunks, duplicates of the failed one
    or not, are not processed in that run. *)
Theorem seen_updated_after_purge e w sched :
  (∀ i t files u,
     tasks (check e w sched) !! i = Some t →
     pc t = AwaitPurge files (Settled (Some u)) →
     seen (check e w (sched ++ [Resume i])) =
       seen (check e w sched) ∪ list_to_set files ∪ {[ uid (row t) ]} ∧
     ∃ t', tasks (check e w (sched ++ [Resume i])) !! i = Some t' ∧
           pc t' = Returned true) ∧
  (∀ c, seen (check e w (sched ++ [c])) ≠ seen (check e w sched) →
        ∃ i t files u,
          c = Resume i ∧ tasks (check e w sched) !! i = Some t ∧
          pc t = AwaitPurge files (Settled (Some u))) ∧
  (∀ i t, tasks (check e w sched) !! i = Some t →
          pc t ≠ Returned true →
          ∀ key, (Unit i, Seen_add key) ∉ trace (check e w sched)) ∧
  (∀ i t, tasks (check e w sched) !! i = Some t →
          awaits_answer (pc t) →
          seen (check e w (sched ++ [Settle i false; Resume i]))
            = seen (check e w sched) ∧
          ∃ t', tasks (check e w (sched ++ [Settle i false; Resume i])) !! i = Some t' ∧
                pc t' = Thrown RequestFailed) ∧
  (∀ i t k name files,
     tasks (check e w sched) !! i = Some t →
     pc t = AwaitDeletes files →
     deletes t !! k = Some (name, DelIssued) →
     seen (check e w (sched ++ [Settle_delete i k false; Resume_delete i k]))
       = seen (check e w sched) ∧
     ∃ t', tasks (check e w (sched ++ [Settle_delete i k false; Resume_delete i k])) !! i
             = Some t' ∧
           pc t' = Thrown RequestFailed) ∧
  (∀ i t er, tasks (check e w sched) !! i = Some t →
             pc t = Thrown er →
             ∃ er', aborted e w sched er').
Proof.
  split_and!.
  - intros i t files u Ht Hpc. rewrite check_snoc. set (m := check e w sched) in *.
    simpl. destruct (poll_frame (resume i m)) as (_ & _ & -> & _).
    assert (resume i m = mark_done i files t m) as Hr
      by (unfold resume; by rewrite Ht, Hpc).
    rewrite Hr. split; [done|].
    exists (with_pc (Returned true) t). split; [|done].
    apply poll_tasks. simpl. apply list_lookup_insert_eq. by eapply lookup_lt_Some.
  - intros c. rewrite check_snoc. set (m := check e w sched).
    destruct (turn_of c) as [i|] eqn:Hc.
    + rewrite (step_poll e w) by (apply check_coherent || by eexists).
      destruct (poll_frame (unit_turn m c)) as (_ & _ & -> & _).
      apply unit_turn_seen.
    + intros Hne. destruct Hne. destruct c as [ok| | | | |]; try done; simpl.
      * unfold settle_main. by repeat case_match.
      * unfold resume_main. repeat case_match; try done. apply run_chunks_frame.
  - intros i t Ht Hpc key Hin. apply Hpc.
    apply (check_adds_when_done e w sched i t Ht), Exists_exists.
    exists (Seen_add key). split; [by apply elem_of_events_of|done].
  - intros i t Ht Hp. rewrite check_two. by apply (rejected_request_throws _ i t).
  - intros i t k name files Ht Hp Hk. rewrite check_two.
    by apply (rejected_delete_throws _ i t k name files).
  - intros i t er Ht Hpc.
    destruct (thrown_rejects e w (check e w sched) t) as [er' Hrej].
    + apply check_coherent.
    + by eapply list_elem_of_lookup_2.
    + by exists er.
    + exists er'. by apply rejected_aborted.
Qed.


End Scrub.

(** * The tables of a tables-query action

    [hasErrorActionTablesQuery] and the two updates of the configuration in
    [ActionTablesQuery]: the one [onSave] passes to [updateAction] and the one
    [onDelete] passes.  The configuration is a JavaScript object used as a
    dictionary from table keys to tables. *)
Module TablesQuery.

(** [dataSource], as far as [onSave] reads it. *)
Record data_source := DataSourceType {
  name : string;
  connectorId : option string
}.

Section Tables.

(** A table of the configuration, its field [dataSourceId], and [tableKey]
    of [@app/lib/client/tables_query]. *)
Variable table : Type.
Variable dataSourceId : table → string.
Variable tableKey : table → string.

(** [AssistantBuilderActionConfiguration], by its [type]. *)
Inductive action :=
| TABLES_QUERY (configuration : gmap string table)
| OTHER.

Definition hasErrorActionTablesQuery (a : action) : option string :=
  match a with
  | TABLES_QUERY configuration =>
      if bool_decide (0 < size configuration)%nat then None
      else Some "Please select one table."
  | OTHER => Some "Please select one table."
  end.

(** [Object.keys(newTables).filter((k) => newTables[k].dataSourceId ===
    dataSource.name)] *)
Definition keys_of_source (dataSource : data_source) (newTables : gmap string table)
    : list string :=
  (filter (λ kv, dataSourceId kv.2 = name dataSource) (map_to_list newTables)).*1.

(** [newTables[k] = t] on an object made by an object literal.  The
    assignment adds or replaces the own property [k], with one exception: when
    [k] is [__proto__] and the object has no own property of that name, the
    assignment reaches the setter of [Object.prototype], which replaces the
    prototype of the object and adds no own property (the tables are plain
    objects, as they come from JSON).  The map holds the own properties, which
    is all that [Object.keys], the spread and [delete] look at. *)
Definition assign (k : string) (t : table) (newTables : gmap string table)
    : gmap string table :=
  if decide (k = "__proto__") then
    match newTables !! k with
    | Some _ => <[k := t]> newTables
    | None => newTables
    end
  else <[k := t]> newTables.

(** The first half of the update: the copy of the previous configuration,
    without the tables of the data source when it has a connector. *)
Definition kept (dataSource : data_source) (previousAction : gmap string table)
    : gmap string table :=
  let newTables := previousAction in
  if not_defined (connectorId dataSource) then newTables
  else foldr delete newTables (keys_of_source dataSource newTables).

(** The function that [onSave] passes to [updateAction]. *)
Definition onSave (tables : list table) (dataSource : data_source)
    (previousAction : gmap string table) : gmap string table :=
  let newTables := kept dataSource previousAction in
  foldl (λ newTables t, assign (tableKey t) t newTables) newTables tables.

(** The function that [onDelete] passes to [updateAction]. *)
Definition onDelete (key : string) (previousAction : gmap string table)
    : gmap string table :=
  delete key previousAction.

(** The table given last under the key [k]. *)
Definition latest (k : string) (tables : list table) : option table :=
  last (filter (λ t, tableKey t = k) tables).

Lemma elem_of_keys_of_source dataSource newTables k :
  k ∈ keys_of_source dataSource newTables ↔
  ∃ t, newTables !! k = Some t ∧ dataSourceId t = name dataSource.
Proof.
  unfold keys_of_source. rewrite list_elem_of_fmap. split.
  - intros ([k' t] & -> & Hin). apply list_elem_of_filter in Hin as [Hid Hin].
    apply elem_of_map_to_list in Hin. by exists t.
  - intros (t & Hk & Hid). exists (k, t). split; [done|].
    apply list_elem_of_filter. split; [done|]. by apply elem_of_map_to_list.
Qed.

Lemma latest_snoc k tables t :
  latest k (tables ++ [t]) = if decide (tableKey t = k) then Some t else latest k tables.
Proof.
  unfold latest. rewrite filter_app. case_decide as Hk.
  - rewrite filter_cons_True by done. simpl. apply last_snoc.
  - rewrite filter_cons_False by done. simpl. by rewrite app_nil_r.
Qed.

Lemma latest_Some k tables t : latest k tables = Some t → t ∈ tables ∧ tableKey t = k.
Proof.
  unfold latest. intros Hl. apply last_Some in Hl as [l' Hl].
  assert (t ∈ filter (λ t, tableKey t = k) tables) as Hin
    by (rewrite Hl; apply elem_of_app; right; apply list_elem_of_here).
  apply list_elem_of_filter in Hin as [? ?]. done.
Qed.

(** What [kept] leaves under a key. *)
Definition surviving (dataSource : data_source) (previousAction : gmap string table)
    (k : string) : option table :=
  match previousAction !! k with
  | Some t =>
      if not_defined (connectorId dataSource) then Some t
      else if decide (dataSourceId t = name dataSource) then None else Some t
  | None => None
  end.

Lemma kept_lookup dataSource previousAction k :
  kept dataSource previousAction !! k = surviving dataSource previousAction k.
Proof.
  unfold kept, surviving. destruct (not_defined (connectorId dataSource)).
  - by destruct (previousAction !! k).
  - destruct (previousAction !! k) as [t|] eqn:Hk.
    + case_decide as Hid.
      * apply lookup_foldr_delete, elem_of_keys_of_source. by exists t.
      * rewrite lookup_foldr_delete_not_elem_of; [done|].
        intros (t' & Hk' & ?)%elem_of_keys_of_source. congruence.
    + destruct (decide (k ∈ keys_of_source dataSource previousAction)).
      * by apply lookup_foldr_delete.
      * by rewrite lookup_foldr_delete_not_elem_of.
Qed.

Lemma assign_lookup k t newTables k' :
  assign k t newTables !! k' =
  if decide (k = k') then
    if decide (k = "__proto__") then newTables !! k ≫= (λ _, Some t) else Some t
  else newTables !! k'.
Proof.
  unfold assign. destruct (decide (k = k')) as [<-|Hne].
  - case_decide; [|by rewrite lookup_insert_eq].
    destruct (newTables !! k) eqn:Hk; simpl; [by rewrite lookup_insert_eq|done].
  - case_decide; [|by rewrite lookup_insert_ne].
    destruct (newTables !! k); [by rewrite lookup_insert_ne|done].
Qed.

Lemma onSave_lookup_key tables dataSource previousAction k :
  onSave tables dataSource previousAction !! k =
  match latest k tables, surviving dataSource previousAction k with
  | Some t, None => if decide (k = "__proto__") then None else Some t
  | Some t, Some _ => Some t
  | None, previous => previous
  end.
Proof.
  unfold onSave. induction tables as [|t tables IH] using rev_ind.
  - simpl. apply kept_lookup.
  - rewrite foldl_snoc, latest_snoc, assign_lookup.
    destruct (decide (tableKey t = k)) as [<-|Hne]; [|done]. rewrite IH.
    destruct (latest (tableKey t) tables),
      (surviving dataSource previousAction (tableKey t)); simpl;
      by repeat case_decide.
Qed.

(** X16. What [onSave] leaves under a key.  Under a key other than
    [__proto__]: the table given last under that key, if one is given;
    otherwise the table that was there, unless the data source has a connector
    and the table belongs to it.  Under [__proto__] a table given is kept only
    when the previous configuration had, and kept, an own property of that
    name: otherwise the assignment sets the prototype and the object gets no
    such key. *)
Theorem onSave_lookup tables dataSource previousAction k :
  onSave tables dataSource previousAction !! k =
  match latest k tables, surviving dataSource previousAction k with
  | Some t, None => if decide (k = "__proto__") then None else Some t
  | Some t, Some _ => Some t
  | None, previous => previous
  end.
Proof. apply onSave_lookup_key. Qed.

(** X17. For a managed data source [onSave] replaces the selection: the
    tables of that source in the new configuration are among the tables
    given, whatever was selected before. *)
Theorem onSave_replaces_managed_selection tables dataSource previousAction k t :
  not_defined (connectorId dataSource) = false →
  onSave tables dataSource previousAction !! k = Some t →
  dataSourceId t = name dataSource →
  t ∈ tables.
Proof.
  intros Hc Hk Hid. rewrite onSave_lookup_key in Hk. unfold surviving in Hk.
  rewrite Hc in Hk.
  destruct (latest k tables) as [t'|] eqn:Hl.
  - assert (t' = t) as ->.
    { destruct (previousAction !! k) as [t0|]; repeat case_decide; congruence. }
    by apply latest_Some in Hl as [? _].
  - destruct (previousAction !! k) as [t'|]; [|done].
    case_decide; [done|]. congruence.
Qed.

Lemma latest_is_Some k tables t :
  t ∈ tables → tableKey t = k → is_Some (latest k tables).
Proof.
  intros Hin Hk. unfold latest.
  destruct (last (filter (λ t, tableKey t = k) tables)) eqn:Hl; [by eexists|].
  apply last_None in Hl.
  assert (t ∈ filter (λ t, tableKey t = k) tables) as Hf
    by (by apply list_elem_of_filter).
  rewrite Hl in Hf. by apply elem_of_nil in Hf.
Qed.

(** X18. After [onSave] the action has no error exactly when a table of the
    previous configuration is kept or a table is given under a key other than
    [__proto__].  So saving tables removes the error, unless all of them have
    the key [__proto__] and nothing was kept: the object then has no key. *)
Theorem onSave_error_iff tables dataSource previousAction :
  hasErrorActionTablesQuery (TABLES_QUERY (onSave tables dataSource previousAction))
  = None ↔
  (∃ k, is_Some (surviving dataSource previousAction k)) ∨
  (∃ t, t ∈ tables ∧ tableKey t ≠ "__proto__").
Proof.
  simpl. set (m := onSave tables dataSource previousAction).
  assert ((0 < size m)%nat ↔ ∃ k, is_Some (m !! k)) as Hsize.
  { split.
    - intros Hs. assert (m ≠ ∅) as Hne by (apply map_size_non_empty_iff; lia).
      apply map_choose in Hne as (k & t & Hk). exists k. by eexists.
    - intros (k & t & Hk). assert (size m ≠ 0%nat); [|lia].
      apply map_size_non_empty_iff. intros Hm. by rewrite Hm, lookup_empty in Hk. }
  assert ((∃ k, is_Some (m !! k)) ↔
          (∃ k, is_Some (surviving dataSource previousAction k)) ∨
          (∃ t, t ∈ tables ∧ tableKey t ≠ "__proto__")) as Hkeys.
  { unfold m. split.
    - intros (k & Hk). rewrite onSave_lookup_key in Hk.
      destruct (latest k tables) as [t|] eqn:Hl;
        [|left; by exists k].
      destruct (surviving dataSource previousAction k) as [t0|] eqn:Hs;
        [left; exists k; by rewrite Hs|].
      case_decide as Hp; [by destruct Hk|].
      right. exists t. apply latest_Some in Hl as [? ->]. done.
    - intros [(k & Hk)|(t & Hin & Hp)].
      + exists k. rewrite onSave_lookup_key. destruct Hk as [t0 ->].
        by destruct (latest k tables).
      + exists (tableKey t). rewrite onSave_lookup_key.
        destruct (latest_is_Some (tableKey t) tables t Hin eq_refl) as [t' ->].
        destruct (surviving _ _ _); [done|]. by rewrite decide_False. }
  case_bool_decide as Hs.
  - split; [intros _|done]. by apply Hkeys, Hsize.
  - split; [done|]. intros H. destruct Hs. by apply Hsize, Hkeys.
Qed.

(** X19. After [onDelete] the action has an error exactly when no table
    other than the deleted one was selected. *)
Theorem onDelete_error_iff key previousAction :
  hasErrorActionTablesQuery (TABLES_QUERY (onDelete key previousAction)) = None ↔
  ∃ k, k ≠ key ∧ is_Some (previousAction !! k).
Proof.
  simpl. unfold onDelete. case_bool_decide as Hs.
  - split; [intros _|done].
    assert (delete key previousAction ≠ ∅) as Hne
      by (apply map_size_non_empty_iff; lia).
    apply map_choose in Hne as (k & t & Hk). apply lookup_delete_Some in Hk as [? ?].
    by exists k.
  - split; [done|]. intros (k & Hne & [t Hk]). destruct Hs.
    assert (size (delete key previousAction) ≠ 0%nat); [|lia].
    apply map_size_non_empty_iff. intros Hm.
    assert (delete key previousAction !! k = Some t) as Hd
      by (by apply lookup_delete_Some).
    rewrite Hm in Hd. by rewrite lookup_empty in Hd.
Qed.

End Tables.

End TablesQuery.

(** * The page that creates a dataset

    The state of [NewDatasetView] and its two handlers, [onUpdate] and
    [handleSubmit].  The page reacts to three things: the editor calls
    [onUpdate], the user clicks the button [Create], and the request sent by
    [handleSubmit] is answered.  The button passes a click on to
    [handleSubmit] only while it is not disabled. *)
Module NewDataset.

Section View.

Variable DatasetType : Type.

(** The five state variables of the component, the bodies of the requests
    sent so far (the latest first), the calls of [handleSubmit] that await
    their answer, and the calls of [Router.push] made by the effect. *)
Record view := View {
  disable : bool;
  loading : bool;
  dataset : option DatasetType;
  editorDirty : bool;
  isFinishedEditing : bool;
  posted : list (option DatasetType);
  awaiting : nat;
  pushed : nat
}.

(** The state of the first render. *)
Definition mounted : view :=
  View true false None false false [] 0 0.

Definition onUpdate (initializing valid : bool)
    (currentDatasetInEditor : DatasetType) (v : view) : view :=
  View (negb valid) (loading v)
       (if valid then Some currentDatasetInEditor else dataset v)
       (if initializing then editorDirty v else true)
       (isFinishedEditing v) (posted v) (awaiting v) (pushed v).

(** [handleSubmit] up to its first [await]: the request is sent with the
    dataset of the state as its body. *)
Definition handleSubmit (v : view) : view :=
  View (disable v) true (dataset v) (editorDirty v) (isFinishedEditing v)
       (dataset v :: posted v) (S (awaiting v)) (pushed v).

(** [disabled={disable || loading}] *)
Definition disabled (v : view) : bool := disable v || loading v.

Definition click (v : view) : view :=
  if disabled v then v else handleSubmit v.

(** The rest of [handleSubmit], when [fetch] and [res.json()] have both
    resolved, and the effect on [isFinishedEditing], which runs when that
    variable has changed. *)
Definition answered (ok : bool) (v : view) : view :=
  match awaiting v with
  | O => v
  | S n =>
      if ok then
        View (disable v) (loading v) (dataset v) false true (posted v) n
             (if isFinishedEditing v then pushed v else S (pushed v))
      else
        View (disable v) (loading v) (dataset v) (editorDirty v)
             (isFinishedEditing v) (posted v) n (pushed v)
  end.

Inductive happening :=
| Update (initializing valid : bool) (currentDatasetInEditor : DatasetType)
| Click
| Answered (ok : bool).

Definition react (v : view) (h : happening) : view :=
  match h with
  | Update initializing valid d => onUpdate initializing valid d v
  | Click => click v
  | Answered ok => answered ok v
  end.

Definition after (hs : list happening) : view := fold_left react hs mounted.

(** What the editor holds: the arguments of the latest call of [onUpdate]. *)
Fixpoint editor (hs : list happening) : option (bool * DatasetType) :=
  match hs with
  | [] => None
  | h :: hs' =>
      match editor hs' with
      | Some x => Some x
      | None => match h with Update _ valid d => Some (valid, d) | _ => None end
      end
  end.

Lemma after_snoc hs h : after (hs ++ [h]) = react (after hs) h.
Proof. unfold after. by rewrite fold_left_app. Qed.

Lemma editor_snoc hs h :
  editor (hs ++ [h]) =
  match h with Update _ valid d => Some (valid, d) | _ => editor hs end.
Proof.
  induction hs as [|h0 hs IH]; simpl.
  - by destruct h.
  - rewrite IH. destruct h; try done.
Qed.

Lemma editor_latest hs valid d :
  editor hs = Some (valid, d) →
  ∃ i hs1 hs2,
    hs = hs1 ++ Update i valid d :: hs2 ∧
    Forall (λ h, match h with Update _ _ _ => False | _ => True end) hs2.
Proof.
  induction hs as [|h hs IH] using rev_ind; [done|].
  rewrite editor_snoc. destruct h as [i v d'| |ok].
  - intros [= -> ->]. exists i, hs, []. by split.
  - intros (i & hs1 & hs2 & -> & Hall)%IH. exists i, hs1, (hs2 ++ [Click]).
    split; [by rewrite <- app_assoc|]. apply Forall_app. by split; [|repeat constructor].
  - intros (i & hs1 & hs2 & -> & Hall)%IH. exists i, hs1, (hs2 ++ [Answered ok]).
    split; [by rewrite <- app_assoc|]. apply Forall_app. by split; [|repeat constructor].
Qed.

(** The button is enabled only when the editor holds a valid dataset, and
    then the state holds that dataset; a request once sent, [loading] stays. *)
Record sound (hs : list happening) (v : view) : Prop := Sound {
  s_enabled : disable v = false →
    ∃ d, editor hs = Some (true, d) ∧ dataset v = Some d;
  s_loading : posted v ≠ [] → loading v = true;
  s_once : (length (posted v) ≤ 1)%nat;
  s_posted : ∀ b, b ∈ posted v → ∃ d, b = Some d;
  s_finished : pushed v = (if isFinishedEditing v then 1 else 0)%nat;
  s_awaiting : (awaiting v ≤ length (posted v))%nat;
  s_pushed : pushed v ≠ 0%nat → posted v ≠ []
}.

Lemma sound_same hs h v :
  match h with Update _ _ _ => False | _ => True end →
  sound hs v → sound (hs ++ [h]) v.
Proof.
  intros Hh [H1 H2 H3 H4 H5 H6 H7]. constructor; try done.
  rewrite editor_snoc. by destruct h.
Qed.

Lemma after_sound hs : sound hs (after hs).
Proof.
  induction hs as [|h hs IH] using rev_ind.
  - constructor; simpl; try done; try lia.
    intros b Hb. by apply elem_of_nil in Hb.
  - rewrite after_snoc. destruct h as [i valid d| |ok]; simpl.
    + destruct IH as [H1 H2 H3 H4 H5 H6 H7]. constructor; simpl; try done.
      rewrite editor_snoc. destruct valid; [|done]. intros _. by exists d.
    + unfold click, disabled.
      destruct (disable (after hs)) eqn:Hd; simpl; [by apply sound_same|].
      destruct (loading (after hs)) eqn:Hl; simpl; [by apply sound_same|].
      apply (sound_same hs Click) in IH; [|done].
      destruct IH as [H1 H2 H3 H4 H5 H6 H7].
      assert (posted (after hs) = []) as Hp.
      { destruct (posted (after hs)); [done|].
        specialize (H2 ltac:(done)). congruence. }
      constructor; simpl; try done.
      * rewrite Hp. simpl. lia.
      * intros b Hb. apply elem_of_cons in Hb as [->|Hb]; [|by apply H4].
        destruct (H1 Hd) as (d & _ & ->). by exists d.
      * lia.
    + unfold answered. apply (sound_same hs (Answered ok)) in IH; [|done].
      destruct (awaiting (after hs)) as [|n] eqn:Ha; [done|].
      destruct IH as [H1 H2 H3 H4 H5 H6 H7].
      assert (posted (after hs) ≠ []) as Hp.
      { intros Hp. rewrite Hp in H6. simpl in H6. lia. }
      destruct ok; constructor; simpl; try done; try lia.
      rewrite H5. by destruct (isFinishedEditing (after hs)).
Qed.

(** X20. The page sends at most one request: once [Create] has passed a
    click on, the button is disabled for good. *)
Theorem at_most_one_request hs :
  (length (posted (after hs)) ≤ 1)%nat ∧
  (posted (after hs) ≠ [] → disabled (after hs) = true).
Proof.
  destruct (after_sound hs) as [H1 H2 H3 H4 H5 H6 H7]. split; [done|].
  intros Hp. unfold disabled. rewrite (H2 Hp). by destruct (disable _).
Qed.

(** X21. A click that sends a request sends what the editor holds, and that
    is a valid dataset: the body is the dataset of the latest call of
    [onUpdate], and that call had [valid] set. *)
Theorem request_carries_the_valid_dataset hs :
  posted (after (hs ++ [Click])) ≠ posted (after hs) →
  ∃ i d hs1 hs2,
    hs = hs1 ++ Update i true d :: hs2 ∧
    Forall (λ h, match h with Update _ _ _ => False | _ => True end) hs2 ∧
    posted (after (hs ++ [Click])) = [Some d].
Proof.
  rewrite after_snoc. simpl. unfold click, disabled.
  destruct (disable (after hs)) eqn:Hd; simpl; [done|].
  destruct (loading (after hs)) eqn:Hl; simpl; [done|]. intros _.
  destruct (after_sound hs) as [H1 H2 _ _ _ _ _].
  destruct (H1 Hd) as (d & Hed & ->).
  assert (posted (after hs) = []) as ->.
  { destruct (posted (after hs)); [done|]. specialize (H2 ltac:(done)). congruence. }
  destruct (editor_latest _ _ _ Hed) as (i & hs1 & hs2 & ? & ?).
  by exists i, d, hs1, hs2.
Qed.

(** X22. The page is left at most once, and only after a request with a
    dataset has been sent and answered. *)
Theorem pushed_once_after_the_request hs :
  (pushed (after hs) ≤ 1)%nat ∧
  (pushed (after hs) ≠ 0%nat →
   isFinishedEditing (after hs) = true ∧ ∃ d, posted (after hs) = [Some d]).
Proof.
  destruct (after_sound hs) as [H1 H2 H3 H4 H5 H6 H7]. split.
  - rewrite H5. destruct (isFinishedEditing _); lia.
  - intros Hp. split.
    + rewrite H5 in Hp. by destruct (isFinishedEditing _).
    + specialize (H7 Hp). destruct (posted (after hs)) as [|b [|b' l]]; [done| |simpl in H3; lia].
      destruct (H4 b) as [d ->]; [apply list_elem_of_here|]. by exists d.
Qed.

End View.

End NewDataset.

(** * Runs on concrete stores *)

Module Example.

(** A stand-in for the blake3 digest of the document id. *)
Definition hex_of (s : string) : string := "H" +:+ s.

Definition env_ok : environment :=
  Environment (Some "postgres://core") (Some "service-account.json") (Some "data-sources").

Definition row_a : document := Document 1 100 7 "doc-42" "h1" "deleted".
Definition row_b : document := Document 2 150 7 "doc-42" "h1" "active".
Definition source_s : data_source_row := DataSource 7 1 "i1".

(** Source S, document "doc-42": row A deleted, row B live with the same
    hash and created later; two blobs under the prefix of the version. *)
Definition stores_live : stores :=
  Stores [row_a; row_b] [source_s] ["1/i1/Hdoc-42/h1/content"; "1/i1/Hdoc-42/h1/meta"].

Definition sched_live : list turn :=
  [Settle_main true; Resume_main; Settle 0 true; Resume 0].

(** Row A alone, deleted, with no live version: the unit goes all the way. *)
Definition stores_one : stores :=
  Stores [row_a] [source_s] ["1/i1/Hdoc-42/h1/content"; "1/i1/Hdoc-42/h1/meta"].

(** The turns of one unit up to the purge it issues. *)
Definition sched_to_purge : list turn :=
  [Settle_main true; Resume_main;
   Settle 0 true; Resume 0; Settle 0 true; Resume 0; Settle 0 true; Resume 0;
   Settle_delete 0 0 true; Settle_delete 0 1 true;
   Resume_delete 0 0; Resume_delete 0 1].

(** The same turns, then the purge carried out and the unit resumed. *)
Definition sched_one : list turn :=
  sched_to_purge ++ [Settle 0 true; Resume 0].

Definition env_no_database : environment :=
  Environment None (Some "service-account.json") (Some "data-sources").

Definition env_no_account : environment :=
  Environment (Some "postgres://core") None (Some "data-sources").

(** Row B alone, live: no deleted row. *)
Definition stores_none : stores :=
  Stores [row_b] [source_s] ["1/i1/Hdoc-42/h1/content"; "1/i1/Hdoc-42/h1/meta"].

Definition sched_fetch : list turn := [Settle_main true; Resume_main].

(** Thirty-three deleted rows, one document each: two chunks.  The first row
    belongs to source [ds0]; the bucket holds one blob, of the first row. *)
Definition many_rows (ds0 : Z) : list document :=
  Document 0 100 ds0 "doc-0" "h1" "deleted" ::
  ((λ n : nat, Document (Z.of_nat n) 100 7 ("doc-" +:+ pretty n) "h1" "deleted")
     <$> seq 1 32).

Definition stores_many (ds0 : Z) : stores :=
  Stores (many_rows ds0) [source_s] ["1/i1/Hdoc-0/h1/content"].

(** The first unit up to its [f.delete()], which fails. *)
Definition sched_delete_fails : list turn :=
  [Settle_main true; Resume_main;
   Settle 0 true; Resume 0; Settle 0 true; Resume 0; Settle 0 true; Resume 0;
   Settle_delete 0 0 false; Resume_delete 0 0].

(** The first unit up to the answer of the query for its source. *)
Definition sched_source : list turn :=
  [Settle_main true; Resume_main;
   Settle 0 true; Resume 0; Settle 0 true; Resume 0].

(** The other units of the first chunk, each run to its end. *)
Definition sched_siblings : list turn :=
  flat_map (λ i, [Settle i true; Resume i; Settle i true; Resume i;
                  Settle i true; Resume i; Settle i true; Resume i]) (seq 1 31).

Definition finished (t : task) : bool :=
  match pc t with Returned _ | Thrown _ => true | _ => false end.

(** A second deleted row of the version of row A. *)
Definition row_a2 : document := Document 3 120 7 "doc-42" "h1" "deleted".


Definition stores_twice_live : stores :=
  Stores [row_a; row_a2; row_b] [source_s]
    ["1/i1/Hdoc-42/h1/content"; "1/i1/Hdoc-42/h1/meta"].


Definition sched_twice_live : list turn :=
  [Settle_main true; Resume_main;
   Settle 0 true; Resume 0; Settle 1 true; Resume 1].

(** Thirty-three deleted rows, the last of the version of the first. *)
Definition rows_with_late_duplicate : list document :=
  Document 0 100 7 "doc-0" "h1" "deleted" ::
  ((λ n : nat, Document (Z.of_nat n) 100 7 ("doc-" +:+ pretty n) "h1" "deleted")
     <$> seq 1 31) ++
  [Document 32 150 7 "doc-0" "h1" "deleted"].

Definition stores_late_duplicate : stores :=
  Stores rows_with_late_duplicate [source_s] ["1/i1/Hdoc-0/h1/content"].

(** The first unit to its end, then the others of the first chunk. *)
Definition sched_late_duplicate : list turn :=
  [Settle_main true; Resume_main;
   Settle 0 true; Resume 0; Settle 0 true; Resume 0; Settle 0 true; Resume 0;
   Settle_delete 0 0 true; Resume_delete 0 0; Settle 0 true; Resume 0]
  ++ sched_siblings.







(** Tables named by their source and their id. *)
Definition table_key (t : string * string) : string := t.1 +:+ "/" +:+ t.2.

Definition notion : TablesQuery.data_source :=
  TablesQuery.DataSourceType "notion" (Some "connector-1").

Definition selection : gmap string (string * string) :=
  {[ "notion/pages" := ("notion", "pages"); "folder/sales" := ("folder", "sales") ]}.

End Example.

Lemma live_version_skips_unit_witness :
  Forall is_query_more_recent
    (events_of 0 (trace (check Example.hex_of Example.env_ok Example.stores_live
                           Example.sched_live))) ∧
  deletes (Task Example.row_a 0 (Returned false) []) = [] ∧
  skipping (pc (Task Example.row_a 0 (Returned false) [])) ∧
  (pc (Task Example.row_a 0 (Returned false) []) = AwaitLive Waiting →
   ∃ t', tasks (check Example.hex_of Example.env_ok Example.stores_live
                  (Example.sched_live ++ [Settle 0 true; Resume 0])) !! 0%nat = Some t' ∧
         pc t' = Returned false).
Proof.
  apply (live_version_skips_unit Example.hex_of Example.env_ok Example.stores_live
           Example.sched_live 0 (Task Example.row_a 0 (Returned false) [])).
  - vm_compute. reflexivity.
  - exists Example.row_b. split.
    + apply list_elem_of_further, list_elem_of_here.
    + vm_compute. by split_and!.
Defined.

Lemma deletes_before_purge_witness :
  let m := check Example.hex_of Example.env_ok Example.stores_one Example.sched_to_purge in
  (∀ name st,
     (name, st) ∈ [("1/i1/Hdoc-42/h1/content", DelDelivered true);
                   ("1/i1/Hdoc-42/h1/meta", DelDelivered true)] →
     st = DelDelivered true ∧
     (Unit 0, Delete_file name) ∈ tail (trace m) ∧
     (Unit 0, File_deleted name true) ∈ tail (trace m)) ∧
  (∀ ev, (Unit 0, ev) ∈ [] → ¬ is_delete_event ev) ∧
  (∀ files name,
     listed (AwaitPurge ["1/i1/Hdoc-42/h1/content"; "1/i1/Hdoc-42/h1/meta"] Waiting) files →
     name ∈ files →
     name ∈ seen m ∨
     name ∈ ["1/i1/Hdoc-42/h1/content"; "1/i1/Hdoc-42/h1/meta"]).
Proof.
  intros m.
  apply (deletes_before_purge Example.hex_of Example.env_ok Example.stores_one
           Example.sched_to_purge 0
           (Task Example.row_a 0
              (AwaitPurge ["1/i1/Hdoc-42/h1/content"; "1/i1/Hdoc-42/h1/meta"] Waiting)
              [("1/i1/Hdoc-42/h1/content", DelDelivered true);
               ("1/i1/Hdoc-42/h1/meta", DelDelivered true)])
           [] (tail (trace m)) 7 "doc-42" "h1").
  - vm_compute. reflexivity.
  - vm_compute. reflexivity.
Defined.

Lemma purge_removes_deleted_versions_only_witness :
  let m := check Example.hex_of Example.env_ok Example.stores_one Example.sched_one in
  (Example.row_a ∉ data_sources_documents (world m) →
   status Example.row_a = "deleted" ∧
   ∃ i, (Unit i, Purge 7 "doc-42" "h1") ∈ trace m) ∧
  (status Example.row_a = "active" → Example.row_a ∈ data_sources_documents (world m)).
Proof.
  intros m.
  apply (purge_removes_deleted_versions_only Example.hex_of Example.env_ok
           Example.stores_one Example.sched_one Example.row_a).
  apply list_elem_of_here.
Defined.

(** C10 as the specification states it fails on the rows of
    [rows_with_late_duplicate]: the [f.delete()] of the first unit fails,
    nothing is added to [seen], but the check is rejected and the thirty-third
    row, a duplicate of the first, gets no unit, whatever turns follow: the
    failed version is not tried again in that run. *)
Lemma failed_unit_is_not_retried :
  let m := check Example.hex_of Example.env_ok Example.stores_late_duplicate
             Example.sched_delete_fails in
  select_deleted Example.stores_late_duplicate !! 32%nat =
    Some (Document 32 150 7 "doc-0" "h1" "deleted") ∧
  same_version 7 "doc-0" "h1" (Document 32 150 7 "doc-0" "h1" "deleted") ∧
  pc <$> tasks m !! 0%nat = Some (Thrown RequestFailed) ∧
  row <$> tasks m !! 0%nat = Some (Document 0 100 7 "doc-0" "h1" "deleted") ∧
  seen m = ∅ ∧
  ∀ more,
    main (check Example.hex_of Example.env_ok Example.stores_late_duplicate
            (Example.sched_delete_fails ++ more)) = Rejected RequestFailed ∧
    tasks (check Example.hex_of Example.env_ok Example.stores_late_duplicate
             (Example.sched_delete_fails ++ more)) !! 32%nat = None.
Proof.
  intros m.
  assert (main m = Rejected RequestFailed) as Hm by (vm_compute; reflexivity).
  assert (length (tasks m) = 32%nat) as Hl by (vm_compute; reflexivity).
  split; [|split; [|split; [|split; [|split]]]].
  - vm_compute. reflexivity.
  - vm_compute. by split_and!.
  - vm_compute. reflexivity.
  - vm_compute. reflexivity.
  - by vm_compute.
  - intros more.
    destruct (rejected_stays Example.hex_of Example.env_ok Example.stores_late_duplicate
                Example.sched_delete_fails RequestFailed Hm more) as [Hmain Hlen].
    split; [exact Hmain|]. apply lookup_ge_None. unfold m in Hl. rewrite Hlen, Hl. lia.
Qed.

Lemma seen_updated_after_purge_witness :
  (seen (check Example.hex_of Example.env_ok Example.stores_one
           ((Example.sched_to_purge ++ [Settle 0 true]) ++ [Resume 0])) =
     seen (check Example.hex_of Example.env_ok Example.stores_one
             (Example.sched_to_purge ++ [Settle 0 true]))
     ∪ list_to_set ["1/i1/Hdoc-42/h1/content"; "1/i1/Hdoc-42/h1/meta"]
     ∪ {[ uid Example.row_a ]} ∧
   ∃ t', tasks (check Example.hex_of Example.env_ok Example.stores_one
                  ((Example.sched_to_purge ++ [Settle 0 true]) ++ [Resume 0]))
           !! 0%nat = Some t' ∧
         pc t' = Returned true) ∧
  (∀ key, (Unit 0, Seen_add key) ∉
          trace (check Example.hex_of Example.env_ok Example.stores_one
                   Example.sched_delete_fails)) ∧
  (seen (check Example.hex_of Example.env_ok Example.stores_one
           (Example.sched_to_purge ++ [Settle 0 false; Resume 0])) =
     seen (check Example.hex_of Example.env_ok Example.stores_one
             Example.sched_to_purge) ∧
   ∃ t', tasks (check Example.hex_of Example.env_ok Example.stores_one
                  (Example.sched_to_purge ++ [Settle 0 false; Resume 0]))
           !! 0%nat = Some t' ∧
         pc t' = Thrown RequestFailed) ∧
  (seen (check Example.hex_of Example.env_ok Example.stores_one
           ((Example.sched_source ++ [Settle 0 true; Resume 0]) ++
            [Settle_delete 0 1 false; Resume_delete 0 1])) =
     seen (check Example.hex_of Example.env_ok Example.stores_one
             (Example.sched_source ++ [Settle 0 true; Resume 0])) ∧
   ∃ t', tasks (check Example.hex_of Example.env_ok Example.stores_one
                  ((Example.sched_source ++ [Settle 0 true; Resume 0]) ++
                   [Settle_delete 0 1 false; Resume_delete 0 1]))
           !! 0%nat = Some t' ∧
         pc t' = Thrown RequestFailed) ∧
  (∃ er', aborted Example.hex_of Example.env_ok Example.stores_one
            Example.sched_delete_fails er').
Proof.
  split; [|split; [|split; [|split]]].
  - destruct (seen_updated_after_purge Example.hex_of Example.env_ok
                Example.stores_one (Example.sched_to_purge ++ [Settle 0 true]))
      as (Hdone & _).
    apply (Hdone 0%nat
             (Task Example.row_a 0
                (AwaitPurge ["1/i1/Hdoc-42/h1/content"; "1/i1/Hdoc-42/h1/meta"]
                   (Settled (Some ())))
                [("1/i1/Hdoc-42/h1/content", DelDelivered true);
                 ("1/i1/Hdoc-42/h1/meta", DelDelivered true)])
             ["1/i1/Hdoc-42/h1/content"; "1/i1/Hdoc-42/h1/meta"] ()).
    + vm_compute. reflexivity.
    + reflexivity.
  - destruct (seen_updated_after_purge Example.hex_of Example.env_ok
                Example.stores_one Example.sched_delete_fails)
      as (_ & _ & Hnone & _).
    apply (Hnone 0%nat
             (Task Example.row_a 0 (Thrown RequestFailed)
                [("1/i1/Hdoc-42/h1/content", DelDelivered false);
                 ("1/i1/Hdoc-42/h1/meta", DelIssued)])).
    + vm_compute. reflexivity.
    + discriminate.
  - destruct (seen_updated_after_purge Example.hex_of Example.env_ok
                Example.stores_one Example.sched_to_purge)
      as (_ & _ & _ & Hfail & _).
    apply (Hfail 0%nat
             (Task Example.row_a 0
                (AwaitPurge ["1/i1/Hdoc-42/h1/content"; "1/i1/Hdoc-42/h1/meta"] Waiting)
                [("1/i1/Hdoc-42/h1/content", DelDelivered true);
                 ("1/i1/Hdoc-42/h1/meta", DelDelivered true)])).
    + vm_compute. reflexivity.
    + exact I.
  - destruct (seen_updated_after_purge Example.hex_of Example.env_ok
                Example.stores_one (Example.sched_source ++ [Settle 0 true; Resume 0]))
      as (_ & _ & _ & _ & Hdel & _).
    apply (Hdel 0%nat
             (Task Example.row_a 0
                (AwaitDeletes ["1/i1/Hdoc-42/h1/content"; "1/i1/Hdoc-42/h1/meta"])
                [("1/i1/Hdoc-42/h1/content", DelIssued);
                 ("1/i1/Hdoc-42/h1/meta", DelIssued)])
             1%nat "1/i1/Hdoc-42/h1/meta"
             ["1/i1/Hdoc-42/h1/content"; "1/i1/Hdoc-42/h1/meta"]).
    + vm_compute. reflexivity.
    + reflexivity.
    + reflexivity.
  - destruct (seen_updated_after_purge Example.hex_of Example.env_ok
                Example.stores_one Example.sched_delete_fails)
      as (_ & _ & _ & _ & _ & Habort).
    apply (Habort 0%nat
             (Task Example.row_a 0 (Thrown RequestFailed)
                [("1/i1/Hdoc-42/h1/content", DelDelivered false);
                 ("1/i1/Hdoc-42/h1/meta", DelIssued)])
             RequestFailed).
    + vm_compute. reflexivity.
    + reflexivity.
Defined.

(** C8 as the specification states it fails on the run of [stores_one]: the
    check resolves, one call of [scrubDocument] returned [true], and no call
    of [reportSuccess] carries a field [unitsScrubbed] equal to 1. *)
Lemma report_carries_no_count :
  let m := check Example.hex_of Example.env_ok Example.stores_one Example.sched_one in
  main m = Resolved ∧
  units_scrubbed (tasks m) = 1%nat ∧
  ¬ ∃ payload, (Main, Report_success payload) ∈ trace m ∧
               field "unitsScrubbed" payload = Some 1.
Proof.
  intros m. split_and!; [by vm_compute..|].
  intros (payload & Hin & Hfield).
  remember (trace m) as tr eqn:Htr. vm_compute in Htr. subst tr.
  repeat (apply elem_of_cons in Hin as [Hin|Hin];
          [try discriminate Hin; injection Hin as ->; discriminate Hfield|]).
  by apply elem_of_nil in Hin.
Qed.

Lemma report_once_with_empty_summary_witness :
  let m := check Example.hex_of Example.env_ok Example.stores_one Example.sched_one in
  ∃ tr, trace m = (Main, Report_success []) ::
                  (Main, Log_done (units_scrubbed (tasks m))) :: tr ∧
        (∀ a payload, (a, Report_success payload) ∉ tr) ∧
        deletedCount m = units_scrubbed (tasks m).
Proof.
  intros m.
  apply (report_once_with_empty_summary Example.hex_of Example.env_ok
           Example.stores_one Example.sched_one).
  by vm_compute.
Defined.

(** C9 as the specification states it fails without the service account:
    the query for the deleted rows is made all the same, and on stores with
    no deleted row the check resolves and reports. *)
Lemma candidates_fetched_without_account :
  not_defined (SERVICE_ACCOUNT Example.env_no_account) = true ∧
  (Main, Query_deleted) ∈
    trace (check Example.hex_of Example.env_no_account Example.stores_one
             Example.sched_fetch) ∧
  main (check Example.hex_of Example.env_no_account Example.stores_one
          Example.sched_fetch) = Rejected (MissingEnv "SERVICE_ACCOUNT") ∧
  main (check Example.hex_of Example.env_no_account Example.stores_none
          Example.sched_fetch) = Resolved.
Proof.
  split_and!; try (by vm_compute). vm_compute. apply list_elem_of_here.
Qed.

Lemma missing_configuration_witness :
  (check Example.hex_of Example.env_no_database Example.stores_one Example.sched_one
   = init Example.env_no_database Example.stores_one ∧
   trace (check Example.hex_of Example.env_no_database Example.stores_one
            Example.sched_one) = [] ∧
   main (check Example.hex_of Example.env_no_database Example.stores_one
           Example.sched_one) = Rejected (MissingEnv "CORE_DATABASE_URI")) ∧
  ((Main, Query_deleted) ∈
     trace (check Example.hex_of Example.env_no_account Example.stores_one
              Example.sched_one) ∧
   world (check Example.hex_of Example.env_no_account Example.stores_one
            Example.sched_one) = Example.stores_one ∧
   (∀ i ev, (Unit i, ev) ∉
            trace (check Example.hex_of Example.env_no_account Example.stores_one
                     Example.sched_one)) ∧
   (∀ t, t ∈ tasks (check Example.hex_of Example.env_no_account Example.stores_one
                      Example.sched_one) → env_thrown (pc t)) ∧
   (tasks (check Example.hex_of Example.env_no_account Example.stores_one
             Example.sched_one) ≠ [] →
    ∃ er, main (check Example.hex_of Example.env_no_account Example.stores_one
                  Example.sched_one) = Rejected er) ∧
   (main (check Example.hex_of Example.env_no_account Example.stores_one
            Example.sched_one) = Resolved →
    select_deleted Example.stores_one = []) ∧
   (select_deleted Example.stores_one = [] →
    main (check Example.hex_of Example.env_no_account Example.stores_one
            (Settle_main true :: Resume_main :: Example.sched_one)) = Resolved ∧
    (Main, Report_success []) ∈
      trace (check Example.hex_of Example.env_no_account Example.stores_one
               (Settle_main true :: Resume_main :: Example.sched_one)))) ∧
  (main (check Example.hex_of Example.env_no_account Example.stores_none
           (Settle_main true :: Resume_main :: Example.sched_one)) = Resolved ∧
   (Main, Report_success []) ∈
     trace (check Example.hex_of Example.env_no_account Example.stores_none
              (Settle_main true :: Resume_main :: Example.sched_one))).
Proof.
  split; [|split].
  - apply (missing_configuration Example.hex_of Example.env_no_database
             Example.stores_one Example.sched_one). reflexivity.
  - apply (missing_configuration Example.hex_of Example.env_no_account
             Example.stores_one Example.sched_one); [reflexivity|]. left. reflexivity.
  - apply (missing_configuration Example.hex_of Example.env_no_account
             Example.stores_none Example.sched_one);
      [reflexivity|left; reflexivity|reflexivity].
Defined.

(** C2 as the specification states it fails on thirty-three deleted rows:
    the [f.delete()] of the first unit fails, the check is rejected, and
    although the thirty-one other units of the first chunk all finish, the
    unit of the thirty-third row is never started, whatever turns follow. *)
Lemma failed_delete_stops_later_chunk :
  let sched := Example.sched_delete_fails ++ Example.sched_siblings in
  let m := check Example.hex_of Example.env_ok (Example.stores_many 7) sched in
  (Unit 0, File_deleted "1/i1/Hdoc-0/h1/content" false) ∈ trace m ∧
  length (select_deleted (Example.stores_many 7)) = 33%nat ∧
  forallb Example.finished (tasks m) = true ∧
  main m = Rejected RequestFailed ∧
  ∀ more,
    main (check Example.hex_of Example.env_ok (Example.stores_many 7) (sched ++ more))
      = Rejected RequestFailed ∧
    length (tasks (check Example.hex_of Example.env_ok (Example.stores_many 7)
                     (sched ++ more))) = 32%nat.
Proof.
  intros sched m.
  assert (main m = Rejected RequestFailed) as Hm by (vm_compute; reflexivity).
  assert (length (tasks m) = 32%nat) as Hl by (vm_compute; reflexivity).
  split; [|split; [|split; [|split]]].
  - apply elem_of_events_of. vm_compute. apply list_elem_of_here.
  - vm_compute. reflexivity.
  - vm_compute. reflexivity.
  - exact Hm.
  - intros more. rewrite <- Hl. apply rejected_stays. exact Hm.
Qed.

Lemma failed_delete_aborts_run_witness :
  let m := check Example.hex_of Example.env_ok Example.stores_one
             Example.sched_delete_fails in
  let t := Task Example.row_a 0 (Thrown RequestFailed)
             [("1/i1/Hdoc-42/h1/content", DelDelivered false);
              ("1/i1/Hdoc-42/h1/meta", DelIssued)] in
  (∀ ds doc h, (Unit 0, Purge ds doc h) ∉ trace m) ∧
  pc t ≠ Returned true ∧
  (("1/i1/Hdoc-42/h1/content", DelDelivered false) ∈ deletes t →
   is_thrown (pc t) ∧
   ∃ er, aborted Example.hex_of Example.env_ok Example.stores_one
           Example.sched_delete_fails er).
Proof.
  intros m t.
  apply (failed_delete_aborts_run Example.hex_of Example.env_ok Example.stores_one
           Example.sched_delete_fails 0 t "1/i1/Hdoc-42/h1/content").
  - vm_compute. reflexivity.
  - right. apply list_elem_of_here.
Defined.

(** C3 as the specification states it fails on thirty-three deleted rows, the
    first of a source that has no row: its unit throws, the check is
    rejected and reports nothing, and although the thirty-one other units of
    the first chunk all finish, the unit of the thirty-third row is never
    started, whatever turns follow. *)
Lemma missing_source_stops_run :
  let sched := Example.sched_source ++ Example.sched_siblings in
  let m := check Example.hex_of Example.env_ok (Example.stores_many 8) sched in
  select_data_source (Example.stores_many 8) 8 = [] ∧
  pc <$> tasks m !! 0%nat = Some (Thrown (DataSourceNotFound 8)) ∧
  length (select_deleted (Example.stores_many 8)) = 33%nat ∧
  forallb Example.finished (tasks m) = true ∧
  main m = Rejected (DataSourceNotFound 8) ∧
  (∀ a payload, (a, Report_success payload) ∉ trace m) ∧
  ∀ more,
    main (check Example.hex_of Example.env_ok (Example.stores_many 8) (sched ++ more))
      = Rejected (DataSourceNotFound 8) ∧
    length (tasks (check Example.hex_of Example.env_ok (Example.stores_many 8)
                     (sched ++ more))) = 32%nat.
Proof.
  intros sched m.
  assert (main m = Rejected (DataSourceNotFound 8)) as Hm by (vm_compute; reflexivity).
  assert (length (tasks m) = 32%nat) as Hl by (vm_compute; reflexivity).
  split; [|split; [|split; [|split; [|split; [|split]]]]].
  - vm_compute. reflexivity.
  - vm_compute. reflexivity.
  - vm_compute. reflexivity.
  - vm_compute. reflexivity.
  - exact Hm.
  - apply not_reported. fold m. rewrite Hm. discriminate.
  - intros more. rewrite <- Hl. apply rejected_stays. exact Hm.
Qed.

Lemma missing_source_aborts_run_witness :
  let m := check Example.hex_of Example.env_ok (Example.stores_many 8)
             Example.sched_source in
  let t := Task (Document 0 100 8 "doc-0" "h1" "deleted") 0
             (Thrown (DataSourceNotFound 8)) [] in
  Forall is_query (events_of 0 (trace m)) ∧
  deletes t = [] ∧
  before_listing (pc t) ∧
  (pc t = AwaitSource Waiting →
   ∃ t', tasks (check Example.hex_of Example.env_ok (Example.stores_many 8)
                  (Example.sched_source ++ [Settle 0 true; Resume 0])) !! 0%nat = Some t' ∧
         pc t' = Thrown (DataSourceNotFound (data_source (row t)))) ∧
  (is_thrown (pc t) →
   ∃ er, aborted Example.hex_of Example.env_ok (Example.stores_many 8)
           Example.sched_source er).
Proof.
  intros m t.
  apply (missing_source_aborts_run Example.hex_of Example.env_ok (Example.stores_many 8)
           Example.sched_source 0 t).
  - vm_compute. reflexivity.
  - vm_compute. reflexivity.
Defined.




Lemma resolved_after_every_row_witness :
  let m := check Example.hex_of Example.env_ok Example.stores_one Example.sched_one in
  row <$> tasks m = select_deleted Example.stores_one ∧
  Forall (λ t, is_returned (pc t)) (tasks m).
Proof.
  intros m.
  apply (resolved_after_every_row Example.hex_of Example.env_ok Example.stores_one
           Example.sched_one).
  vm_compute. reflexivity.
Defined.

Lemma chunks_one_after_the_other_witness :
  is_returned (pc (Task (Document 0 100 7 "doc-0" "h1" "deleted") 0 (Returned true)
                     [("1/i1/Hdoc-0/h1/content", DelDelivered true)])).
Proof.
  apply (chunks_one_after_the_other Example.hex_of Example.env_ok
           Example.stores_late_duplicate Example.sched_late_duplicate 0 32
           (Task (Document 0 100 7 "doc-0" "h1" "deleted") 0 (Returned true)
              [("1/i1/Hdoc-0/h1/content", DelDelivered true)])
           (Task (Document 32 150 7 "doc-0" "h1" "deleted") 1 (Returned false) [])).
  - vm_compute. reflexivity.
  - vm_compute. reflexivity.
  - simpl. lia.
Defined.

Lemma thrown_errors_are_justified_witness :
  (RequestFailed = RequestFailed ∧
   request_rejected Example.hex_of Example.env_ok Example.stores_one
     Example.sched_delete_fails 0) ∨
  (RequestFailed = MissingEnv "DUST_DATA_SOURCES_BUCKET" ∧
   not_defined (DUST_DATA_SOURCES_BUCKET Example.env_ok) = true) ∨
  (RequestFailed = MissingEnv "SERVICE_ACCOUNT" ∧
   not_defined (SERVICE_ACCOUNT Example.env_ok) = true ∧
   not_defined (DUST_DATA_SOURCES_BUCKET Example.env_ok) = false) ∨
  (RequestFailed = DataSourceNotFound (data_source Example.row_a) ∧
   no_source Example.stores_one Example.row_a).
Proof.
  apply (thrown_errors_are_justified Example.hex_of Example.env_ok Example.stores_one
           Example.sched_delete_fails 0
           (Task Example.row_a 0 (Thrown RequestFailed)
              [("1/i1/Hdoc-42/h1/content", DelDelivered false);
               ("1/i1/Hdoc-42/h1/meta", DelIssued)])).
  - vm_compute. reflexivity.
  - reflexivity.
Defined.

Lemma rejection_has_a_cause_witness :
  rejected_because Example.env_ok
    (check Example.hex_of Example.env_ok (Example.stores_many 8)
       (Example.sched_source ++ [Settle 0 true; Resume 0]))
    (DataSourceNotFound 8).
Proof.
  apply (rejection_has_a_cause Example.hex_of Example.env_ok (Example.stores_many 8)
           (Example.sched_source ++ [Settle 0 true; Resume 0]) (DataSourceNotFound 8)).
  vm_compute. reflexivity.
Defined.

Lemma only_blobs_of_deleted_versions_are_deleted_witness :
  let m := check Example.hex_of Example.env_ok Example.stores_one Example.sched_one in
  ∃ i t src,
    tasks m !! i = Some t ∧
    (Unit i, File_deleted "1/i1/Hdoc-42/h1/content" true) ∈ trace m ∧
    row t ∈ select_deleted Example.stores_one ∧
    ¬ has_live Example.stores_one (row t) ∧
    src ∈ data_sources Example.stores_one ∧ ds_id src = data_source (row t) ∧
    String.prefix (blob_path Example.hex_of src (row t)) "1/i1/Hdoc-42/h1/content" = true.
Proof.
  intros m.
  apply (only_blobs_of_deleted_versions_are_deleted Example.hex_of Example.env_ok
           Example.stores_one Example.sched_one "1/i1/Hdoc-42/h1/content").
  - apply list_elem_of_here.
  - remember (bucket (world (check Example.hex_of Example.env_ok Example.stores_one
                               Example.sched_one))) as b eqn:Hb.
    vm_compute in Hb. subst b. apply not_elem_of_nil.
Defined.

Lemma returned_true_has_scrubbed_witness :
  let m := check Example.hex_of Example.env_ok Example.stores_one Example.sched_one in
  let t := Task Example.row_a 0 (Returned true)
             [("1/i1/Hdoc-42/h1/content", DelDelivered true);
              ("1/i1/Hdoc-42/h1/meta", DelDelivered true)] in
  (∀ r, r ∈ data_sources_documents (world m) →
        same_version (data_source (row t)) (document_id (row t)) (hash (row t)) r →
        ¬ is_deleted r) ∧
  (∀ name st, (name, st) ∈ deletes t →
              st = DelDelivered true ∧ name ∉ bucket (world m)) ∧
  uid (row t) ∈ seen m.
Proof.
  intros m t.
  apply (returned_true_has_scrubbed Example.hex_of Example.env_ok Example.stores_one
           Example.sched_one 0 t).
  - vm_compute. reflexivity.
  - reflexivity.
Defined.

Lemma uid_tells_versions_apart_witness :
  same_version (data_source Example.row_a) (document_id Example.row_a)
    (hash Example.row_a) Example.row_a2.
Proof.
  apply (uid_tells_versions_apart Example.row_a Example.row_a2).
  - simpl. lia.
  - simpl. lia.
  - vm_compute. reflexivity.
  - vm_compute. reflexivity.
  - vm_compute. reflexivity.
Defined.

Lemma resolved_run_leaves_only_shadowed_rows_witness :
  has_live
    (world (check Example.hex_of Example.env_ok Example.stores_live Example.sched_live))
    Example.row_a.
Proof.
  apply (resolved_run_leaves_only_shadowed_rows Example.hex_of Example.env_ok
           Example.stores_live Example.sched_live Example.row_a).
  - split.
    + intros d Hd _. simpl in Hd.
      repeat (apply elem_of_cons in Hd as [->|Hd]; [split; [simpl; lia|by vm_compute]|]).
      by apply elem_of_nil in Hd.
    + intros src Hsrc. simpl in Hsrc.
      repeat (apply elem_of_cons in Hsrc as [->|Hsrc]; [simpl; lia|]).
      by apply elem_of_nil in Hsrc.
  - vm_compute. reflexivity.
  - remember (data_sources_documents
                (world (check Example.hex_of Example.env_ok Example.stores_live
                          Example.sched_live))) as l eqn:Hl.
    vm_compute in Hl. subst l. apply list_elem_of_here.
  - reflexivity.
Defined.

Lemma second_run_changes_nothing_witness :
  let w1 := world (check Example.hex_of Example.env_ok Example.stores_twice_live
                     Example.sched_twice_live) in
  let m2 := check Example.hex_of Example.env_ok w1 Example.sched_twice_live in
  world m2 = w1 ∧ deletedCount m2 = 0%nat ∧ seen m2 = ∅ ∧
  ∀ i, Forall is_query_more_recent (events_of i (trace m2)).
Proof.
  intros w1 m2.
  apply (second_run_changes_nothing Example.hex_of Example.env_ok
           Example.stores_twice_live Example.sched_twice_live
           Example.env_ok Example.sched_twice_live).
  - split.
    + intros d Hd _. simpl in Hd.
      repeat (apply elem_of_cons in Hd as [->|Hd]; [split; [simpl; lia|by vm_compute]|]).
      by apply elem_of_nil in Hd.
    + intros src Hsrc. simpl in Hsrc.
      repeat (apply elem_of_cons in Hsrc as [->|Hsrc]; [simpl; lia|]).
      by apply elem_of_nil in Hsrc.
  - vm_compute. reflexivity.
Defined.

Lemma seen_holds_keys_and_deleted_names_witness :
  let m := check Example.hex_of Example.env_ok Example.stores_one Example.sched_one in
  key_of_scrubbed m "1/i1/Hdoc-42/h1/content" ∨
  "1/i1/Hdoc-42/h1/content" ∉ bucket (world m).
Proof.
  intros m.
  apply (seen_holds_keys_and_deleted_names Example.hex_of Example.env_ok
           Example.stores_one Example.sched_one "1/i1/Hdoc-42/h1/content").
  apply (bool_decide_unpack _). vm_compute. exact I.
Defined.

Lemma scrubbed_version_has_no_object_left_witness :
  "1/i1/Hdoc-42/h1/content" ∉
    bucket (world (check Example.hex_of Example.env_ok Example.stores_one
                     Example.sched_one)).
Proof.
  apply (scrubbed_version_has_no_object_left Example.hex_of Example.env_ok
           Example.stores_one Example.sched_one 0
           (Task Example.row_a 0 (Returned true)
              [("1/i1/Hdoc-42/h1/content", DelDelivered true);
               ("1/i1/Hdoc-42/h1/meta", DelDelivered true)])
           "1/i1/Hdoc-42/h1" "1/i1/Hdoc-42/h1/content").
  - split.
    + intros d Hd _. simpl in Hd.
      repeat (apply elem_of_cons in Hd as [->|Hd]; [split; [simpl; lia|by vm_compute]|]).
      by apply elem_of_nil in Hd.
    + intros src Hsrc. simpl in Hsrc.
      repeat (apply elem_of_cons in Hsrc as [->|Hsrc]; [simpl; lia|]).
      by apply elem_of_nil in Hsrc.
  - vm_compute. reflexivity.
  - reflexivity.
  - vm_compute. reflexivity.
  - vm_compute. reflexivity.
Defined.

Lemma onSave_replaces_managed_selection_witness :
  ("notion", "rows") ∈ [("notion", "rows")].
Proof.
  apply (TablesQuery.onSave_replaces_managed_selection (string * string) fst
           Example.table_key [("notion", "rows")] Example.notion Example.selection
           "notion/rows" ("notion", "rows")).
  - reflexivity.
  - vm_compute. reflexivity.
  - reflexivity.
Defined.

Lemma request_carries_the_valid_dataset_witness :
  ∃ i d hs1 hs2,
    [NewDataset.Update string true false "draft";
     NewDataset.Update string false true "rows"] =
      hs1 ++ NewDataset.Update string i true d :: hs2 ∧
    Forall (λ h, match h with NewDataset.Update _ _ _ _ => False | _ => True end) hs2 ∧
    NewDataset.posted string
      (NewDataset.after string
         ([NewDataset.Update string true false "draft";
           NewDataset.Update string false true "rows"] ++ [NewDataset.Click string]))
    = [Some d].
Proof.
  apply (NewDataset.request_carries_the_valid_dataset string
           [NewDataset.Update string true false "draft";
            NewDataset.Update string false true "rows"]).
  vm_compute. discriminate.
Defined.


Lemma onSave_error_iff_witness :
  TablesQuery.hasErrorActionTablesQuery (string * string)
    (TablesQuery.TABLES_QUERY (string * string)
       (TablesQuery.onSave (string * string) fst Example.table_key
          [("notion", "rows")] Example.notion ∅)) = None ∧
  TablesQuery.hasErrorActionTablesQuery (string * string)
    (TablesQuery.TABLES_QUERY (string * string)
       (TablesQuery.onSave (string * string) fst (λ _, "__proto__")
          [("notion", "rows")] Example.notion ∅)) ≠ None.
Proof.
  split.
  - apply (TablesQuery.onSave_error_iff (string * string) fst Example.table_key
             [("notion", "rows")] Example.notion ∅).
    right. exists ("notion", "rows"). split; [apply list_elem_of_here|discriminate].
  - intros Hnone.
    apply (TablesQuery.onSave_error_iff (string * string) fst (λ _, "__proto__")
             [("notion", "rows")] Example.notion ∅) in Hnone
      as [(k & t & Hk)|(t & _ & Hne)]; [|done].
    unfold TablesQuery.surviving in Hk. by rewrite lookup_empty in Hk.
Defined.
